(** * Monte-Carlo tree search of alpha_zero (src/mcts.py)

    A shallow embedding of [mcts.py].  Python objects live in an arena
    (a list of node records addressed by index), so that the parent
    back-reference and the in-place updates of [backup] and
    [expand_and_evaluate] are modelled with their aliasing.  Python floats
    are idealised as real numbers, as the data model of the specification
    does, but for the one exception that their arithmetic raises on finite
    inputs, the [OverflowError] of a power that leaves the range of the
    doubles; Python's unbounded [int] visit counter, which starts at 0 and
    is only ever incremented, is a [nat].  The evaluator and the rules
    engine are parameters, taken to return without raising; logging has no
    part in the search and is left out.  A sum or a quotient that leaves
    the range of the doubles raises nothing in Python and is not followed
    by the model: the theorems on the sampling and on the policy take the
    powers of the visit counts within that range.  Where rounding decides
    the truth of a claim, the lines concerned are embedded a second time,
    over the binary64 floats of the program (module [Binary64]). *)

From Stdlib Require Import Floats Uint63.
From Stdlib Require Import Reals Lra Lia ZArith List.
From stdpp Require Import base option list sorting gmap.

Local Open Scope R_scope.

(** ** Outcomes of Python code *)

Inductive exn : Set :=
| ZeroDivisionError
| ValueError
| IndexError
| OverflowError.

(** [Raise e] is an uncaught Python exception.  [Dangling] is a reference
    to no object of the arena (Python has no such reference) and
    [OutOfFuel] is a [while] loop stopped by the bound of the model. *)
Inductive res (A : Type) : Type :=
| Ok (x : A)
| Raise (e : exn)
| Dangling
| OutOfFuel.

Arguments Ok {A} x.
Arguments Raise {A} e.
Arguments Dangling {A}.
Arguments OutOfFuel {A}.

Definition res_bind {A B : Type} (f : A -> res B) (m : res A) : res B :=
  match m with
  | Ok x => f x
  | Raise e => Raise e
  | Dangling => Dangling
  | OutOfFuel => OutOfFuel
  end.

#[global] Instance res_ret : MRet res := fun A x => Ok x.
#[global] Instance res_mbind : MBind res := fun A B f m => res_bind f m.

(** [[f x for x in l]] with a body that may raise. *)
Fixpoint res_mapM {A B : Type} (f : A -> res B) (l : list A) : res (list B) :=
  match l with
  | [] => Ok []
  | x :: l' => y ← f x; ys ← res_mapM f l'; Ok (y :: ys)
  end.

(** [for x in l: acc = f(acc, x)] with a body that may raise. *)
Fixpoint res_foldM {A B : Type} (f : B -> A -> res B) (l : list A) (acc : B) : res B :=
  match l with
  | [] => Ok acc
  | x :: l' => acc' ← f acc x; res_foldM f l' acc'
  end.

(** ** Python primitives used by the module *)

(** [x / y] on numbers. *)
Definition py_div (x y : R) : res R :=
  if Req_dec_T y 0 then Raise ZeroDivisionError else Ok (x / y).

(** The least real that rounds to no finite double: [2^1024 - 2^970],
    half a unit in the last place above the greatest double. *)
Definition float_overflow : R := 2 ^ 1024 - 2 ^ 970.

(** [b ** e] for an [int] base (a visit count) and a [float] exponent:
    [0 ** e] raises [ZeroDivisionError] for a negative [e], and a power
    that leaves the range of the doubles raises [OverflowError]
    ([2 ** 1024.0], [799 ** 200.0]).  The count itself is converted to a
    float without error. *)
Definition py_pow (b : nat) (e : R) : res R :=
  match b with
  | O => if Rlt_dec e 0 then Raise ZeroDivisionError
         else if Req_dec_T e 0 then Ok 1 else Ok 0
  | S _ => if Rle_dec float_overflow (Rpower (INR b) e) then Raise OverflowError
           else Ok (Rpower (INR b) e)
  end.

(** [sum(l)]: the builtin starts from 0 and adds from the left. *)
Definition py_sum (l : list R) : R := fold_left Rplus l 0.
Definition py_sum_int (l : list nat) : nat := fold_left Nat.add l 0%nat.

(** [range(k)] *)
Definition py_range (k : Z) : list nat := seq 0 (Z.to_nat k).

(** [enumerate(l)] *)
Definition py_enumerate {A : Type} (l : list A) : list (nat * A) :=
  zip (seq 0 (length l)) l.

(** [max(l, key=key)]: the first item is the candidate, and a later item
    replaces it only when its key is strictly greater. *)
Fixpoint py_max_from {A : Type} (key : A -> R) (best : A) (l : list A) : A :=
  match l with
  | [] => best
  | x :: l' =>
      if Rgt_dec (key x) (key best) then py_max_from key x l'
      else py_max_from key best l'
  end.

Definition py_max {A : Type} (key : A -> R) (l : list A) : res A :=
  match l with
  | [] => Raise ValueError
  | x :: l' => Ok (py_max_from key x l')
  end.

(** [bisect.bisect(cum, x, 0, hi)] on a non-decreasing list: the number of
    leading items, among the first [hi], that are [<= x]. *)
Fixpoint py_bisect (cum : list R) (x : R) (hi : nat) : nat :=
  match hi, cum with
  | S hi', c :: cum' => if Rlt_dec x c then O else S (py_bisect cum' x hi')
  | _, _ => O
  end.

(** [itertools.accumulate(l)] *)
Fixpoint py_accumulate_from (acc : R) (l : list R) : list R :=
  match l with
  | [] => []
  | x :: l' => (acc + x) :: py_accumulate_from (acc + x) l'
  end.

Definition py_accumulate (l : list R) : list R :=
  match l with
  | [] => []
  | x :: l' => x :: py_accumulate_from x l'
  end.

(** [random.choices(population, weights=weights)[0]], where [u], in
    [0, 1), is the number that [random()] draws. *)
Definition py_choices {A : Type} (u : R) (population : list A) (weights : list R)
  : res A :=
  let cum := py_accumulate weights in
  if negb (length cum =? length population)%nat then Raise ValueError
  else match last cum with
       | None => Raise IndexError
       | Some total =>
           if Rle_dec total 0 then Raise ValueError
           else match population !! py_bisect cum (u * total) (length population - 1) with
                | Some x => Ok x
                | None => Raise IndexError
                end
       end.

(** ** Nodes *)

Module Node.

Record t (State : Type) : Type := mk {
  n : nat;                 (* visit count *)
  w : R;                   (* total action-value *)
  q : R;                   (* mean action-value *)
  p : R;                   (* prior probability of selecting the edge *)
  parent : option nat;
  a : option nat;
  s : State;
  to_play : Z;
  children : list nat
}.

Arguments mk {State}.
Arguments n {State}.
Arguments w {State}.
Arguments q {State}.
Arguments p {State}.
Arguments parent {State}.
Arguments a {State}.
Arguments s {State}.
Arguments to_play {State}.
Arguments children {State}.

(** [Node.__init__] *)
Definition init {State : Type} (parent : option nat) (a : option nat)
    (s : State) (to_play : Z) (p : R) : t State :=
  mk 0 0 0 p parent a s to_play [].

Definition set_n {State} (x : nat) (nd : t State) : t State :=
  mk x (w nd) (q nd) (p nd) (parent nd) (a nd) (s nd) (to_play nd) (children nd).
Definition set_w {State} (x : R) (nd : t State) : t State :=
  mk (n nd) x (q nd) (p nd) (parent nd) (a nd) (s nd) (to_play nd) (children nd).
Definition set_q {State} (x : R) (nd : t State) : t State :=
  mk (n nd) (w nd) x (p nd) (parent nd) (a nd) (s nd) (to_play nd) (children nd).
Definition set_children {State} (x : list nat) (nd : t State) : t State :=
  mk (n nd) (w nd) (q nd) (p nd) (parent nd) (a nd) (s nd) (to_play nd) x.

(** [is_leaf] *)
Definition is_leaf {State} (self : t State) : bool :=
  (length (children self) =? 0)%nat.

(** [get_exploring_score] *)
Definition get_exploring_score {State} (self : t State) (sqrt_sum_n c_puct : R)
  : res R :=
  bonus ← py_div (c_puct * p self * sqrt_sum_n) (INR (1 + n self));
  Ok (- q self + bonus).

(** [get_action] *)
Definition get_action {State} (self : t State) : option nat := a self.

End Node.

(** The arena: the object of identity [i] is the [i]-th record. *)
Abbreviation heap State := (list (Node.t State)).

Definition deref {State : Type} (h : heap State) (i : nat) : res (Node.t State) :=
  match h !! i with
  | Some nd => Ok nd
  | None => Dangling
  end.

(** ** The search *)

(** The rules engine ([env]). *)
Record Env (State : Type) : Type := mkEnv {
  is_terminal : State -> bool;
  compute_reward : State -> R;
  is_legal : nat -> State -> bool;
  transition : State -> nat -> State;   (* the first component of the triple *)
  action_space_size : Z
}.

Arguments is_terminal {State}.
Arguments compute_reward {State}.
Arguments is_legal {State}.
Arguments transition {State}.
Arguments action_space_size {State}.

Section Mcts.

Variables State Board : Type.
Variable board : State -> Board.        (* [s.board] *)
Variable turn : State -> State.         (* [s.turn()], on the fresh state *)
Variable env : Env State.
Variable m : Board -> list R * R.       (* the evaluator: priors and value *)

Implicit Types (h : heap State) (nd : Node.t State).

(** The objects a list of references names, each with its reference. *)
Definition deref_all h (l : list nat) : res (list (nat * Node.t State)) :=
  res_mapM (fun c => x ← deref h c; Ok (c, x)) l.

(** [Node.get_best_child_to_explore] *)
Definition get_best_child_to_explore h (self : nat) (c_puct : R) : res nat :=
  nd ← deref h self;
  cs ← deref_all h (Node.children nd);
  let sqrt_sum_n := sqrt (INR (py_sum_int (map (fun c => Node.n c.2) cs))) in
  keyed ← res_mapM (fun c => k ← Node.get_exploring_score c.2 sqrt_sum_n c_puct;
                             Ok (c.1, k)) cs;
  best ← py_max snd keyed;
  Ok best.1.

(** [child.n ** (1 / temperature)] *)
Definition visit_weight (temperature : R) (child : Node.t State) : res R :=
  e ← py_div 1 temperature;
  py_pow (Node.n child) e.

(** [Node.get_best_child_to_play]; [u] is the draw of the generator. *)
Definition get_best_child_to_play h (self : nat) (temperature : R) (u : R)
  : res nat :=
  nd ← deref h self;
  cs ← deref_all h (Node.children nd);
  ws ← res_mapM (fun c => visit_weight temperature c.2) cs;
  let sum_n := py_sum ws in
  scores ← res_mapM (fun c => x ← visit_weight temperature c.2; py_div x sum_n) cs;
  py_choices u (Node.children nd) scores.

(** A dict built by a comprehension: a later item replaces an earlier one
    with the same key. *)
Definition py_dict (kvs : list (option nat * R)) : gmap (option nat) R :=
  foldl (fun d kv => <[kv.1 := kv.2]> d) ∅ kvs.

(** [Node.get_policy] *)
Definition get_policy h (self : nat) (temperature : R) (action_space : Z)
  : res (list R) :=
  nd ← deref h self;
  cs ← deref_all h (Node.children nd);
  ws ← res_mapM (fun c => visit_weight temperature c.2) cs;
  let sum_n := py_sum ws in
  kvs ← res_mapM (fun c => x ← visit_weight temperature c.2;
                           y ← py_div x sum_n;
                           Ok (Node.a c.2, y)) cs;
  let sparse_policy := py_dict kvs in
  Ok (map (fun a => default 0 (sparse_policy !! Some a)) (py_range action_space)).

(** [select]; [get_best_child_to_explore()] takes its default [c_puct = 1]. *)
Fixpoint select (fuel : nat) h (node : nat) : res nat :=
  match fuel with
  | O => OutOfFuel
  | S fuel' =>
      nd ← deref h node;
      if Node.is_leaf nd then Ok node
      else node' ← get_best_child_to_explore h node 1;
           select fuel' h node'
  end.

(** One turn of the loop of [expand_and_evaluate]. *)
Definition expand_step (leaf : nat) h (ap : nat * R) : res (heap State) :=
  let '(a, p) := ap in
  nd ← deref h leaf;
  if negb (is_legal env a (Node.s nd)) then Ok h
  else
    let s := turn (transition env (Node.s nd) a) in
    let child := Node.init (Some leaf) (Some a) s ((Node.to_play nd + 1) mod 2) p in
    let c := length h in
    let h' := h ++ [child] in
    nd' ← deref h' leaf;
    Ok (<[leaf := Node.set_children (Node.children nd' ++ [c]) nd']> h').

(** [expand_and_evaluate] *)
Definition expand_and_evaluate h (leaf : nat) : res (heap State) :=
  nd ← deref h leaf;
  if is_terminal env (Node.s nd) then
    Ok (<[leaf := Node.set_w (Node.w nd + compute_reward env (Node.s nd)) nd]> h)
  else
    let '(ps, v) := m (board (Node.s nd)) in
    let h1 := <[leaf := Node.set_w v nd]> h in
    res_foldM (expand_step leaf) (py_enumerate ps) h1.

(** The [while leaf is not None] loop of [backup]. *)
Fixpoint backup_loop (fuel : nat) (to_play : Z) (v : R) h (leaf : option nat)
  : res (heap State) :=
  match leaf with
  | None => Ok h
  | Some l =>
      match fuel with
      | O => OutOfFuel
      | S fuel' =>
          nd ← deref h l;
          let nd1 := Node.set_n (Node.n nd + 1) nd in
          let nd2 := Node.set_w
                       (Node.w nd1 + (if (Node.to_play nd1 =? to_play)%Z then v else - v))
                       nd1 in
          q ← py_div (Node.w nd2) (INR (Node.n nd2));
          let nd3 := Node.set_q q nd2 in
          backup_loop fuel' to_play v (<[l := nd3]> h) (Node.parent nd3)
      end
  end.

(** [backup] *)
Definition backup (fuel : nat) h (leaf : nat) : res (heap State) :=
  nd ← deref h leaf;
  let to_play := Node.to_play nd in
  let v := Node.w nd in
  let nd1 := Node.set_n (Node.n nd + 1) nd in
  q ← py_div (Node.w nd1) (INR (Node.n nd1));
  let nd2 := Node.set_q q nd1 in
  backup_loop fuel to_play v (<[leaf := nd2]> h) (Node.parent nd2).

(** The body of the loop of [search]. *)
Definition simulate (fuel : nat) (root : nat) h : res (heap State) :=
  leaf ← select fuel h root;
  h1 ← expand_and_evaluate h leaf;
  backup fuel h1 leaf.

(** [search]: the policy, and the arena as the simulations leave it. *)
Definition search (fuel : nat) h (root : nat) (num_simulations : Z) (temperature : R)
  : res (heap State * list R) :=
  h' ← res_foldM (fun h _ => simulate fuel root h) (py_range num_simulations) h;
  policy ← get_policy h' root temperature (action_space_size env);
  Ok (h', policy).

(** The defaults of [search]: [num_simulations = 800], [temperature = 1]. *)
Definition search_default (fuel : nat) h (root : nat) : res (heap State * list R) :=
  search fuel h root 800 1.

(** [play] *)
Definition play h (current_node : nat) (temperature : R) (u : R)
  : res (option nat * nat) :=
  next_node ← get_best_child_to_play h current_node temperature u;
  nd ← deref h next_node;
  Ok (Node.get_action nd, next_node).

(** ** Notions of the specification *)

(** The actions legal at [s] among the indices of the priors [ps], each
    with its prior, in the order of [enumerate(ps)]. *)
Definition legal_actions (ps : list R) (s : State) : list (nat * R) :=
  filter (fun ap => is_legal env ap.1 s) (py_enumerate ps).

(** The child that the expansion of the node [nd], of reference [leaf],
    creates for the action and prior [ap]. *)
Definition child_of (leaf : nat) nd (ap : nat * R) : Node.t State :=
  Node.mk 0 0 0 ap.2 (Some leaf) (Some ap.1)
    (turn (transition env (Node.s nd) ap.1))
    ((Node.to_play nd + 1) mod 2) [].

(** The sum of a list of reals. *)
Definition Rsum (l : list R) : R := foldr Rplus 0 l.

(** [n ^ (1 / temperature)] for the visit count of a node, at a positive
    temperature. *)
Definition visit_power (temperature : R) nd : R :=
  match Node.n nd with
  | O => 0
  | S _ => Rpower (INR (Node.n nd)) (1 / temperature)
  end.

(** The entry of the policy for the action [a]: the share of the child of
    action [a] in the total of the powers of the visit counts (of the last
    such child, should several have this action), and 0 without such a
    child. *)
Definition policy_entry (cs : list (Node.t State)) (temperature : R) (a : nat) : R :=
  match last (filter (fun c => Node.a c = Some a) cs) with
  | Some c => visit_power temperature c / Rsum (map (visit_power temperature) cs)
  | None => 0
  end.

(** The policy over the actions [0 .. action_space - 1]. *)
Definition policy_spec (cs : list (Node.t State)) (temperature : R) (action_space : Z)
  : list R :=
  map (policy_entry cs temperature) (py_range action_space).

(** [powers_in_range temperature cs]: the powers of the visit counts of
    [cs], and their sum, stay in the range of the doubles. *)
Definition powers_in_range (temperature : R) (cs : list (Node.t State)) : Prop :=
  Rsum (map (visit_power temperature) cs) < float_overflow.

(** [k] simulations in a row, each one [select], then
    [expand_and_evaluate] on the leaf that [select] returned, then [backup]
    from that leaf; an exception ends the run. *)
Fixpoint simulations (fuel : nat) (root : nat) (k : nat) h : res (heap State) :=
  match k with
  | O => Ok h
  | S k' =>
      leaf ← select fuel h root;
      h1 ← expand_and_evaluate h leaf;
      h2 ← backup fuel h1 leaf;
      simulations fuel root k' h2
  end.

(** The search as the specification describes it: the budget of
    simulations, then the policy of the root. *)
Definition search_spec (fuel : nat) h (root : nat) (num_simulations : Z)
    (temperature : R) : res (heap State * list R) :=
  h' ← simulations fuel root (Z.to_nat num_simulations) h;
  policy ← get_policy h' root temperature (action_space_size env);
  Ok (h', policy).

(** What a simulation does once [select] has returned [leaf]. *)
Definition visit (fuel : nat) (leaf : nat) h : res (heap State) :=
  h1 ← expand_and_evaluate h leaf;
  backup fuel h1 leaf.

(** [N] simulations that all select [leaf]. *)
Fixpoint visits (fuel : nat) (leaf : nat) (N : nat) h : res (heap State) :=
  match N with
  | O => Ok h
  | S N' => h1 ← visit fuel leaf h; visits fuel leaf N' h1
  end.

(** [objects h l cs]: the references [l] name, in order, the objects [cs]. *)
Definition objects h (l : list nat) (cs : list (Node.t State)) : Prop :=
  Forall2 (fun c x => h !! c = Some x) l cs.

(** The exploring score as the specification writes it, for a candidate
    [nd] whose siblings (itself included) have [S] visits. *)
Definition puct_score nd (S : nat) (c_puct : R) : R :=
  - Node.q nd + c_puct * Node.p nd * sqrt (INR S) / (1 + INR (Node.n nd)).

(** The sum of the visit counts of a list of nodes. *)
Definition visit_sum (cs : list (Node.t State)) : nat :=
  sum_list (map Node.n cs).

(** [tree h node]: [node] and all that is below it are objects of the arena
    and the children relation below [node] is well-founded, that is, [node]
    is the root of a finite acyclic tree. *)
Inductive tree h : nat -> Prop :=
| tree_node (node : nat) nd :
    h !! node = Some nd ->
    (forall c : nat, c ∈ Node.children nd -> tree h c) ->
    tree h node.

(** [descent h node leaf]: from [node], replacing the current node by its
    [get_best_child_to_explore()] as long as it has children ends in [leaf]. *)
Inductive descent h : nat -> nat -> Prop :=
| descent_stop (node : nat) nd :
    h !! node = Some nd ->
    Node.children nd = [] ->
    descent h node node
| descent_step (node child leaf : nat) nd :
    h !! node = Some nd ->
    Node.children nd <> [] ->
    get_best_child_to_explore h node 1 = Ok child ->
    descent h child leaf ->
    descent h node leaf.

(** [wf h root]: the arena holds a tree of root [root]: the root has no
    parent, what is below it is a finite acyclic tree, and every child of a
    node is an object whose parent is that node. *)
Record wf h (root : nat) : Prop := mk_wf {
  wf_root : exists r, h !! root = Some r /\ Node.parent r = None;
  wf_tree : tree h root;
  wf_parent : forall (x c : nat) nd,
      h !! x = Some nd -> c ∈ Node.children nd ->
      exists ndc, h !! c = Some ndc /\ Node.parent ndc = Some x
}.

(** [same_shape h h']: [h'] has the nodes of [h], each with the parent and
    the children it has in [h]. *)
Definition same_shape h h' : Prop :=
  length h' = length h
  /\ forall (x : nat) nd, h !! x = Some nd ->
       exists nd', h' !! x = Some nd'
                   /\ Node.parent nd' = Node.parent nd
                   /\ Node.children nd' = Node.children nd.

(** [chain h o l]: following [parent] from the reference [o] visits the
    nodes [l], in this order, and ends at the root, whose parent is [None]. *)
Inductive chain h : option nat -> list nat -> Prop :=
| chain_root : chain h None []
| chain_up (node : nat) nd (l : list nat) :
    h !! node = Some nd ->
    chain h (Node.parent nd) l ->
    chain h (Some node) (node :: l).

End Mcts.

Arguments deref_all {State}.
Arguments get_best_child_to_explore {State}.
Arguments visit_weight {State}.
Arguments get_best_child_to_play {State}.
Arguments py_dict : simpl never.
Arguments get_policy {State}.
Arguments select {State}.
Arguments expand_step {State}.
Arguments expand_and_evaluate {State Board}.
Arguments backup_loop {State}.
Arguments backup {State}.
Arguments simulate {State Board}.
Arguments search {State Board}.
Arguments search_default {State Board}.
Arguments play {State}.

Arguments legal_actions {State}.
Arguments child_of {State}.
Arguments visit_power {State}.
Arguments policy_entry {State}.
Arguments policy_spec {State}.
Arguments powers_in_range {State}.
Arguments simulations {State Board}.
Arguments search_spec {State Board}.
Arguments visit {State Board}.
Arguments visits {State Board}.
Arguments objects {State}.
Arguments puct_score {State}.
Arguments visit_sum {State}.
Arguments tree {State}.
Arguments tree_node {State}.
Arguments descent {State}.
Arguments descent_stop {State}.
Arguments descent_step {State}.
Arguments wf {State}.
Arguments wf_root {State}.
Arguments wf_tree {State}.
Arguments wf_parent {State}.
Arguments same_shape {State}.
Arguments chain {State}.
Arguments chain_root {State}.
Arguments chain_up {State}.

(** ** Further notions *)

(** The shares of the children in the total of the powers of their visit
    counts: the weights that [get_best_child_to_play] gives to
    [random.choices]. *)
Definition shares {State : Type} (cs : list (Node.t State)) (temperature : R) : list R :=
  map (fun c => visit_power temperature c / Rsum (map (visit_power temperature) cs)) cs.

Section Expansion.

Variables State Board : Type.
Variable board : State -> Board.
Variable turn : State -> State.
Variable env : Env State.
Variable m : Board -> list R * R.

(** The node [nd] as [expand_and_evaluate] leaves it, in an arena [h]. *)
Definition expanded_leaf (h : heap State) (nd : Node.t State) : Node.t State :=
  if is_terminal env (Node.s nd)
  then Node.mk (Node.n nd) (Node.w nd + compute_reward env (Node.s nd))
         (Node.q nd) (Node.p nd) (Node.parent nd) (Node.a nd)
         (Node.s nd) (Node.to_play nd) (Node.children nd)
  else Node.mk (Node.n nd) (m (board (Node.s nd))).2
         (Node.q nd) (Node.p nd) (Node.parent nd) (Node.a nd)
         (Node.s nd) (Node.to_play nd)
         (Node.children nd
          ++ seq (length h)
               (length (legal_actions env (m (board (Node.s nd))).1 (Node.s nd)))).

(** The nodes that [expand_and_evaluate] creates below [nd]. *)
Definition expanded_news (leaf : nat) (nd : Node.t State) : list (Node.t State) :=
  if is_terminal env (Node.s nd) then []
  else map (child_of turn env leaf nd)
         (legal_actions env (m (board (Node.s nd))).1 (Node.s nd)).

End Expansion.

Arguments expanded_leaf {State Board}.
Arguments expanded_news {State Board}.

(** [linked h path]: every node of [path], which goes upwards, is among the
    children of the next one. *)
Inductive linked {State : Type} (h : heap State) : list nat -> Prop :=
| linked_nil : linked h []
| linked_one (x : nat) : linked h [x]
| linked_cons (c p : nat) (l : list nat) (ndp : Node.t State) :
    h !! p = Some ndp ->
    c ∈ Node.children ndp ->
    linked h (p :: l) ->
    linked h (c :: p :: l).

(** The statistics of a node agree: no visit, no value; otherwise [q] is
    the mean [w / n]. *)
Definition stats_ok {State : Type} (nd : Node.t State) : Prop :=
  match Node.n nd with
  | O => Node.w nd = 0 /\ Node.q nd = 0
  | S _ => Node.q nd = Node.w nd / INR (Node.n nd)
  end.

(** The sum of the visit counts of the nodes that the references [l]
    name. *)
Definition child_visits {State : Type} (h : heap State) (l : list nat) : nat :=
  sum_list (map (fun c => from_option Node.n 0%nat (h !! c)) l).

(** [barren nd]: the expansion of [nd] creates no child, its state being
    terminal or without legal action. *)
Definition barren {State Board : Type} (board : State -> Board) (env : Env State)
    (m : Board -> list R * R) (nd : Node.t State) : Prop :=
  is_terminal env (Node.s nd) = true
  \/ legal_actions env (m (board (Node.s nd))).1 (Node.s nd) = [].

(** [counted h]: no node has a child twice, a node with children has one
    visit more than its children together, and a node without children is
    visited more than never only if it is barren. *)
Record counted {State Board : Type} (board : State -> Board) (env : Env State)
    (m : Board -> list R * R) (h : heap State) : Prop := mk_counted {
  counted_nodup : forall (x : nat) (nd : Node.t State),
      h !! x = Some nd -> NoDup (Node.children nd);
  counted_sum : forall (x : nat) (nd : Node.t State),
      h !! x = Some nd -> Node.children nd <> [] ->
      Node.n nd = (1 + child_visits h (Node.children nd))%nat;
  counted_leaf : forall (x : nat) (nd : Node.t State),
      h !! x = Some nd -> Node.children nd = [] -> Node.n nd <> 0%nat ->
      barren board env m nd
}.

(** [acted bound h]: the children of a node have distinct actions, all of
    them below [bound]. *)
Definition acted {State : Type} (bound : nat) (h : heap State) : Prop :=
  forall (x : nat) (nd : Node.t State) (cs : list (Node.t State)),
    h !! x = Some nd -> objects h (Node.children nd) cs ->
    NoDup (Node.a <$> cs)
    /\ forall c : Node.t State, c ∈ cs ->
         exists k : nat, Node.a c = Some k /\ (k < bound)%nat.

(** [print_tree]: the output is the list of the lines printed, in order; a
    line is given by the indent and the node that it renders. *)
Fixpoint print_tree {State : Type} (fuel : nat) (h : heap State) (node : nat)
    (indent : Z) : res (list (Z * Node.t State)) :=
  match fuel with
  | O => OutOfFuel
  | S fuel' =>
      nd ← deref h node;
      below ← res_foldM
                (fun out child =>
                   c ← deref h child;
                   if (0 <? Node.n c)%nat
                   then lines ← print_tree fuel' h child (indent + 1);
                        Ok (out ++ lines)
                   else Ok out)
                (Node.children nd) [];
      Ok ((indent, nd) :: below)
  end.

(** [shown h node indent x d]: [x] is [node] and [d] is [indent], or [x] is
    reached from [node] through [d - indent] children, each one of them
    visited. *)
Inductive shown {State : Type} (h : heap State) : nat -> Z -> nat -> Z -> Prop :=
| shown_top (node : nat) (indent : Z) : shown h node indent node indent
| shown_child (node : nat) (indent : Z) (nd : Node.t State) (c : nat)
    (ndc : Node.t State) (x : nat) (d : Z) :
    h !! node = Some nd ->
    c ∈ Node.children nd ->
    h !! c = Some ndc ->
    (0 < Node.n ndc)%nat ->
    shown h c (indent + 1) x d ->
    shown h node indent x d.

(** [prints h node indent]: [print_tree] returns on [node] at [indent], a
    first line for [node], then lines of visited nodes at greater indents,
    and the lines are the nodes that [shown] gives. *)
Definition prints {State : Type} (h : heap State) (node : nat) (indent : Z) : Prop :=
  exists (nd : Node.t State) (below : list (Z * Node.t State)) (k : nat),
    h !! node = Some nd
    /\ (forall fuel : nat, (k <= fuel)%nat ->
          print_tree fuel h node indent = Ok ((indent, nd) :: below))
    /\ (forall (d : Z) (c : Node.t State),
          (d, c) ∈ below -> (0 < Node.n c)%nat /\ (indent < d)%Z)
    /\ (forall (d : Z) (c : Node.t State),
          (d, c) ∈ (indent, nd) :: below
          <-> exists x : nat, shown h node indent x d /\ h !! x = Some c).

(** The distance from 1 to the next double, [2^-52]. *)
Definition float_eps : R := / 2 ^ 52.

(** [within_ulps k x y]: [x] is [y] up to [k] times [float_eps], the
    floating tolerance of a result near 1 that [k] rounded operations
    give. *)
Definition within_ulps (k : nat) (x y : R) : Prop :=
  Rabs (x - y) <= INR k * float_eps.

(** [added r N]: [r] added [N] times to 0, one addition after the other,
    as [leaf.w += reward] does over [N] visits. *)
Definition added (r : R) (N : nat) : R := Nat.iter N (fun w => w + r) 0.

(** ** The arithmetic of the program

    The lines of [mcts.py] on which rounding bears, over the binary64
    floats that Python's [float] is: the statistics of one node through
    the terminal branch of [expand_and_evaluate] and the first lines of
    [backup], and the score and the choice of
    [get_best_child_to_explore]. *)
Module Binary64.

(** The statistics of a node: an [int] and three floats. *)
Record stats : Set := mk { n : Z; w : float; q : float; p : float }.

(** The conversion of an [int] to a [float] that the mixed operations
    [float / int] and [float * int] make; exact for the counts at hand. *)
Definition of_int (k : Z) : float := PrimFloat.of_uint63 (Uint63.of_Z k).

(** [leaf.w += env.compute_reward(leaf.s)], line 79. *)
Definition add_reward (reward : float) (s : stats) : stats :=
  mk (n s) (w s + reward)%float (q s) (p s).

(** [leaf.n += 1; leaf.q = leaf.w / leaf.n], lines 96-97. *)
Definition backup_leaf (s : stats) : stats :=
  let n' := (n s + 1)%Z in
  mk n' (w s) (w s / of_int n')%float (p s).

(** [N] visits of a terminal leaf of reward [reward]. *)
Fixpoint visits (N : nat) (reward : float) (s : stats) : stats :=
  match N with
  | O => s
  | S N' => visits N' reward (backup_leaf (add_reward reward s))
  end.

(** [reward] added [N] times to [w0], in floats. *)
Definition added (w0 reward : float) (N : nat) : float :=
  Nat.iter N (fun x => (x + reward)%float) w0.

(** [get_exploring_score], line 42. *)
Definition get_exploring_score (s : stats) (sqrt_sum_n c_puct : float) : float :=
  (- q s + c_puct * p s * sqrt_sum_n / of_int (1 + n s))%float.

(** [max(l, key=...)], on the keys: the index of the first greatest key. *)
Fixpoint max_from (best : nat * float) (l : list (nat * float)) : nat :=
  match l with
  | [] => best.1
  | x :: l' => if PrimFloat.ltb best.2 x.2 then max_from x l' else max_from best l'
  end.

(** [get_best_child_to_explore], lines 45-46, on the statistics of the
    children: the index of the child returned. *)
Definition get_best_child_to_explore (children : list stats) (c_puct : float)
  : option nat :=
  let sqrt_sum_n := PrimFloat.sqrt (of_int (foldl Z.add 0%Z (map n children))) in
  let keyed := imap (fun i c => (i, get_exploring_score c sqrt_sum_n c_puct)) children in
  match keyed with
  | [] => None
  | x :: l => Some (max_from x l)
  end.

End Binary64.

(** [alternates h path]: along [path], which goes upwards, every node has
    the [to_play] that [expand_and_evaluate] gives to a child of the next
    one. *)
Definition alternates {State : Type} (h : heap State) (path : list nat) : Prop :=
  forall (i c p : nat) (ndc ndp : Node.t State),
    path !! i = Some c -> path !! S i = Some p ->
    h !! c = Some ndc -> h !! p = Some ndp ->
    Node.to_play ndc = ((Node.to_play ndp + 1) mod 2)%Z.

(** ** Trees used as concrete inputs *)

Module Examples.

(** A parent (0) and its two children (1, 2): equal prior and mean value,
    5 visits against 1. *)
Definition tie_tree : heap unit :=
  [ Node.mk 6 0 0 0 None None tt 0 [1; 2]%nat;
    Node.mk 5 0 0 0 (Some 0%nat) (Some 0%nat) tt 1 [];
    Node.mk 1 0 0 0 (Some 0%nat) (Some 1%nat) tt 1 [] ].

(** The same with a positive prior. *)
Definition prior_tree : heap unit :=
  [ Node.mk 6 0 0 0 None None tt 0 [1; 2]%nat;
    Node.mk 5 0 0 (1 / 2) (Some 0%nat) (Some 0%nat) tt 1 [];
    Node.mk 1 0 0 (1 / 2) (Some 0%nat) (Some 1%nat) tt 1 [] ].

(** A parent whose two children, of one visit each, have the same action. *)
Definition shared_action_tree : heap unit :=
  [ Node.mk 2 0 0 0 None None tt 0 [1; 2]%nat;
    Node.mk 1 0 0 (1 / 2) (Some 0%nat) (Some 0%nat) tt 1 [];
    Node.mk 1 0 0 (1 / 2) (Some 0%nat) (Some 0%nat) tt 1 [] ].

(** The chain root (0), child (1), leaf (2), with [to_play] 0, 1, 0; all
    statistics are zero but the [w] of the leaf, set to 1. *)
Definition chain3 : heap unit :=
  [ Node.mk 0 0 0 0 None None tt 0 [1%nat];
    Node.mk 0 0 0 0 (Some 0%nat) (Some 0%nat) tt 1 [2%nat];
    Node.mk 0 1 0 0 (Some 1%nat) (Some 0%nat) tt 0 [] ].

(** The one-ply game of the specification: two actions, both legal at the
    start and both terminal at once, of rewards 1 and -1; the evaluator
    returns uniform priors.  A state is the action played, if any. *)
Definition one_ply : Env (option nat) :=
  mkEnv (option nat)
    (fun s => match s with Some _ => true | None => false end)
    (fun s => match s with Some O => 1 | Some _ => -1 | None => 0 end)
    (fun a s => (a <? 2)%nat)
    (fun s a => Some a)
    2.

Definition uniform (b : option nat) : list R * R := ([1 / 2; 1 / 2], 0).

(** The board of a state is the state, and [turn()] changes nothing of it. *)
Definition board (s : option nat) : option nat := s.
Definition turn (s : option nat) : option nat := s.

(** The root of a search of the game, before any simulation. *)
Definition one_ply_root : heap (option nat) :=
  [ Node.init None None None 0 0 ].

(** The same once expanded. *)
Definition one_ply_tree : heap (option nat) :=
  [ Node.mk 0 0 0 0 None None None 0 [1; 2]%nat;
    Node.mk 0 0 0 (1 / 2) (Some 0%nat) (Some 0%nat) (Some 0%nat) 1 [];
    Node.mk 0 0 0 (1 / 2) (Some 0%nat) (Some 1%nat) (Some 1%nat) 1 [] ].

End Examples.

(** * Theorems *)

(** ** The outcome monad and the Python primitives *)

Lemma bind_Ok {A B : Type} (f : A -> res B) (x : A) : (Ok x ≫= f) = f x.
Proof. reflexivity. Qed.

Lemma bind_assoc {A B C : Type} (f : A -> res B) (g : B -> res C) (x : res A) :
  ((x ≫= f) ≫= g) = (x ≫= fun y => f y ≫= g).
Proof. destruct x; reflexivity. Qed.

Lemma bind_ext {A B : Type} (f g : A -> res B) (x : res A) :
  (forall y, f y = g y) -> (x ≫= f) = (x ≫= g).
Proof. intros Hfg. destruct x; simpl; auto. Qed.

Lemma res_mapM_total {A B : Type} (f : A -> res B) (g : A -> B) (l : list A) :
  (forall x, x ∈ l -> f x = Ok (g x)) -> res_mapM f l = Ok (map g l).
Proof.
  induction l as [|x l IH]; intros Hf; [reflexivity|].
  simpl. rewrite (Hf x) by (left). rewrite bind_Ok.
  rewrite IH; [reflexivity|]. intros y Hy. apply Hf. by right.
Qed.

(** A comprehension raises if its body raises at an item and returns at
    the items before. *)
Lemma res_mapM_raise {A B : Type} (f : A -> res B) (e : exn) (l : list A) :
  (forall x : A, x ∈ l -> (exists y, f x = Ok y) \/ f x = Raise e) ->
  (exists x : A, x ∈ l /\ f x = Raise e) ->
  res_mapM f l = Raise e.
Proof.
  induction l as [|x l IH]; intros Hall (x0 & Hx0 & Hraise).
  - by apply not_elem_of_nil in Hx0.
  - simpl. destruct (Hall x) as [[y Hy]|Hx]; [left| |].
    + rewrite Hy, bind_Ok. rewrite IH; [reflexivity| |].
      * intros z Hz. apply Hall. by right.
      * apply elem_of_cons in Hx0 as [->|Hx0]; [congruence|]. eauto.
    + rewrite Hx. reflexivity.
Qed.

Lemma deref_Some {State : Type} (h : heap State) (i : nat) (nd : Node.t State) :
  h !! i = Some nd -> deref h i = Ok nd.
Proof. unfold deref. intros ->. reflexivity. Qed.

(** Reads the object that the hypothesis [H] gives for a reference. *)
Ltac run_deref H := rewrite (deref_Some _ _ _ H), bind_Ok.

Lemma py_div_nonzero (x y : R) : y <> 0 -> py_div x y = Ok (x / y).
Proof. intros Hy. unfold py_div. destruct (Req_dec_T y 0); [contradiction | reflexivity]. Qed.

Lemma py_div_zero (x : R) : py_div x 0 = Raise ZeroDivisionError.
Proof. unfold py_div. destruct (Req_dec_T 0 0); [reflexivity | contradiction]. Qed.

Lemma deref_all_objects {State : Type} (h : heap State) (l : list nat)
    (cs : list (Node.t State)) :
  objects h l cs -> deref_all h l = Ok (zip l cs).
Proof.
  unfold objects, deref_all. induction 1 as [|c x l cs Hc _ IH]; [reflexivity|].
  simpl. rewrite (deref_Some _ _ _ Hc), bind_Ok, bind_Ok, IH. reflexivity.
Qed.

(** [max] returns the first item of the greatest key. *)
Lemma py_max_from_spec {A : Type} (key : A -> R) (l : list A) (best : A) :
  exists i : nat,
    (best :: l) !! i = Some (py_max_from key best l)
    /\ (forall (j : nat) (y : A), (best :: l) !! j = Some y ->
          key y <= key (py_max_from key best l))
    /\ (forall (j : nat) (y : A), (j < i)%nat -> (best :: l) !! j = Some y ->
          key y < key (py_max_from key best l)).
Proof.
  revert best. induction l as [|x l IH]; intros best.
  - exists O. simpl. split; [reflexivity|]. split.
    + intros [|j] y Hj; simpl in Hj; [|discriminate]. injection Hj as <-. lra.
    + intros j y Hj. lia.
  - simpl. destruct (Rgt_dec (key x) (key best)) as [Hgt|Hle].
    + destruct (IH x) as (i & Hi & Hmax & Hfirst).
      pose proof (Hmax O x eq_refl) as Hx.
      exists (S i). split; [exact Hi|]. split.
      * intros [|j] y Hj; simpl in Hj.
        -- injection Hj as <-. lra.
        -- exact (Hmax j y Hj).
      * intros [|j] y Hlt Hj; simpl in Hj.
        -- injection Hj as <-. lra.
        -- apply (Hfirst j y); [lia | exact Hj].
    + destruct (IH best) as (i & Hi & Hmax & Hfirst).
      pose proof (Hmax O best eq_refl) as Hb.
      destruct i as [|i].
      * exists O. split; [exact Hi|]. split.
        -- intros [|[|j]] y Hj; simpl in Hj.
           ++ injection Hj as <-. exact Hb.
           ++ injection Hj as <-. lra.
           ++ exact (Hmax (S j) y Hj).
        -- intros j y Hj. lia.
      * exists (S (S i)). split; [exact Hi|]. split.
        -- intros [|[|j]] y Hj; simpl in Hj.
           ++ injection Hj as <-. exact Hb.
           ++ injection Hj as <-. lra.
           ++ exact (Hmax (S j) y Hj).
        -- intros [|[|j]] y Hlt Hj; simpl in Hj.
           ++ injection Hj as <-. apply (Hfirst O best); [lia | reflexivity].
           ++ injection Hj as <-.
              pose proof (Hfirst O best ltac:(lia) eq_refl). lra.
           ++ apply (Hfirst (S j) y); [lia | exact Hj].
Qed.

Lemma py_max_spec {A : Type} (key : A -> R) (l : list A) :
  l <> [] ->
  exists (i : nat) (r : A),
    py_max key l = Ok r /\ l !! i = Some r
    /\ (forall (j : nat) (y : A), l !! j = Some y -> key y <= key r)
    /\ (forall (j : nat) (y : A), (j < i)%nat -> l !! j = Some y -> key y < key r).
Proof.
  destruct l as [|x l]; [congruence|]. intros _.
  destruct (py_max_from_spec key l x) as (i & Hi & Hmax & Hfirst).
  exists i, (py_max_from key x l). simpl. auto.
Qed.

Lemma py_sum_int_sum_list (l : list nat) : py_sum_int l = sum_list l.
Proof.
  unfold py_sum_int.
  assert (H : forall k, fold_left Nat.add l k = (k + sum_list l)%nat).
  { induction l as [|x l IH]; intros k; simpl; [lia|]. rewrite IH. lia. }
  rewrite H. lia.
Qed.

Lemma get_exploring_score_eq {State : Type} (nd : Node.t State) (sqrt_sum_n c_puct : R) :
  Node.get_exploring_score nd sqrt_sum_n c_puct
  = Ok (- Node.q nd + c_puct * Node.p nd * sqrt_sum_n / (1 + INR (Node.n nd))).
Proof.
  unfold Node.get_exploring_score.
  rewrite py_div_nonzero.
  - rewrite bind_Ok. rewrite plus_INR. reflexivity.
  - apply not_0_INR. lia.
Qed.

(** ** Selection of the child to explore *)

Lemma explore_keys {State : Type} (cs : list (nat * Node.t State)) (r c_puct : R) :
  res_mapM (fun c => k ← Node.get_exploring_score c.2 r c_puct; Ok (c.1, k)) cs
  = Ok (map (fun c => (c.1, - Node.q c.2 + c_puct * Node.p c.2 * r / (1 + INR (Node.n c.2)))) cs).
Proof.
  apply res_mapM_total. intros x _. rewrite get_exploring_score_eq. reflexivity.
Qed.

Lemma sum_of_zip {State : Type} (l : list nat) (cs : list (Node.t State)) :
  length l = length cs ->
  py_sum_int (map (fun c : nat * Node.t State => Node.n c.2) (zip l cs)) = visit_sum cs.
Proof.
  intros Hlen. rewrite py_sum_int_sum_list. unfold visit_sum. f_equal.
  change (fun c : nat * Node.t State => Node.n c.2) with (Node.n ∘ (@snd nat (Node.t State))).
  rewrite (list_fmap_compose snd Node.n). f_equal.
  apply snd_zip. lia.
Qed.

(** The child returned is the first of the greatest score. *)
Lemma explore_first_maximal {State : Type} (h : heap State) (self : nat)
    (nd : Node.t State) (cs : list (Node.t State)) (c_puct : R) :
  h !! self = Some nd ->
  Node.children nd <> [] ->
  objects h (Node.children nd) cs ->
  exists (i best : nat) (best_nd : Node.t State),
    get_best_child_to_explore h self c_puct = Ok best
    /\ Node.children nd !! i = Some best
    /\ cs !! i = Some best_nd
    /\ (forall (j : nat) (x : Node.t State), cs !! j = Some x ->
          puct_score x (visit_sum cs) c_puct <= puct_score best_nd (visit_sum cs) c_puct)
    /\ (forall (j : nat) (x : Node.t State), (j < i)%nat -> cs !! j = Some x ->
          puct_score x (visit_sum cs) c_puct < puct_score best_nd (visit_sum cs) c_puct).
Proof.
  intros Hself Hne Hobj.
  pose proof (Forall2_length _ _ _ Hobj) as Hlen.
  unfold get_best_child_to_explore.
  run_deref Hself.
  rewrite (deref_all_objects _ _ _ Hobj), bind_Ok.
  rewrite explore_keys, bind_Ok.
  rewrite (sum_of_zip _ _ Hlen).
  set (key := fun c : nat * Node.t State =>
                (c.1, - Node.q c.2 + c_puct * Node.p c.2 * sqrt (INR (visit_sum cs))
                                     / (1 + INR (Node.n c.2)))).
  assert (Hkey : forall (j c : nat) (x : Node.t State),
             Node.children nd !! j = Some c -> cs !! j = Some x ->
             map key (zip (Node.children nd) cs) !! j
             = Some (c, puct_score x (visit_sum cs) c_puct)).
  { intros j c x Hc Hx. rewrite list_lookup_fmap, lookup_zip_with, Hc, Hx. reflexivity. }
  destruct (py_max_spec snd (map key (zip (Node.children nd) cs)))
    as (i & r & Hmax & Hi & Hle & Hlt).
  { destruct (Node.children nd) as [|c l]; [congruence|].
    destruct cs as [|x cs]; [discriminate|]. discriminate. }
  rewrite Hmax, bind_Ok.
  rewrite list_lookup_fmap, lookup_zip_with in Hi.
  destruct (Node.children nd !! i) as [best|] eqn:Hbest; [|discriminate].
  destruct (cs !! i) as [best_nd|] eqn:Hbest_nd; [|discriminate].
  simpl in Hi. injection Hi as <-.
  exists i, best, best_nd. split; [reflexivity|]. split; [exact Hbest|].
  split; [exact Hbest_nd|]. split.
  - intros j x Hx.
    destruct (lookup_lt_is_Some_2 (Node.children nd) j) as [c Hc].
    { rewrite Hlen. eapply lookup_lt_Some, Hx. }
    exact (Hle j _ (Hkey j c x Hc Hx)).
  - intros j x Hji Hx.
    destruct (lookup_lt_is_Some_2 (Node.children nd) j) as [c Hc].
    { rewrite Hlen. eapply lookup_lt_Some, Hx. }
    exact (Hlt j _ Hji (Hkey j c x Hc Hx)).
Qed.



(** The exploration bonus strictly shrinks as the visit count grows. *)
Lemma bonus_shrinks (B a b : R) : 0 < B -> 0 <= a -> a < b -> B / (1 + b) < B / (1 + a).
Proof.
  intros HB Ha Hab. unfold Rdiv. apply Rmult_lt_compat_l; [exact HB|].
  apply Rinv_lt_contravar; [|lra]. apply Rmult_lt_0_compat; lra.
Qed.

Lemma bonus_not_growing (B a b : R) : 0 <= B -> 0 <= a -> a < b -> B / (1 + b) <= B / (1 + a).
Proof.
  intros HB Ha Hab. destruct (Req_dec_T B 0) as [->|Hne].
  - unfold Rdiv. rewrite !Rmult_0_l. lra.
  - left. apply bonus_shrinks; lra.
Qed.



(** In exact arithmetic a positive prior and a positive [c_puct] make the
    bonus shrink strictly, the scores never tie and the less visited child
    is returned whatever the order.  Rounding can absorb the bonus, see
    [explore_absorbed_bonus]. *)
Lemma explore_less_visited_exact {State : Type} (h : heap State) (self c1 c2 : nat)
    (nd x1 x2 : Node.t State) (c_puct : R) :
  h !! self = Some nd ->
  Node.children nd = [c1; c2] ->
  h !! c1 = Some x1 ->
  h !! c2 = Some x2 ->
  Node.p x1 = Node.p x2 ->
  Node.q x1 = Node.q x2 ->
  Node.n x1 <> Node.n x2 ->
  0 < Node.p x1 ->
  0 < c_puct ->
  get_best_child_to_explore h self c_puct
  = Ok (if (Node.n x1 <? Node.n x2)%nat then c1 else c2).
Proof.
  intros Hself Hch H1 H2 Hp Hq Hn Hpos Hc.
  unfold get_best_child_to_explore.
  rewrite (deref_Some _ _ _ Hself), bind_Ok, Hch.
  rewrite (deref_all_objects h [c1; c2] [x1; x2]) by (repeat constructor; assumption).
  rewrite bind_Ok, explore_keys, bind_Ok. simpl.
  rewrite py_sum_int_sum_list. simpl sum_list.
  set (r := sqrt (INR (Node.n x1 + (Node.n x2 + 0)))).
  assert (Hr : 0 < r).
  { apply sqrt_lt_R0. apply lt_0_INR. lia. }
  assert (Hb : 0 < c_puct * Node.p x2 * r).
  { rewrite <- Hp. apply Rmult_lt_0_compat; [apply Rmult_lt_0_compat|]; assumption. }
  pose proof (pos_INR (Node.n x1)) as Hn1.
  pose proof (pos_INR (Node.n x2)) as Hn2.
  rewrite Hp, Hq.
  destruct (Nat.ltb_spec (Node.n x1) (Node.n x2)) as [Hlt|Hge].
  - apply lt_INR in Hlt.
    pose proof (bonus_shrinks _ _ _ Hb Hn1 Hlt).
    destruct (Rgt_dec _ _) as [Hgt|_]; [|reflexivity]. unfold Rgt in Hgt. lra.
  - assert (Hlt : (Node.n x2 < Node.n x1)%nat) by lia. apply lt_INR in Hlt.
    pose proof (bonus_shrinks _ _ _ Hb Hn2 Hlt).
    destruct (Rgt_dec _ _) as [_|Hngt]; [reflexivity|]. unfold Rgt in Hngt. lra.
Qed.

(** In the floats of the program, two children of mean value 1 and prior
    [2^-60], of 5 visits and of 1: the bonus is lost in the rounding of the
    sum, both scores are [-1.0], and the first child, of 5 visits, is
    returned. *)
Lemma explore_absorbed_bonus :
  Binary64.get_exploring_score (Binary64.mk 5 0 1 0x1p-60)
    (PrimFloat.sqrt (Binary64.of_int 6)) 1 = (-1)%float
  /\ Binary64.get_exploring_score (Binary64.mk 1 0 1 0x1p-60)
       (PrimFloat.sqrt (Binary64.of_int 6)) 1 = (-1)%float
  /\ Binary64.get_best_child_to_explore
       [Binary64.mk 5 0 1 0x1p-60; Binary64.mk 1 0 1 0x1p-60] 1 = Some 0%nat.
Proof. repeat split; vm_compute; reflexivity. Qed.

(** With a prior of one half the bonus is not lost, and the second child,
    of 1 visit, is returned. *)
Lemma explore_kept_bonus :
  Binary64.get_best_child_to_explore
    [Binary64.mk 5 0 1 0.5; Binary64.mk 1 0 1 0.5] 1 = Some 1%nat.
Proof. vm_compute. reflexivity. Qed.


(** ** Selection *)

Lemma objects_exist {State : Type} (h : heap State) (l : list nat) :
  (forall c : nat, c ∈ l -> is_Some (h !! c)) -> exists cs, objects h l cs.
Proof.
  induction l as [|c l IH]; intros Hl.
  - exists []. constructor.
  - destruct (Hl c) as [x Hx]; [left|].
    destruct IH as [cs Hcs]; [intros; apply Hl; by right|].
    exists (x :: cs). constructor; assumption.
Qed.

Lemma tree_is_Some {State : Type} (h : heap State) (node : nat) :
  tree h node -> is_Some (h !! node).
Proof. intros [? nd Hnd _]. eauto. Qed.

Lemma select_fuel_leaf {State : Type} (h : heap State) (node : nat) (nd : Node.t State)
    (fuel : nat) :
  h !! node = Some nd -> Node.children nd = [] -> select (S fuel) h node = Ok node.
Proof.
  intros Hnd Hch. simpl. run_deref Hnd.
  unfold Node.is_leaf. rewrite Hch. reflexivity.
Qed.

Lemma select_fuel_step {State : Type} (h : heap State) (node child : nat)
    (nd : Node.t State) (fuel : nat) :
  h !! node = Some nd -> Node.children nd <> [] ->
  get_best_child_to_explore h node 1 = Ok child ->
  select (S fuel) h node = select fuel h child.
Proof.
  intros Hnd Hch Hbest. simpl. run_deref Hnd.
  unfold Node.is_leaf. destruct (Node.children nd); [congruence|].
  simpl. rewrite Hbest, bind_Ok. reflexivity.
Qed.

Lemma descent_deterministic {State : Type} (h : heap State) (node leaf leaf' : nat) :
  descent h node leaf -> descent h node leaf' -> leaf = leaf'.
Proof.
  intros Hd. revert leaf'.
  induction Hd as [node nd Hnd Hch | node child leaf nd Hnd Hch Hbest _ IH];
    intros leaf' Hd'; inversion Hd'; subst; try congruence.
  apply IH. congruence.
Qed.

(** The walk of [select] ends, in a node without children. *)
Lemma select_descends {State : Type} (h : heap State) (node : nat) :
  tree h node ->
  exists (leaf : nat) (nd : Node.t State) (k : nat),
    (forall fuel : nat, (k <= fuel)%nat -> select fuel h node = Ok leaf)
    /\ h !! leaf = Some nd
    /\ Node.children nd = []
    /\ descent h node leaf
    /\ (forall leaf' : nat, descent h node leaf' -> leaf' = leaf).
Proof.
  induction 1 as [node nd Hnd Hsub IH].
  destruct (Node.children nd) as [|c0 l0] eqn:Hch.
  - exists node, nd, 1%nat. split; [|split; [exact Hnd|split; [exact Hch|]]].
    + intros [|fuel] Hk; [lia|]. eapply select_fuel_leaf; eassumption.
    + assert (Hd : descent h node node) by (eapply descent_stop; eassumption).
      split; [exact Hd|]. intros leaf' Hd'.
      exact (descent_deterministic _ _ _ _ Hd' Hd).
  - assert (Hne : Node.children nd <> []) by (rewrite Hch; discriminate).
    destruct (objects_exist h (Node.children nd)) as [cs Hcs].
    { intros c Hc. rewrite Hch in Hc. eapply tree_is_Some, Hsub, Hc. }
    destruct (explore_first_maximal h node nd cs 1 Hnd Hne Hcs)
      as (i & best & _ & Hbest & Hi & _).
    assert (Hin : best ∈ c0 :: l0).
    { rewrite <- Hch. eapply list_elem_of_lookup_2, Hi. }
    destruct (IH best Hin) as (leaf & lnd & k & Hsel & Hleaf & Hnil & Hd & _).
    exists leaf, lnd, (S k). split; [|split; [exact Hleaf|split; [exact Hnil|]]].
    + intros [|fuel] Hk; [lia|].
      rewrite (select_fuel_step h node best nd fuel Hnd Hne Hbest).
      apply Hsel. lia.
    + assert (Hd' : descent h node leaf) by (eapply descent_step; eassumption).
      split; [exact Hd'|]. intros leaf' Hd''.
      exact (descent_deterministic _ _ _ _ Hd'' Hd').
Qed.

(** C9.  From any node of a finite acyclic tree, [select] returns (with
    enough fuel for the loop) a node without children, the one in which the
    repeated replacement of the current node by its
    [get_best_child_to_explore()] ends; that walk has one end only. *)
Theorem select_reaches_leaf {State : Type} (h : heap State) (node : nat) :
  tree h node ->
  exists (leaf : nat) (nd : Node.t State) (k : nat),
    (forall fuel : nat, (k <= fuel)%nat -> select fuel h node = Ok leaf)
    /\ h !! leaf = Some nd
    /\ Node.children nd = []
    /\ descent h node leaf
    /\ (forall leaf' : nat, descent h node leaf' -> leaf' = leaf).
Proof. exact (select_descends h node). Qed.

Lemma select_reaches_leaf_witness :
  exists (leaf : nat) (nd : Node.t unit) (k : nat),
    (forall fuel : nat, (k <= fuel)%nat -> select fuel Examples.prior_tree 0 = Ok leaf)
    /\ Examples.prior_tree !! leaf = Some nd
    /\ Node.children nd = []
    /\ descent Examples.prior_tree 0 leaf
    /\ (forall leaf' : nat, descent Examples.prior_tree 0 leaf' -> leaf' = leaf).
Proof.
  apply (select_reaches_leaf Examples.prior_tree 0).
  eapply tree_node; [reflexivity|]. simpl. intros c Hc.
  apply list_elem_of_In in Hc. simpl in Hc.
  destruct Hc as [<-|[<-|[]]]; (eapply tree_node; [reflexivity|]);
    simpl; intros c' Hc'; apply list_elem_of_In in Hc'; destruct Hc'.
Defined.

(** ** Backup *)

Lemma chain_functional {State : Type} (h : heap State) (o : option nat) (l1 l2 : list nat) :
  chain h o l1 -> chain h o l2 -> l1 = l2.
Proof.
  intros H1. revert l2. induction H1 as [|node nd l Hnd _ IH]; intros l2 H2.
  - inversion H2. reflexivity.
  - inversion H2 as [|node' nd' l' Hnd' Hl']; subst.
    f_equal. apply IH. congruence.
Qed.

Lemma chain_suffix {State : Type} (h : heap State) (l1 l2 : list nat) (x : nat) :
  forall o : option nat, chain h o (l1 ++ x :: l2) -> chain h (Some x) (x :: l2).
Proof.
  induction l1 as [|y l1 IH]; intros o H; simpl in H.
  - inversion H; subst. exact H.
  - inversion H; subst. eapply IH. eassumption.
Qed.

(** A chain of parents that ends at a root goes through no node twice. *)
Lemma chain_acyclic {State : Type} (h : heap State) (node : nat) (l : list nat) :
  chain h (Some node) (node :: l) -> node ∉ l.
Proof.
  intros H Hin. apply list_elem_of_split in Hin as (l1 & l2 & ->).
  pose proof (chain_suffix h (node :: l1) l2 node _ H) as H'.
  pose proof (chain_functional _ _ _ _ H H') as Heq.
  apply (f_equal length) in Heq. simpl in Heq. rewrite length_app in Heq.
  simpl in Heq. lia.
Qed.

Lemma chain_insert {State : Type} (h : heap State) (i : nat) (x : Node.t State)
    (o : option nat) (l : list nat) :
  chain h o l -> i ∉ l -> chain (<[i := x]> h) o l.
Proof.
  induction 1 as [|node nd l Hnd _ IH]; intros Hi.
  - constructor.
  - apply not_elem_of_cons in Hi as [Hne Hi].
    econstructor; [|apply IH, Hi].
    rewrite list_lookup_insert_ne by congruence. exact Hnd.
Qed.

(** What one turn of the loop of [backup] makes of an ancestor. *)
Lemma backup_loop_spec {State : Type} (to_play : Z) (v : R) (l : list nat) :
  forall (h : heap State) (o : option nat) (fuel : nat),
    chain h o l -> (length l <= fuel)%nat ->
    exists h' : heap State,
      backup_loop fuel to_play v h o = Ok h'
      /\ length h' = length h
      /\ (forall (x : nat) (nd : Node.t State), x ∈ l -> h !! x = Some nd ->
            h' !! x = Some
              (Node.mk (Node.n nd + 1)
                 (Node.w nd + (if (Node.to_play nd =? to_play)%Z then v else - v))
                 ((Node.w nd + (if (Node.to_play nd =? to_play)%Z then v else - v))
                  / INR (Node.n nd + 1))
                 (Node.p nd) (Node.parent nd) (Node.a nd) (Node.s nd)
                 (Node.to_play nd) (Node.children nd)))
      /\ (forall x : nat, x ∉ l -> h' !! x = h !! x).
Proof.
  induction l as [|node l IH]; intros h o fuel Hchain Hfuel.
  - inversion Hchain; subst. exists h. destruct fuel; simpl; repeat split; auto.
    all: intros x nd Hx; by apply not_elem_of_nil in Hx.
  - pose proof Hchain as Hacyc. inversion Hchain as [|node' nd l' Hnd Hl]; subst.
    apply chain_acyclic in Hacyc.
    destruct fuel as [|fuel]; [simpl in Hfuel; lia|]. simpl in Hfuel.
    simpl. run_deref Hnd. simpl.
    rewrite py_div_nonzero by (apply not_0_INR; lia). rewrite bind_Ok. simpl.
    set (nd' := Node.set_q _ _).
    destruct (IH (<[node := nd']> h) (Node.parent nd) fuel) as (h' & Hrun & Hlen & Hin & Hout).
    { apply chain_insert; assumption. }
    { lia. }
    exists h'. split; [exact Hrun|]. split; [rewrite Hlen; apply length_insert|].
    split.
    + intros x ndx Hx Hndx. apply elem_of_cons in Hx as [->|Hx].
      * rewrite (Hout node Hacyc).
        rewrite list_lookup_insert_eq by (eapply lookup_lt_Some, Hnd).
        assert (ndx = nd) as -> by congruence. reflexivity.
      * apply Hin; [exact Hx|].
        rewrite list_lookup_insert_ne; [exact Hndx|]. intros ->. contradiction.
    + intros x Hx. apply not_elem_of_cons in Hx as [Hne Hx].
      rewrite (Hout x Hx). apply list_lookup_insert_ne. congruence.
Qed.

(** The arena after [backup], node by node. *)
Lemma backup_effect {State : Type} (h : heap State) (leaf : nat) (nd : Node.t State)
    (anc : list nat) (fuel : nat) :
  h !! leaf = Some nd ->
  chain h (Node.parent nd) anc ->
  (length anc <= fuel)%nat ->
  exists h' : heap State,
    backup fuel h leaf = Ok h'
    /\ length h' = length h
    /\ h' !! leaf = Some
         (Node.mk (Node.n nd + 1) (Node.w nd) (Node.w nd / INR (Node.n nd + 1))
            (Node.p nd) (Node.parent nd) (Node.a nd) (Node.s nd)
            (Node.to_play nd) (Node.children nd))
    /\ (forall (x : nat) (ndx : Node.t State), x ∈ anc -> h !! x = Some ndx ->
          h' !! x = Some
            (Node.mk (Node.n ndx + 1)
               (Node.w ndx
                + (if (Node.to_play ndx =? Node.to_play nd)%Z then Node.w nd else - Node.w nd))
               ((Node.w ndx
                 + (if (Node.to_play ndx =? Node.to_play nd)%Z then Node.w nd else - Node.w nd))
                / INR (Node.n ndx + 1))
               (Node.p ndx) (Node.parent ndx) (Node.a ndx) (Node.s ndx)
               (Node.to_play ndx) (Node.children ndx)))
    /\ (forall x : nat, x <> leaf -> x ∉ anc -> h' !! x = h !! x).
Proof.
  intros Hnd Hchain Hfuel.
  assert (Hacyc : leaf ∉ anc).
  { apply (chain_acyclic h). econstructor; eassumption. }
  unfold backup. run_deref Hnd. simpl.
  rewrite py_div_nonzero by (apply not_0_INR; lia). rewrite bind_Ok. simpl.
  set (nd' := Node.set_q _ _).
  destruct (backup_loop_spec (Node.to_play nd) (Node.w nd) anc
              (<[leaf := nd']> h) (Node.parent nd) fuel)
    as (h' & Hrun & Hlen & Hin & Hout).
  { apply chain_insert; assumption. }
  { exact Hfuel. }
  exists h'. split; [exact Hrun|]. split; [rewrite Hlen; apply length_insert|].
  split; [|split].
  - rewrite (Hout leaf Hacyc).
    apply list_lookup_insert_eq. eapply lookup_lt_Some, Hnd.
  - intros x ndx Hx Hndx. apply Hin; [exact Hx|].
    rewrite list_lookup_insert_ne; [exact Hndx|]. intros ->. contradiction.
  - intros x Hne Hx. rewrite (Hout x Hx). apply list_lookup_insert_ne. congruence.
Qed.

(** C2.  [backup] leaves the [w] of the leaf as it is ([v] is that [w]),
    adds 1 to its [n] and sets its [q] to [w / n]; on every ancestor up to
    the root it adds 1 to [n], adds [v] to [w] when the ancestor's [to_play]
    is the leaf's and subtracts it otherwise, and sets [q] to the new
    [w / n]; no other field and no other node changes.  On the chain
    root, child, leaf of the specification, with [to_play] 0, 1, 0 and the
    [w] of the leaf at 1, this gives the mean values 1, -1 and 1. *)
Theorem backup_spec {State : Type} (h : heap State) (leaf : nat) (nd : Node.t State)
    (anc : list nat) (fuel : nat) :
  h !! leaf = Some nd ->
  chain h (Node.parent nd) anc ->
  (length anc <= fuel)%nat ->
  exists h' : heap State,
    backup fuel h leaf = Ok h'
    /\ length h' = length h
    /\ h' !! leaf = Some
         (Node.mk (Node.n nd + 1) (Node.w nd) (Node.w nd / INR (Node.n nd + 1))
            (Node.p nd) (Node.parent nd) (Node.a nd) (Node.s nd)
            (Node.to_play nd) (Node.children nd))
    /\ (forall (x : nat) (ndx : Node.t State), x ∈ anc -> h !! x = Some ndx ->
          h' !! x = Some
            (Node.mk (Node.n ndx + 1)
               (Node.w ndx
                + (if (Node.to_play ndx =? Node.to_play nd)%Z then Node.w nd else - Node.w nd))
               ((Node.w ndx
                 + (if (Node.to_play ndx =? Node.to_play nd)%Z then Node.w nd else - Node.w nd))
                / INR (Node.n ndx + 1))
               (Node.p ndx) (Node.parent ndx) (Node.a ndx) (Node.s ndx)
               (Node.to_play ndx) (Node.children ndx)))
    /\ (forall x : nat, x <> leaf -> x ∉ anc -> h' !! x = h !! x).
Proof. exact (backup_effect h leaf nd anc fuel). Qed.

(** The chain of the specification: after one [backup] from the leaf, the
    mean values are 1 at the leaf, -1 at the child and 1 at the root. *)
Lemma backup_spec_witness :
  exists h' : heap unit,
    backup 2 Examples.chain3 2 = Ok h'
    /\ (Node.q <$> h' !! 2%nat) = Some 1
    /\ (Node.q <$> h' !! 1%nat) = Some (- 1)
    /\ (Node.q <$> h' !! 0%nat) = Some 1.
Proof.
  destruct (backup_spec Examples.chain3 2
              (Node.mk 0 1 0 0 (Some 1%nat) (Some 0%nat) tt 0 [])
              [1; 0]%nat 2)
    as (h' & Hrun & _ & Hleaf & Hanc & _).
  - reflexivity.
  - simpl. eapply chain_up; [reflexivity|]. simpl.
    eapply chain_up; [reflexivity|]. simpl. apply chain_root.
  - simpl. lia.
  - exists h'. split; [exact Hrun|].
    rewrite Hleaf.
    rewrite (Hanc 1%nat _ ltac:(set_solver) eq_refl).
    rewrite (Hanc 0%nat _ ltac:(set_solver) eq_refl).
    simpl. repeat split; f_equal; lra.
Defined.

(** ** Revisits of a terminal leaf *)

Lemma chain_preserved {State : Type} (h h' : heap State) (o : option nat) (l : list nat) :
  chain h o l ->
  (forall (x : nat) (nd : Node.t State), x ∈ l -> h !! x = Some nd ->
     exists nd', h' !! x = Some nd' /\ Node.parent nd' = Node.parent nd) ->
  chain h' o l.
Proof.
  induction 1 as [|node nd l Hnd _ IH]; intros Hsame.
  - constructor.
  - destruct (Hsame node nd) as (nd' & Hnd' & Hpar); [left | exact Hnd |].
    econstructor; [exact Hnd'|]. rewrite Hpar. apply IH.
    intros x ndx Hx. apply Hsame. by right.
Qed.

Section Revisit.

Context {State Board : Type}.
Variable board : State -> Board.
Variable turn : State -> State.
Variable env : Env State.
Variable m : Board -> list R * R.

(** One visit of a terminal leaf: the reward is added to [w], [n] grows
    by 1, [q] is the new [w / n], and the chain of parents stays. *)
Lemma visit_terminal (h : heap State) (leaf : nat) (nd : Node.t State)
    (anc : list nat) (fuel : nat) :
  h !! leaf = Some nd ->
  is_terminal env (Node.s nd) = true ->
  chain h (Node.parent nd) anc ->
  (length anc <= fuel)%nat ->
  exists h' : heap State,
    visit board turn env m fuel leaf h = Ok h'
    /\ h' !! leaf = Some
         (Node.mk (Node.n nd + 1) (Node.w nd + compute_reward env (Node.s nd))
            ((Node.w nd + compute_reward env (Node.s nd)) / INR (Node.n nd + 1))
            (Node.p nd) (Node.parent nd) (Node.a nd) (Node.s nd)
            (Node.to_play nd) (Node.children nd))
    /\ chain h' (Node.parent nd) anc.
Proof.
  intros Hnd Hterm Hchain Hfuel.
  assert (Hacyc : leaf ∉ anc).
  { apply (chain_acyclic h). econstructor; eassumption. }
  unfold visit, expand_and_evaluate.
  rewrite (deref_Some _ _ _ Hnd), bind_Ok, Hterm, bind_Ok.
  set (nd1 := Node.set_w _ nd).
  assert (Hnd1 : <[leaf := nd1]> h !! leaf = Some nd1).
  { apply list_lookup_insert_eq. eapply lookup_lt_Some, Hnd. }
  assert (Hchain1 : chain (<[leaf := nd1]> h) (Node.parent nd1) anc).
  { apply chain_insert; assumption. }
  destruct (backup_effect _ leaf nd1 anc fuel Hnd1 Hchain1 Hfuel)
    as (h' & Hrun & _ & Hleaf & Hanc & _).
  exists h'. split; [exact Hrun|]. split; [exact Hleaf|].
  apply (chain_preserved _ _ _ _ Hchain1).
  intros x ndx Hx Hndx. eexists. split; [apply (Hanc x ndx Hx Hndx)|]. reflexivity.
Qed.

Lemma visits_terminal (r : R) (leaf : nat) (anc : list nat) (fuel : nat) (N : nat) :
  (length anc <= fuel)%nat ->
  forall (h : heap State) (nd : Node.t State),
    h !! leaf = Some nd ->
    is_terminal env (Node.s nd) = true ->
    compute_reward env (Node.s nd) = r ->
    chain h (Node.parent nd) anc ->
    Node.w nd = added r (Node.n nd) ->
    ((1 <= Node.n nd)%nat -> Node.q nd = Node.w nd / INR (Node.n nd)) ->
    exists (h' : heap State) (nd' : Node.t State),
      visits board turn env m fuel leaf N h = Ok h'
      /\ h' !! leaf = Some nd'
      /\ Node.n nd' = (Node.n nd + N)%nat
      /\ Node.w nd' = added r (Node.n nd')
      /\ ((1 <= Node.n nd')%nat -> Node.q nd' = Node.w nd' / INR (Node.n nd')).
Proof.
  intros Hfuel. induction N as [|N IH]; intros h nd Hnd Hterm Hr Hchain Hw Hq.
  - exists h, nd. simpl. rewrite Nat.add_0_r. auto.
  - destruct (visit_terminal h leaf nd anc fuel Hnd Hterm Hchain Hfuel)
      as (h1 & Hrun & Hleaf & Hchain1).
    simpl. rewrite Hrun, bind_Ok.
    destruct (IH h1 _ Hleaf) as (h' & nd' & Hrun' & Hnd' & Hn' & Hw' & Hq'); simpl.
    + exact Hterm.
    + exact Hr.
    + exact Hchain1.
    + rewrite Hw, Hr. replace (Node.n nd + 1)%nat with (S (Node.n nd)) by lia.
      reflexivity.
    + intros _. reflexivity.
    + exists h', nd'. split; [exact Hrun'|]. split; [exact Hnd'|].
      split; [simpl in Hn'; lia|]. split; [exact Hw' | exact Hq'].
Qed.

(** C6, as the code has it.  A terminal leaf with [n = 0] and [w = 0]
    that [N >= 1] simulations select, each adding the reward [r] in
    [expand_and_evaluate] and then running [backup], ends with [n = N],
    with [w] the reward added [N] times and with [q = w / N]. *)
Theorem terminal_leaf_revisits (h : heap State) (leaf : nat) (nd : Node.t State)
    (anc : list nat) (fuel : nat) (r : R) (N : nat) :
  h !! leaf = Some nd ->
  Node.n nd = 0%nat ->
  Node.w nd = 0 ->
  is_terminal env (Node.s nd) = true ->
  compute_reward env (Node.s nd) = r ->
  chain h (Node.parent nd) anc ->
  (length anc <= fuel)%nat ->
  (1 <= N)%nat ->
  exists (h' : heap State) (nd' : Node.t State),
    visits board turn env m fuel leaf N h = Ok h'
    /\ h' !! leaf = Some nd'
    /\ Node.n nd' = N
    /\ Node.w nd' = added r N
    /\ Node.q nd' = added r N / INR N.
Proof.
  intros Hnd Hn Hw Hterm Hr Hchain Hfuel HN.
  destruct (visits_terminal r leaf anc fuel N Hfuel h nd Hnd Hterm Hr Hchain)
    as (h' & nd' & Hrun & Hnd' & Hn' & Hw' & Hq').
  - rewrite Hw, Hn. reflexivity.
  - intros Hpos. lia.
  - rewrite Hn in Hn'. simpl in Hn'. rewrite Hn' in Hw', Hq'.
    exists h', nd'. split; [exact Hrun|]. split; [exact Hnd'|].
    split; [exact Hn'|]. split; [exact Hw'|]. rewrite <- Hw'. apply Hq'. lia.
Qed.

End Revisit.

Lemma terminal_leaf_revisits_witness :
  exists (h' : heap (option nat)) (nd' : Node.t (option nat)),
    visits Examples.board Examples.turn Examples.one_ply Examples.uniform 1 1 3
      Examples.one_ply_tree = Ok h'
    /\ h' !! 1%nat = Some nd'
    /\ Node.n nd' = 3%nat
    /\ Node.w nd' = added 1 3
    /\ Node.q nd' = added 1 3 / INR 3.
Proof.
  apply (terminal_leaf_revisits Examples.board Examples.turn Examples.one_ply Examples.uniform
           Examples.one_ply_tree 1
           (Node.mk 0 0 0 (1 / 2) (Some 0%nat) (Some 0%nat) (Some 0%nat) 1 [])
           [0%nat] 1 1 3).
  - reflexivity.
  - reflexivity.
  - reflexivity.
  - reflexivity.
  - reflexivity.
  - simpl. eapply chain_up; [reflexivity|]. simpl. apply chain_root.
  - simpl. lia.
  - lia.
Defined.

(** In exact arithmetic the reward added [N] times is [N] times the
    reward, and its mean is the reward. *)
Lemma added_exact (r : R) (N : nat) : added r N = INR N * r.
Proof.
  unfold added. induction N as [|N IH]; [simpl; lra|].
  rewrite S_INR. simpl. simpl in IH. rewrite IH. lra.
Qed.

Lemma added_mean_exact (r : R) (N : nat) : (1 <= N)%nat -> added r N / INR N = r.
Proof.
  intros HN. rewrite added_exact. field.
  apply not_0_INR. lia.
Qed.

(** The same visits in the floats of the program: the count is [N] more,
    [w] is the reward added [N] times by rounded additions, and [q] is the
    rounded quotient of [w] by the count. *)
Lemma binary64_visits (N : nat) (reward : float) :
  forall s : Binary64.stats,
    Binary64.n (Binary64.visits N reward s) = (Binary64.n s + Z.of_nat N)%Z
    /\ Binary64.w (Binary64.visits N reward s) = Binary64.added (Binary64.w s) reward N
    /\ Binary64.p (Binary64.visits N reward s) = Binary64.p s
    /\ ((1 <= N)%nat ->
        Binary64.q (Binary64.visits N reward s)
        = (Binary64.w (Binary64.visits N reward s)
           / Binary64.of_int (Binary64.n (Binary64.visits N reward s)))%float).
Proof.
  induction N as [|N IH]; intros s.
  - simpl. rewrite Z.add_0_r. repeat split. lia.
  - destruct (IH (Binary64.backup_leaf (Binary64.add_reward reward s)))
      as (Hn & Hw & Hp & Hq).
    change (Binary64.visits (S N) reward s)
      with (Binary64.visits N reward (Binary64.backup_leaf (Binary64.add_reward reward s))).
    split; [|split; [|split]].
    + rewrite Hn. simpl. lia.
    + rewrite Hw. unfold Binary64.added. rewrite Nat.iter_succ_r. reflexivity.
    + rewrite Hp. reflexivity.
    + intros _. destruct N as [|N]; [reflexivity|]. apply Hq. lia.
Qed.

(** Three visits of a terminal leaf of reward [0.1], in the floats of the
    program: the count is 3, and the mean is not the reward but the next
    double, [0.10000000000000002]. *)
Lemma terminal_leaf_rounding_counterexample :
  Binary64.n (Binary64.visits 3 0x1.999999999999ap-4 (Binary64.mk 0 0 0 0)) = 3%Z
  /\ Binary64.q (Binary64.visits 3 0x1.999999999999ap-4 (Binary64.mk 0 0 0 0))
     = 0x1.999999999999bp-4%float
  /\ Binary64.q (Binary64.visits 3 0x1.999999999999ap-4 (Binary64.mk 0 0 0 0))
     <> 0x1.999999999999ap-4%float.
Proof.
  split; [|split]; [vm_compute; reflexivity..|].
  vm_compute. intros H. discriminate H.
Qed.

(** With the rewards of a game, 1 and -1, the sums are exact and the mean
    is the reward. *)
Lemma terminal_leaf_unit_rewards :
  Binary64.q (Binary64.visits 3 1 (Binary64.mk 0 0 0 0)) = 1%float
  /\ Binary64.q (Binary64.visits 3 (-1) (Binary64.mk 0 0 0 0)) = (-1)%float.
Proof. split; vm_compute; reflexivity. Qed.

(** ** Expansion and evaluation *)

Lemma enumerate_lookup {A : Type} (l : list A) (i : nat) :
  py_enumerate l !! i = (fun x => (i, x)) <$> l !! i.
Proof.
  unfold py_enumerate. rewrite lookup_zip_with.
  destruct (l !! i) as [x|] eqn:Hx.
  - rewrite lookup_seq_lt by (eapply lookup_lt_Some, Hx). reflexivity.
  - rewrite lookup_seq_ge by (eapply lookup_ge_None, Hx). reflexivity.
Qed.

Lemma enumerate_elem_of {A : Type} (l : list A) (i : nat) (x : A) :
  (i, x) ∈ py_enumerate l <-> l !! i = Some x.
Proof.
  rewrite list_elem_of_lookup. split.
  - intros [j Hj]. rewrite enumerate_lookup in Hj.
    destruct (l !! j) as [y|] eqn:Hy; [|discriminate].
    simpl in Hj. injection Hj as -> ->. exact Hy.
  - intros Hx. exists i. rewrite enumerate_lookup, Hx. reflexivity.
Qed.

Lemma enumerate_sorted_from {A : Type} (l : list A) (k : nat) :
  StronglySorted (fun x y : nat * A => (x.1 < y.1)%nat) (zip (seq k (length l)) l).
Proof.
  revert k. induction l as [|x l IH]; intros k; simpl; constructor; [apply IH|].
  apply Forall_forall. intros [j y] Hj. simpl.
  apply elem_of_zip_l, elem_of_seq in Hj. lia.
Qed.

Lemma filter_sorted {A : Type} (R : A -> A -> Prop) (P : A -> Prop)
    `{forall x, Decision (P x)} (l : list A) :
  StronglySorted R l -> StronglySorted R (filter P l).
Proof.
  induction 1 as [|x l _ IH Hx]; [constructor|].
  rewrite filter_cons. destruct (decide (P x)); [|exact IH].
  constructor; [exact IH|].
  apply Forall_forall. intros y Hy. apply list_elem_of_filter in Hy as [_ Hy].
  rewrite Forall_forall in Hx. exact (Hx y Hy).
Qed.

Section Expand.

Context {State Board : Type}.
Variable board : State -> Board.
Variable turn : State -> State.
Variable env : Env State.
Variable m : Board -> list R * R.

Lemma set_children_same (nd : Node.t State) :
  Node.set_children (Node.children nd) nd = nd.
Proof. destruct nd. reflexivity. Qed.

(** The loop of [expand_and_evaluate] over a list [l] of actions with
    their priors. *)
Lemma expand_loop (leaf : nat) (l : list (nat * R)) :
  forall (h : heap State) (nd : Node.t State),
    h !! leaf = Some nd ->
    res_foldM (expand_step turn env leaf) l h
    = Ok (<[leaf := Node.set_children
                      (Node.children nd
                       ++ seq (length h)
                            (length (filter (fun ap => is_legal env ap.1 (Node.s nd)) l)))
                      nd]> h
          ++ map (child_of turn env leaf nd)
               (filter (fun ap => is_legal env ap.1 (Node.s nd)) l)).
Proof.
  induction l as [|[a p] l IH]; intros h nd Hnd.
  - simpl. rewrite app_nil_r, app_nil_r, set_children_same.
    rewrite list_insert_id by exact Hnd. reflexivity.
  - pose proof (lookup_lt_Some _ _ _ Hnd) as Hlt.
    simpl. run_deref Hnd.
    rewrite filter_cons. simpl.
    destruct (is_legal env a (Node.s nd)) eqn:Hlegal; simpl.
    + rewrite (deref_Some (h ++ _) leaf nd) by (rewrite lookup_app_l; assumption).
      rewrite !bind_Ok.
      set (nd2 := Node.set_children _ nd).
      set (child := Node.init _ _ _ _ _).
      rewrite (IH _ nd2).
      2:{ rewrite list_lookup_insert_eq; [reflexivity|]. rewrite length_app. lia. }
      f_equal. rewrite list_insert_insert_eq.
      rewrite insert_app_l by exact Hlt.
      rewrite <- app_assoc. simpl.
      rewrite length_insert, length_app. simpl.
      unfold nd2, Node.set_children. simpl. rewrite <- app_assoc. simpl.
      rewrite Nat.add_1_r. reflexivity.
    + apply IH. exact Hnd.
Qed.

(** The arena after [expand_and_evaluate]. *)
Lemma expand_effect (h : heap State) (leaf : nat) (nd : Node.t State) :
  h !! leaf = Some nd ->
  expand_and_evaluate board turn env m h leaf
  = Ok (if is_terminal env (Node.s nd)
        then <[leaf := Node.mk (Node.n nd) (Node.w nd + compute_reward env (Node.s nd))
                         (Node.q nd) (Node.p nd) (Node.parent nd) (Node.a nd)
                         (Node.s nd) (Node.to_play nd) (Node.children nd)]> h
        else <[leaf := Node.mk (Node.n nd) (m (board (Node.s nd))).2
                         (Node.q nd) (Node.p nd) (Node.parent nd) (Node.a nd)
                         (Node.s nd) (Node.to_play nd)
                         (Node.children nd
                          ++ seq (length h)
                               (length (legal_actions env (m (board (Node.s nd))).1
                                          (Node.s nd))))]> h
             ++ map (child_of turn env leaf nd)
                  (legal_actions env (m (board (Node.s nd))).1 (Node.s nd))).
Proof.
  intros Hnd.
  unfold expand_and_evaluate. run_deref Hnd.
  destruct (is_terminal env (Node.s nd)); [reflexivity|].
  destruct (m (board (Node.s nd))) as [ps v]. simpl.
  rewrite (expand_loop leaf (py_enumerate ps) _ (Node.set_w v nd)).
  2:{ apply list_lookup_insert_eq. eapply lookup_lt_Some, Hnd. }
  rewrite list_insert_insert_eq, length_insert. reflexivity.
Qed.

(** C3.  On a terminal state [expand_and_evaluate] adds the reward to the
    [w] of the leaf and creates no child.  Otherwise it overwrites [w] with
    the value the evaluator returns for the board of the leaf and appends
    one child for each legal action, the actions taken in ascending order
    among the indices of the priors: the child has the state after the
    transition and [turn()], the prior of its action, and the [to_play]
    [(to_play + 1) % 2], the other player of the leaf's. *)
Theorem expand_and_evaluate_spec (h : heap State) (leaf : nat) (nd : Node.t State) :
  h !! leaf = Some nd ->
  let ps := (m (board (Node.s nd))).1 in
  let v := (m (board (Node.s nd))).2 in
  let legal := legal_actions env ps (Node.s nd) in
  expand_and_evaluate board turn env m h leaf
  = Ok (if is_terminal env (Node.s nd)
        then <[leaf := Node.mk (Node.n nd) (Node.w nd + compute_reward env (Node.s nd))
                         (Node.q nd) (Node.p nd) (Node.parent nd) (Node.a nd)
                         (Node.s nd) (Node.to_play nd) (Node.children nd)]> h
        else <[leaf := Node.mk (Node.n nd) v
                         (Node.q nd) (Node.p nd) (Node.parent nd) (Node.a nd)
                         (Node.s nd) (Node.to_play nd)
                         (Node.children nd ++ seq (length h) (length legal))]> h
             ++ map (child_of turn env leaf nd) legal)
  /\ (forall (a : nat) (p : R),
        (a, p) ∈ legal <-> ps !! a = Some p /\ is_legal env a (Node.s nd) = true)
  /\ StronglySorted (fun x y : nat * R => (x.1 < y.1)%nat) legal
  /\ (Node.to_play nd = 0%Z \/ Node.to_play nd = 1%Z ->
      forall ap : nat * R,
        Node.to_play (child_of turn env leaf nd ap) = (1 - Node.to_play nd)%Z).
Proof.
  intros Hnd ps v legal. split; [|split; [|split]].
  - exact (expand_effect h leaf nd Hnd).
  - intros a p. unfold legal, legal_actions.
    rewrite list_elem_of_filter, enumerate_elem_of. simpl.
    rewrite Is_true_true. tauto.
  - apply filter_sorted. apply enumerate_sorted_from.
  - intros Htp ap. simpl. destruct Htp as [-> | ->]; reflexivity.
Qed.

End Expand.

(** The expansion of the root of the one-ply game. *)
Lemma expand_and_evaluate_spec_witness :
  expand_and_evaluate Examples.board Examples.turn Examples.one_ply Examples.uniform
    Examples.one_ply_root 0
  = Ok Examples.one_ply_tree.
Proof.
  destruct (expand_and_evaluate_spec Examples.board Examples.turn Examples.one_ply
              Examples.uniform Examples.one_ply_root 0
              (Node.init None None None 0 0) eq_refl) as [Hrun _].
  rewrite Hrun. reflexivity.
Defined.

(** ** The policy and the move to play *)

Lemma deref_all_nil {State : Type} (h : heap State) : deref_all h [] = Ok [].
Proof. reflexivity. Qed.

Lemma map_const_replicate {A B : Type} (y : B) (l : list A) :
  map (fun _ => y) l = replicate (length l) y.
Proof. induction l as [|x l IH]; simpl; [reflexivity|]. rewrite IH. reflexivity. Qed.

(** C10.  On a node without children [get_policy] raises nothing and
    returns [action_space] zeros, whatever the temperature: no power and no
    division is evaluated. *)
Theorem policy_of_leaf {State : Type} (h : heap State) (self : nat) (nd : Node.t State)
    (temperature : R) (action_space : Z) :
  h !! self = Some nd ->
  Node.children nd = [] ->
  get_policy h self temperature action_space
  = Ok (replicate (Z.to_nat action_space) 0).
Proof.
  intros Hnd Hch. unfold get_policy.
  rewrite (deref_Some _ _ _ Hnd), bind_Ok, Hch, deref_all_nil, bind_Ok.
  simpl. f_equal. unfold py_range, py_dict. simpl.
  rewrite (map_ext _ (fun _ => 0)) by (intros a; rewrite lookup_empty; reflexivity).
  rewrite map_const_replicate, length_seq. reflexivity.
Qed.

Lemma policy_of_leaf_witness :
  get_policy Examples.one_ply_root 0 1 2 = Ok [0; 0].
Proof.
  apply (policy_of_leaf Examples.one_ply_root 0 (Node.init None None None 0 0) 1 2);
    reflexivity.
Defined.

(** At temperature 0 the exponent [1 / temperature] raises on the first
    child. *)
Lemma visit_weight_zero {State : Type} (c : Node.t State) :
  visit_weight 0 c = Raise ZeroDivisionError.
Proof. unfold visit_weight. rewrite py_div_zero. reflexivity. Qed.

(** C4, as the code has it.  On a node with at least one child,
    [get_best_child_to_play] at temperature 0 raises [ZeroDivisionError]:
    nothing treats that temperature apart. *)
Theorem play_zero_temperature_raises {State : Type} (h : heap State) (self : nat)
    (nd : Node.t State) (cs : list (Node.t State)) (u : R) :
  h !! self = Some nd ->
  Node.children nd <> [] ->
  objects h (Node.children nd) cs ->
  get_best_child_to_play h self 0 u = Raise ZeroDivisionError.
Proof.
  intros Hnd Hne Hobj. unfold get_best_child_to_play.
  run_deref Hnd.
  rewrite (deref_all_objects _ _ _ Hobj), bind_Ok.
  destruct Hobj as [|c x l cs' _ _]; [congruence|].
  simpl. rewrite visit_weight_zero. reflexivity.
Qed.

Lemma play_zero_temperature_raises_witness :
  get_best_child_to_play Examples.tie_tree 0 0 (1 / 2) = Raise ZeroDivisionError.
Proof.
  apply (play_zero_temperature_raises Examples.tie_tree 0
           (Node.mk 6 0 0 0 None None tt 0 [1; 2]%nat)
           (drop 1 Examples.tie_tree) (1 / 2)).
  - reflexivity.
  - discriminate.
  - repeat constructor.
Defined.

(** The parent of [tie_tree] has a child of 5 visits and one of 1 visit;
    at temperature 0 the call raises and so returns neither. *)
Lemma play_zero_temperature_counterexample :
  get_best_child_to_play Examples.tie_tree 0 0 (1 / 2) = Raise ZeroDivisionError
  /\ get_best_child_to_play Examples.tie_tree 0 0 (1 / 2) <> Ok 1%nat.
Proof.
  assert (H : get_best_child_to_play Examples.tie_tree 0 0 (1 / 2)
              = Raise ZeroDivisionError).
  { unfold get_best_child_to_play, Examples.tie_tree. simpl.
    rewrite !visit_weight_zero. reflexivity. }
  split; [exact H|]. rewrite H. discriminate.
Qed.

(** *** Sums and powers *)

Lemma py_sum_Rsum (l : list R) : py_sum l = Rsum l.
Proof.
  unfold py_sum.
  assert (H : forall k, fold_left Rplus l k = k + Rsum l).
  { induction l as [|x l IH]; intros k; simpl; [lra|]. rewrite IH. lra. }
  rewrite H. lra.
Qed.

Lemma within_ulps_eq (k : nat) (x y : R) : x = y -> within_ulps k x y.
Proof.
  intros ->. unfold within_ulps, float_eps.
  replace (y - y) with 0 by lra. rewrite Rabs_R0.
  apply Rmult_le_pos; [apply pos_INR|].
  left. apply Rinv_0_lt_compat. apply pow_lt. lra.
Qed.

Lemma Rsum_nonneg (l : list R) : Forall (fun x => 0 <= x) l -> 0 <= Rsum l.
Proof. induction 1 as [|x l Hx _ IH]; simpl; lra. Qed.

Lemma Rsum_div (l : list R) (d : R) : Rsum (map (fun x => x / d) l) = Rsum l / d.
Proof.
  induction l as [|x l IH]; simpl; [unfold Rdiv; ring|]. rewrite IH. unfold Rdiv. ring.
Qed.

Lemma Rsum_plus {A : Type} (f g : A -> R) (l : list A) :
  Rsum (map (fun x => f x + g x) l) = Rsum (map f l) + Rsum (map g l).
Proof. induction l as [|x l IH]; simpl; [lra|]. rewrite IH. lra. Qed.

Lemma Rsum_zero {A : Type} (l : list A) : Rsum (map (fun _ => 0) l) = 0.
Proof. induction l as [|x l IH]; simpl; [reflexivity|]. rewrite IH. lra. Qed.

(** A sum over a range that is 0 but at [k]. *)
Lemma Rsum_single (v : R) (k j num : nat) :
  Rsum (map (fun a : nat => if decide (a = k) then v else 0) (seq j num))
  = if decide (j <= k < j + num)%nat then v else 0.
Proof.
  revert j. induction num as [|num IH]; intros j; simpl.
  - rewrite decide_False by lia. reflexivity.
  - rewrite IH. repeat case_decide; try lia; lra.
Qed.

Section Powers.

Context {State : Type}.
Implicit Types (c : Node.t State) (cs : list (Node.t State)).

Lemma float_overflow_large : 1024 < float_overflow.
Proof.
  unfold float_overflow.
  replace (2 ^ 1024) with (2 ^ 970 * 2 ^ 54) by (rewrite <- pow_add; reflexivity).
  assert (H1 : 2 ^ 11 <= 2 ^ 970) by (apply Rle_pow; [lra | lia]).
  assert (H2 : 2 ^ 1 <= 2 ^ 54) by (apply Rle_pow; [lra | lia]).
  simpl in H1. rewrite pow_1 in H2. nra.
Qed.

(** At a positive temperature the power of a visit count is returned if
    it is in the range of the doubles, and raises [OverflowError] if not. *)
Lemma visit_weight_positive (temperature : R) c :
  0 < temperature ->
  visit_power temperature c < float_overflow ->
  visit_weight temperature c = Ok (visit_power temperature c).
Proof.
  intros HT Hfin. unfold visit_weight, visit_power in *.
  rewrite py_div_nonzero by lra. rewrite bind_Ok.
  assert (He : 0 < 1 / temperature).
  { unfold Rdiv. rewrite Rmult_1_l. apply Rinv_0_lt_compat, HT. }
  unfold py_pow. destruct (Node.n c).
  - destruct (Rlt_dec _ _); [lra|]. destruct (Req_dec_T _ _); [lra|reflexivity].
  - destruct (Rle_dec _ _); [lra | reflexivity].
Qed.

Lemma visit_weight_overflow (temperature : R) c :
  0 < temperature ->
  float_overflow <= visit_power temperature c ->
  visit_weight temperature c = Raise OverflowError.
Proof.
  intros HT Hover. unfold visit_weight, visit_power in *.
  rewrite py_div_nonzero by lra. rewrite bind_Ok.
  unfold py_pow. destruct (Node.n c).
  - pose proof float_overflow_large. lra.
  - destruct (Rle_dec _ _); [reflexivity | lra].
Qed.

Lemma visit_power_nonneg (temperature : R) c : 0 <= visit_power temperature c.
Proof.
  unfold visit_power. destruct (Node.n c); [lra|].
  unfold Rpower. left. apply exp_pos.
Qed.

Lemma visit_power_unvisited (temperature : R) c :
  Node.n c = 0%nat -> visit_power temperature c = 0.
Proof. unfold visit_power. intros ->. reflexivity. Qed.

Lemma visit_power_visited (temperature : R) c :
  Node.n c <> 0%nat -> 0 < visit_power temperature c.
Proof.
  unfold visit_power. destruct (Node.n c); [congruence|]. intros _.
  unfold Rpower. apply exp_pos.
Qed.

Lemma total_nonneg (temperature : R) cs : 0 <= Rsum (map (visit_power temperature) cs).
Proof.
  apply Rsum_nonneg, Forall_forall. intros x Hx.
  apply list_elem_of_fmap in Hx as (c & -> & _). apply visit_power_nonneg.
Qed.

Lemma total_unvisited (temperature : R) cs :
  visit_sum cs = 0%nat -> Rsum (map (visit_power temperature) cs) = 0.
Proof.
  unfold visit_sum. induction cs as [|c cs IH]; simpl; [reflexivity|]. intros Hsum.
  rewrite visit_power_unvisited by lia. rewrite IH by lia. lra.
Qed.

Lemma total_visited (temperature : R) cs :
  visit_sum cs <> 0%nat -> 0 < Rsum (map (visit_power temperature) cs).
Proof.
  unfold visit_sum. induction cs as [|c cs IH]; simpl; [congruence|]. intros Hsum.
  pose proof (visit_power_nonneg temperature c).
  pose proof (total_nonneg temperature cs).
  destruct (Nat.eq_dec (Node.n c) 0%nat) as [Hc|Hc].
  - assert (0 < Rsum (map (visit_power temperature) cs)) by (apply IH; lia). lra.
  - pose proof (visit_power_visited temperature c Hc). lra.
Qed.

(** Powers whose sum is in the range of the doubles are in it each. *)
Lemma powers_each (temperature : R) cs :
  powers_in_range temperature cs ->
  forall c, c ∈ cs -> visit_power temperature c < float_overflow.
Proof.
  unfold powers_in_range. induction cs as [|x cs IH]; intros Hsum c Hc.
  - by apply not_elem_of_nil in Hc.
  - simpl in Hsum.
    pose proof (visit_power_nonneg temperature x).
    pose proof (total_nonneg temperature cs).
    apply elem_of_cons in Hc as [->|Hc]; [lra|]. apply IH; [lra | exact Hc].
Qed.

Lemma visit_power_one (c : Node.t State) : visit_power 1 c = INR (Node.n c).
Proof.
  unfold visit_power. destruct (Node.n c) as [|k] eqn:Hn; [reflexivity|].
  replace (1 / 1) with 1 by lra. apply Rpower_1. apply lt_0_INR. lia.
Qed.

Lemma total_one cs : Rsum (map (visit_power 1) cs) = INR (visit_sum cs).
Proof.
  unfold visit_sum. induction cs as [|c cs IH]; [reflexivity|].
  simpl. rewrite IH, visit_power_one, plus_INR. reflexivity.
Qed.

(** At temperature 1 the powers are the visit counts. *)
Lemma counts_in_range cs :
  INR (visit_sum cs) < float_overflow -> powers_in_range 1 cs.
Proof. unfold powers_in_range. rewrite total_one. auto. Qed.

Lemma powers_unvisited (temperature : R) cs :
  visit_sum cs = 0%nat -> powers_in_range temperature cs.
Proof.
  intros Hsum. unfold powers_in_range. rewrite (total_unvisited _ _ Hsum).
  pose proof float_overflow_large. lra.
Qed.

End Powers.

(** *** The dict of the policy *)

Lemma py_dict_snoc (kvs : list (option nat * R)) (kv : option nat * R) :
  py_dict (kvs ++ [kv]) = <[kv.1 := kv.2]> (py_dict kvs).
Proof. unfold py_dict. rewrite foldl_app. reflexivity. Qed.

(** A key of the dict has the value of the last item of this key. *)
Lemma py_dict_lookup (kvs : list (option nat * R)) (k : option nat) :
  py_dict kvs !! k = snd <$> last (filter (fun kv => kv.1 = k) kvs).
Proof.
  induction kvs as [|kv kvs IH] using rev_ind.
  - unfold py_dict. simpl. apply lookup_empty.
  - rewrite py_dict_snoc, filter_app, filter_cons, filter_nil.
    destruct (decide (kv.1 = k)) as [Hk|Hk].
    + rewrite last_snoc. simpl. rewrite Hk. apply lookup_insert_eq.
    + rewrite app_nil_r, lookup_insert_ne by exact Hk. exact IH.
Qed.

Lemma filter_fmap_list {A B : Type} (f : A -> B) (P : B -> Prop)
    `{forall y, Decision (P y)} (l : list A) :
  filter P (f <$> l) = f <$> filter (fun x => P (f x)) l.
Proof.
  induction l as [|x l IH]; [reflexivity|].
  rewrite fmap_cons, !filter_cons, IH. destruct (decide (P (f x))); reflexivity.
Qed.

Section Policy.

Context {State : Type}.
Implicit Types (c : Node.t State) (cs : list (Node.t State)).

(** Over a range that covers the actions of the children, no two of the
    same action, the entries picked by action add up to the sum over the
    children. *)
Lemma entries_sum (g : Node.t State -> R) (num : nat) cs :
  NoDup (Node.a <$> cs) ->
  (forall c, c ∈ cs -> exists k : nat, Node.a c = Some k /\ (k < num)%nat) ->
  Rsum (map (fun a : nat =>
               match last (filter (fun c => Node.a c = Some a) cs) with
               | Some c => g c
               | None => 0
               end) (seq 0 num))
  = Rsum (map g cs).
Proof.
  induction cs as [|c cs IH]; intros Hnd Hcov.
  - simpl. apply Rsum_zero.
  - rewrite fmap_cons in Hnd. apply NoDup_cons in Hnd as [Hc Hnd].
    destruct (Hcov c) as (k & Hk & Hlt); [left|].
    rewrite (map_ext _ (fun a : nat =>
               match last (filter (fun c => Node.a c = Some a) cs) with
               | Some c => g c
               | None => 0
               end + (if decide (a = k) then g c else 0))).
    + rewrite Rsum_plus, IH, Rsum_single.
      * rewrite decide_True by lia. simpl. lra.
      * exact Hnd.
      * intros c' Hc'. apply Hcov. by right.
    + intros a. rewrite filter_cons.
      destruct (decide (a = k)) as [->|Hne].
      * rewrite decide_True by exact Hk.
        assert (Hnil : filter (fun c => Node.a c = Some k) cs = []).
        { destruct (filter _ cs) as [|c' l] eqn:Hf; [reflexivity|]. exfalso.
          assert (Hin : c' ∈ filter (fun c => Node.a c = Some k) cs)
            by (rewrite Hf; left).
          apply list_elem_of_filter in Hin as [Hk' Hin].
          apply Hc. rewrite Hk, <- Hk'. apply list_elem_of_fmap_2, Hin. }
        rewrite Hnil. simpl. lra.
      * rewrite decide_False by congruence. lra.
Qed.

(** The sum of the powers of the visit counts, as the code computes it. *)
Lemma weights_total (l : list nat) cs (temperature : R) :
  length l = length cs ->
  0 < temperature ->
  (forall c, c ∈ cs -> visit_power temperature c < float_overflow) ->
  res_mapM (fun x : nat * Node.t State => visit_weight temperature x.2) (zip l cs)
  = Ok (map (visit_power temperature) cs).
Proof.
  intros Hlen HT Hfin.
  rewrite (res_mapM_total _ (fun x : nat * Node.t State => visit_power temperature x.2)).
  - f_equal.
    change (fun x : nat * Node.t State => visit_power temperature x.2)
      with (visit_power temperature ∘ (@snd nat (Node.t State))).
    rewrite (list_fmap_compose snd (visit_power temperature)). f_equal.
    apply snd_zip. lia.
  - intros x Hx. apply visit_weight_positive; [exact HT|].
    apply Hfin. destruct x as [i c]. eapply elem_of_zip_r, Hx.
Qed.

(** The first comprehension of [get_policy] and of
    [get_best_child_to_play] raises [OverflowError] when a power leaves the
    range of the doubles. *)
Lemma weights_overflow (l : list nat) cs (temperature : R) :
  length l = length cs ->
  0 < temperature ->
  (exists c, c ∈ cs /\ float_overflow <= visit_power temperature c) ->
  res_mapM (fun x : nat * Node.t State => visit_weight temperature x.2) (zip l cs)
  = Raise OverflowError.
Proof.
  intros Hlen HT (c & Hc & Hover). apply res_mapM_raise.
  - intros x _.
    destruct (Rlt_dec (visit_power temperature x.2) float_overflow) as [Hlt|Hge].
    + left. eexists. apply visit_weight_positive; assumption.
    + right. apply visit_weight_overflow; [exact HT | lra].
  - apply list_elem_of_lookup in Hc as [i Hi].
    destruct (lookup_lt_is_Some_2 l i) as [x Hx].
    { rewrite Hlen. eapply lookup_lt_Some, Hi. }
    exists (x, c). split.
    + apply list_elem_of_lookup. exists i.
      rewrite lookup_zip_with, Hx. simpl. rewrite Hi. reflexivity.
    + apply visit_weight_overflow; assumption.
Qed.

End Policy.



Lemma Rpower_one (y : R) : Rpower 1 y = 1.
Proof. unfold Rpower. rewrite ln_1, Rmult_0_r. apply exp_0. Qed.

(** The side conditions of [visit_weight_positive] at temperature 1 on a
    given node. *)
Ltac small_count :=
  first [ lra
        | rewrite visit_power_one; simpl; pose proof float_overflow_large; lra ].

(** Children that share an action share one entry, the share of the last
    of them: the entries add up to 1 only for distinct actions. *)
Lemma get_policy_shared_action :
  get_policy Examples.shared_action_tree 0 1 1 = Ok [1 / 2].
Proof.
  unfold get_policy, Examples.shared_action_tree. simpl.
  rewrite !visit_weight_positive by small_count. simpl.
  unfold visit_power. simpl. rewrite Rpower_one.
  replace (py_sum [1; 1]) with 2 by (unfold py_sum; simpl; lra).
  rewrite py_div_nonzero by lra. reflexivity.
Qed.


(** ** Simulations on a well-formed tree *)

Section WellFormed.

Context {State : Type}.
Implicit Types (h : heap State) (nd : Node.t State).

Lemma explore_returns_child h (node : nat) nd :
  h !! node = Some nd ->
  Node.children nd <> [] ->
  (forall c : nat, c ∈ Node.children nd -> is_Some (h !! c)) ->
  exists child : nat,
    get_best_child_to_explore h node 1 = Ok child /\ child ∈ Node.children nd.
Proof.
  intros Hnd Hne Hall.
  destruct (objects_exist h (Node.children nd) Hall) as [cs Hcs].
  destruct (explore_first_maximal h node nd cs 1 Hnd Hne Hcs)
    as (i & best & _ & Hbest & Hi & _).
  exists best. split; [exact Hbest|]. eapply list_elem_of_lookup_2, Hi.
Qed.

(** The leaf that [select] reaches from a node has, above it, the path of
    its descent and then the ancestors of that node. *)
Lemma descent_chain h (x leaf : nat) :
  (forall (y c : nat) nd, h !! y = Some nd -> c ∈ Node.children nd ->
     exists ndc, h !! c = Some ndc /\ Node.parent ndc = Some y) ->
  descent h x leaf ->
  forall ancx : list nat,
    chain h (Some x) (x :: ancx) ->
    exists pre : list nat, chain h (Some leaf) (pre ++ x :: ancx)
                           /\ head (pre ++ [x]) = Some leaf.
Proof.
  intros Hpar. induction 1 as [x nd Hnd Hch | x child leaf nd Hnd Hch Hbest _ IH];
    intros ancx Hchain.
  - exists []. split; [exact Hchain | reflexivity].
  - destruct (explore_returns_child h x nd Hnd Hch) as (child' & Hbest' & Hin).
    { intros c Hc. destruct (Hpar x c nd Hnd Hc) as (ndc & Hndc & _). eauto. }
    assert (child' = child) as -> by congruence.
    destruct (Hpar x child nd Hnd Hin) as (ndc & Hndc & Hp).
    destruct (IH (x :: ancx)) as (pre & Hpre & Hhead).
    { econstructor; [exact Hndc|]. rewrite Hp. exact Hchain. }
    exists (pre ++ [child]). rewrite <- app_assoc. split; [exact Hpre|].
    destruct pre as [|y pre]; simpl in *; exact Hhead.
Qed.

Lemma same_shape_inv h h' (x : nat) nd' :
  same_shape h h' -> h' !! x = Some nd' ->
  exists nd, h !! x = Some nd
             /\ Node.parent nd' = Node.parent nd
             /\ Node.children nd' = Node.children nd.
Proof.
  intros [Hlen Hsame] Hnd'.
  destruct (lookup_lt_is_Some_2 h x) as [nd Hnd].
  { rewrite <- Hlen. eapply lookup_lt_Some, Hnd'. }
  destruct (Hsame x nd Hnd) as (nd'' & Hnd'' & Hp & Hc).
  exists nd. split; [exact Hnd|]. split; congruence.
Qed.

Lemma tree_same_shape h h' (x : nat) : same_shape h h' -> tree h x -> tree h' x.
Proof.
  intros [_ Hsame]. induction 1 as [x nd Hnd _ IH].
  destruct (Hsame x nd Hnd) as (nd' & Hnd' & _ & Hc).
  econstructor; [exact Hnd'|]. rewrite Hc. exact IH.
Qed.

Lemma wf_same_shape h h' (root : nat) : wf h root -> same_shape h h' -> wf h' root.
Proof.
  intros [(r & Hr & Hnone) Htree Hpar] Hshape. split.
  - destruct Hshape as [_ Hsame].
    destruct (Hsame root r Hr) as (r' & Hr' & Hp & _).
    exists r'. split; [exact Hr' | congruence].
  - eapply tree_same_shape; eassumption.
  - intros x c nd' Hnd' Hc.
    destruct (same_shape_inv h h' x nd' Hshape Hnd') as (nd & Hnd & _ & Hch).
    rewrite Hch in Hc. destruct (Hpar x c nd Hnd Hc) as (ndc & Hndc & Hp).
    destruct Hshape as [_ Hsame].
    destruct (Hsame c ndc Hndc) as (ndc' & Hndc' & Hp' & _).
    exists ndc'. split; [exact Hndc' | congruence].
Qed.

End WellFormed.

Section Growth.

Context {State : Type}.
Implicit Types (h : heap State) (nd : Node.t State).

Lemma lookup_expanded h (leaf x : nat) (L : Node.t State) (news : list (Node.t State)) :
  (leaf < length h)%nat ->
  (<[leaf := L]> h ++ news) !! x
  = if decide (x = leaf) then Some L
    else if decide (x < length h)%nat then h !! x
         else news !! (x - length h)%nat.
Proof.
  intros Hleaf. destruct (decide (x = leaf)) as [->|Hne].
  - rewrite lookup_app_l by (rewrite length_insert; exact Hleaf).
    apply list_lookup_insert_eq, Hleaf.
  - destruct (decide (x < length h)%nat) as [Hlt|Hge].
    + rewrite lookup_app_l by (rewrite length_insert; exact Hlt).
      apply list_lookup_insert_ne. congruence.
    + rewrite lookup_app_r by (rewrite length_insert; lia).
      rewrite length_insert. reflexivity.
Qed.

(** The arena that an expansion leaves holds a well-formed tree again: the
    node expanded keeps its parent and gets the new nodes, which are
    leaves, as further children. *)
Lemma wf_expanded h (root leaf : nat) nd (L : Node.t State)
    (news : list (Node.t State)) :
  wf h root ->
  h !! leaf = Some nd ->
  Node.parent L = Node.parent nd ->
  Node.children L = Node.children nd ++ seq (length h) (length news) ->
  (forall c : Node.t State, c ∈ news ->
     Node.parent c = Some leaf /\ Node.children c = []) ->
  wf (<[leaf := L]> h ++ news) root.
Proof.
  intros [(r & Hr & Hnone) Htree Hpar] Hnd HpL HcL Hnews.
  pose proof (lookup_lt_Some _ _ _ Hnd) as Hleaf.
  assert (Hnew : forall c : nat, c ∈ seq (length h) (length news) ->
            exists ndc, (<[leaf := L]> h ++ news) !! c = Some ndc
                        /\ Node.parent ndc = Some leaf /\ Node.children ndc = []).
  { intros c Hc. apply elem_of_seq in Hc.
    rewrite (lookup_expanded h leaf c L news Hleaf).
    rewrite decide_False by lia. rewrite decide_False by lia.
    destruct (lookup_lt_is_Some_2 news (c - length h)%nat) as [ndc Hndc]; [lia|].
    exists ndc. split; [exact Hndc|]. apply Hnews.
    eapply list_elem_of_lookup_2, Hndc. }
  assert (Hold : forall (c : nat) ndc, h !! c = Some ndc ->
            exists ndc', (<[leaf := L]> h ++ news) !! c = Some ndc'
                         /\ Node.parent ndc' = Node.parent ndc).
  { intros c ndc Hndc. rewrite (lookup_expanded h leaf c L news Hleaf).
    destruct (decide (c = leaf)) as [->|Hne].
    - exists L. split; [reflexivity|]. congruence.
    - rewrite decide_True by (eapply lookup_lt_Some, Hndc).
      exists ndc. split; [exact Hndc | reflexivity]. }
  split.
  - destruct (Hold root r Hr) as (r' & Hr' & Hp). exists r'. split; [exact Hr'|congruence].
  - clear Hr Hnone. induction Htree as [x ndx Hndx _ IH].
    destruct (decide (x = leaf)) as [->|Hne].
    + apply (tree_node _ leaf L).
      * rewrite (lookup_expanded h leaf leaf L news Hleaf), decide_True; reflexivity.
      * intros c Hc. rewrite HcL in Hc. apply elem_of_app in Hc as [Hc|Hc].
        -- apply IH. congruence.
        -- destruct (Hnew c Hc) as (ndc & Hndc & _ & Hnil).
           apply (tree_node _ c ndc Hndc). rewrite Hnil. intros c' Hc'.
           by apply not_elem_of_nil in Hc'.
    + apply (tree_node _ x ndx); [|exact IH].
      rewrite (lookup_expanded h leaf x L news Hleaf), decide_False by exact Hne.
      rewrite decide_True by (eapply lookup_lt_Some, Hndx). exact Hndx.
  - intros x c ndx Hndx Hc.
    rewrite (lookup_expanded h leaf x L news Hleaf) in Hndx.
    assert (Hkeep : forall ndx0, h !! x = Some ndx0 -> c ∈ Node.children ndx0 ->
              exists ndc, (<[leaf := L]> h ++ news) !! c = Some ndc
                          /\ Node.parent ndc = Some x).
    { intros ndx0 Hndx0 Hc0. destruct (Hpar x c ndx0 Hndx0 Hc0) as (ndc & Hndc & Hp).
      destruct (Hold c ndc Hndc) as (ndc' & Hndc' & Hp').
      exists ndc'. split; [exact Hndc' | congruence]. }
    destruct (decide (x = leaf)) as [->|Hne].
    + injection Hndx as <-. rewrite HcL in Hc. apply elem_of_app in Hc as [Hc|Hc].
      * exact (Hkeep nd Hnd Hc).
      * destruct (Hnew c Hc) as (ndc & Hndc & Hp & _). eauto.
    + destruct (decide (x < length h)%nat) as [Hlt|Hge].
      * exact (Hkeep ndx Hndx Hc).
      * apply list_elem_of_lookup_2, Hnews in Hndx as [_ Hnil].
        rewrite Hnil in Hc. by apply not_elem_of_nil in Hc.
Qed.

End Growth.

Section Total.

Context {State Board : Type}.
Variable board : State -> Board.
Variable turn : State -> State.
Variable env : Env State.
Variable m : Board -> list R * R.
Implicit Types (h : heap State) (nd : Node.t State).

Lemma backup_shape h h' (leaf : nat) nd (anc : list nat) (fuel : nat) :
  h !! leaf = Some nd ->
  chain h (Node.parent nd) anc ->
  (length anc <= fuel)%nat ->
  backup fuel h leaf = Ok h' ->
  same_shape h h'.
Proof.
  intros Hnd Hchain Hfuel Hrun.
  destruct (backup_effect h leaf nd anc fuel Hnd Hchain Hfuel)
    as (h'' & Hrun' & Hlen & Hleaf & Hanc & Hout).
  assert (h'' = h') as -> by congruence.
  split; [exact Hlen|]. intros x ndx Hndx.
  destruct (decide (x = leaf)) as [->|Hne].
  - assert (ndx = nd) as -> by congruence. eexists. split; [exact Hleaf|]. split; reflexivity.
  - destruct (decide (x ∈ anc)) as [Hin|Hnin].
    + eexists. split; [exact (Hanc x ndx Hin Hndx)|]. split; reflexivity.
    + exists ndx. rewrite (Hout x Hne Hnin). auto.
Qed.

(** The result of [backup] does not depend on the fuel, once it suffices. *)
Lemma backup_fuel h (leaf : nat) nd (anc : list nat) (fuel fuel' : nat) :
  h !! leaf = Some nd ->
  chain h (Node.parent nd) anc ->
  (length anc <= fuel)%nat ->
  (length anc <= fuel')%nat ->
  backup fuel h leaf = backup fuel' h leaf.
Proof.
  intros Hnd Hchain Hfuel Hfuel'.
  destruct (backup_effect h leaf nd anc fuel Hnd Hchain Hfuel)
    as (h1 & -> & _ & Hleaf1 & Hanc1 & Hout1).
  destruct (backup_effect h leaf nd anc fuel' Hnd Hchain Hfuel')
    as (h2 & -> & _ & Hleaf2 & Hanc2 & Hout2).
  f_equal. apply list_eq. intros x.
  destruct (decide (x = leaf)) as [->|Hne]; [congruence|].
  destruct (decide (x ∈ anc)) as [Hin|Hnin].
  - destruct (h !! x) as [ndx|] eqn:Hndx.
    + rewrite (Hanc1 x ndx Hin Hndx), (Hanc2 x ndx Hin Hndx). reflexivity.
    + exfalso. clear -Hchain Hin Hndx.
      induction Hchain as [|y ndy l Hy _ IH]; [by apply not_elem_of_nil in Hin|].
      apply elem_of_cons in Hin as [->|Hin]; [congruence | exact (IH Hin)].
  - rewrite (Hout1 x Hne Hnin), (Hout2 x Hne Hnin). reflexivity.
Qed.

(** After the expansion of the leaf that [select] reached, [backup] from
    that leaf returns, the tree is well formed again and the root has one
    visit more. *)
Lemma backup_after_expand h (root leaf : nat) (r ndl L : Node.t State)
    (anc : list nat) (news : list (Node.t State)) :
  wf h root ->
  h !! root = Some r ->
  h !! leaf = Some ndl ->
  chain h (Node.parent ndl) anc ->
  leaf = root \/ root ∈ anc ->
  Node.n L = Node.n ndl ->
  Node.parent L = Node.parent ndl ->
  Node.children L = Node.children ndl ++ seq (length h) (length news) ->
  (forall c : Node.t State, c ∈ news ->
     Node.parent c = Some leaf /\ Node.children c = []) ->
  exists (h' : heap State) (r' : Node.t State),
    (forall fuel : nat, (length anc <= fuel)%nat ->
       backup fuel (<[leaf := L]> h ++ news) leaf = Ok h')
    /\ wf h' root
    /\ h' !! root = Some r'
    /\ Node.n r' = (Node.n r + 1)%nat.
Proof.
  intros Hwf Hr Hndl Hchain Hroot HnL HpL HcL Hnews.
  pose proof (lookup_lt_Some _ _ _ Hndl) as Hleaf.
  set (h1 := <[leaf := L]> h ++ news).
  assert (Hwf1 : wf h1 root) by (eapply wf_expanded; eassumption).
  assert (Hacyc : leaf ∉ anc).
  { apply (chain_acyclic h). econstructor; eassumption. }
  assert (HL : h1 !! leaf = Some L).
  { unfold h1. rewrite (lookup_expanded h leaf leaf L news Hleaf).
    rewrite decide_True; reflexivity. }
  assert (Hsame : forall (x : nat) ndx, x <> leaf -> h !! x = Some ndx ->
            h1 !! x = Some ndx).
  { intros x ndx Hne Hndx. unfold h1.
    rewrite (lookup_expanded h leaf x L news Hleaf), decide_False by exact Hne.
    rewrite decide_True by (eapply lookup_lt_Some, Hndx). exact Hndx. }
  assert (Hchain1 : chain h1 (Node.parent L) anc).
  { rewrite HpL. apply (chain_preserved h h1 _ _ Hchain).
    intros x ndx Hx Hndx. exists ndx. split; [|reflexivity].
    apply Hsame; [|exact Hndx]. intros ->. contradiction. }
  destruct (backup_effect h1 leaf L anc (length anc) HL Hchain1 (le_n _))
    as (h' & Hrun & _ & Hleaf' & Hanc' & _).
  assert (Hwf' : wf h' root).
  { apply (wf_same_shape h1 h' root Hwf1).
    eapply backup_shape; [exact HL | exact Hchain1 | apply le_n | exact Hrun]. }
  assert (Hfuel : forall fuel : nat, (length anc <= fuel)%nat ->
            backup fuel h1 leaf = Ok h').
  { intros fuel Hle. rewrite <- Hrun.
    apply (backup_fuel h1 leaf L anc); [exact HL | exact Hchain1 | exact Hle | apply le_n]. }
  destruct Hroot as [->|Hin].
  - assert (ndl = r) as -> by congruence.
    eexists h', _. split; [exact Hfuel|]. split; [exact Hwf'|].
    split; [exact Hleaf'|]. simpl. lia.
  - assert (Hne : root <> leaf) by (intros ->; contradiction).
    eexists h', _. split; [exact Hfuel|]. split; [exact Hwf'|].
    split; [exact (Hanc' root r Hin (Hsame root r Hne Hr))|]. reflexivity.
Qed.

(** One simulation on a well-formed tree returns, leaves a well-formed
    tree and adds one visit to the root. *)
Lemma simulate_total h (root : nat) (r : Node.t State) :
  wf h root ->
  h !! root = Some r ->
  exists (h' : heap State) (r' : Node.t State) (k : nat),
    (forall fuel : nat, (k <= fuel)%nat ->
       simulate board turn env m fuel root h = Ok h')
    /\ wf h' root
    /\ h' !! root = Some r'
    /\ Node.n r' = (Node.n r + 1)%nat.
Proof.
  intros Hwf Hr. pose proof Hwf as [(r0 & Hr0 & Hnone) Htree Hpar].
  assert (r0 = r) as -> by congruence.
  destruct (select_descends h root Htree)
    as (leaf & ndl & k & Hsel & Hndl & Hnil & Hdesc & _).
  destruct (descent_chain h root leaf Hpar Hdesc [])
    as (pre & Hpre & Hhead).
  { econstructor; [exact Hr|]. rewrite Hnone. constructor. }
  destruct (pre ++ [root]) as [|y anc] eqn:Hpath; [discriminate|].
  injection Hhead as ->.
  inversion Hpre as [|leaf' ndl' anc' Hndl' Hchain]; subst.
  assert (ndl' = ndl) as -> by congruence.
  assert (Hroot : leaf = root \/ root ∈ anc).
  { destruct pre as [|y pre]; simpl in Hpath.
    - left. congruence.
    - right. injection Hpath as _ <-. apply elem_of_app. right. left. }
  pose proof (expand_effect board turn env m h leaf ndl Hndl) as Hexp.
  destruct (is_terminal env (Node.s ndl)).
  - destruct (backup_after_expand h root leaf r ndl
                (Node.mk (Node.n ndl) (Node.w ndl + compute_reward env (Node.s ndl))
                   (Node.q ndl) (Node.p ndl) (Node.parent ndl) (Node.a ndl)
                   (Node.s ndl) (Node.to_play ndl) (Node.children ndl))
                anc [] Hwf Hr Hndl Hchain Hroot)
      as (h' & r' & Hrun & Hwf' & Hr' & Hn'); try reflexivity.
    { simpl. rewrite app_nil_r. reflexivity. }
    { intros c Hc. by apply not_elem_of_nil in Hc. }
    rewrite app_nil_r in Hrun.
    exists h', r', (Nat.max k (length anc)). split; [|auto].
    intros fuel Hfuel. unfold simulate.
    rewrite Hsel by lia. rewrite bind_Ok, Hexp, bind_Ok. apply Hrun. lia.
  - set (legal := legal_actions env (m (board (Node.s ndl))).1 (Node.s ndl)) in *.
    destruct (backup_after_expand h root leaf r ndl
                (Node.mk (Node.n ndl) (m (board (Node.s ndl))).2
                   (Node.q ndl) (Node.p ndl) (Node.parent ndl) (Node.a ndl)
                   (Node.s ndl) (Node.to_play ndl)
                   (Node.children ndl ++ seq (length h) (length legal)))
                anc (map (child_of turn env leaf ndl) legal)
                Hwf Hr Hndl Hchain Hroot)
      as (h' & r' & Hrun & Hwf' & Hr' & Hn'); try reflexivity.
    { simpl. rewrite length_map. reflexivity. }
    { intros c Hc. apply list_elem_of_fmap in Hc as (ap & -> & _). split; reflexivity. }
    exists h', r', (Nat.max k (length anc)). split; [|auto].
    intros fuel Hfuel. unfold simulate.
    rewrite Hsel by lia. rewrite bind_Ok, Hexp, bind_Ok. apply Hrun. lia.
Qed.

(** Any number of simulations on a well-formed tree return, and the root
    ends with that many visits more. *)
Lemma simulations_total (num : nat) :
  forall h (root : nat) (r : Node.t State),
    wf h root ->
    h !! root = Some r ->
    exists (h' : heap State) (r' : Node.t State) (k : nat),
      (forall fuel : nat, (k <= fuel)%nat ->
         simulations board turn env m fuel root num h = Ok h')
      /\ wf h' root
      /\ h' !! root = Some r'
      /\ Node.n r' = (Node.n r + num)%nat.
Proof.
  induction num as [|num IH]; intros h root r Hwf Hr.
  - exists h, r, 0%nat. split; [reflexivity|]. split; [exact Hwf|].
    split; [exact Hr | lia].
  - destruct (simulate_total h root r Hwf Hr) as (h1 & r1 & k1 & Hrun1 & Hwf1 & Hr1 & Hn1).
    destruct (IH h1 root r1 Hwf1 Hr1) as (h' & r' & k2 & Hrun2 & Hwf' & Hr' & Hn').
    exists h', r', (Nat.max k1 k2). split; [|split; [exact Hwf'|split; [exact Hr'|lia]]].
    intros fuel Hfuel.
    pose proof (Hrun1 fuel ltac:(lia)) as Hsim. unfold simulate in Hsim.
    simpl.
    destruct (select fuel h root) as [leaf| | |]; try discriminate.
    rewrite bind_Ok in Hsim |- *.
    destruct (expand_and_evaluate board turn env m h leaf) as [h2| | |]; try discriminate.
    rewrite bind_Ok in Hsim |- *. rewrite Hsim, bind_Ok. apply Hrun2. lia.
Qed.

End Total.

(** ** The search driver *)

Section Driver.

Context {State Board : Type}.
Variable board : State -> Board.
Variable turn : State -> State.
Variable env : Env State.
Variable m : Board -> list R * R.

Lemma loop_simulations (fuel root : nat) (k : nat) :
  forall (j : nat) (h : heap State),
    res_foldM (fun h _ => simulate board turn env m fuel root h) (seq j k) h
    = simulations board turn env m fuel root k h.
Proof.
  induction k as [|k IH]; intros j h; [reflexivity|].
  simpl. rewrite (bind_ext _ (simulations board turn env m fuel root k))
    by (intros h'; apply IH).
  unfold simulate. rewrite bind_assoc.
  apply bind_ext. intros leaf. apply bind_assoc.
Qed.

Lemma search_refines (fuel : nat) (h : heap State) (root : nat)
    (num_simulations : Z) (temperature : R) :
  search board turn env m fuel h root num_simulations temperature
  = search_spec board turn env m fuel h root num_simulations temperature.
Proof. unfold search, search_spec, py_range. rewrite loop_simulations. reflexivity. Qed.

(** C8.  [search] runs [num_simulations] simulations (none when the number
    is not positive), each one [select], [expand_and_evaluate] on the leaf
    returned, [backup] from that leaf, in this order; nothing stops the loop
    early but an exception, nothing is tried again, and the result is the
    policy of the root on the tree as the simulations leave it; the defaults
    are 800 simulations and temperature 1.  On a well-formed tree every one
    of the simulations returns (given fuel for the loops of [select] and
    [backup]) and the root ends with exactly [num_simulations] visits
    more. *)
Theorem search_runs_budget (h : heap State) (root : nat) (num_simulations : Z)
    (temperature : R) :
  (forall fuel : nat,
     search board turn env m fuel h root num_simulations temperature
     = search_spec board turn env m fuel h root num_simulations temperature
     /\ search_default board turn env m fuel h root
        = search_spec board turn env m fuel h root 800 1)
  /\ (forall r : Node.t State,
        wf h root ->
        h !! root = Some r ->
        exists (h' : heap State) (r' : Node.t State) (k : nat),
          (forall fuel : nat, (k <= fuel)%nat ->
             simulations board turn env m fuel root (Z.to_nat num_simulations) h = Ok h'
             /\ search board turn env m fuel h root num_simulations temperature
                = (policy ← get_policy h' root temperature (action_space_size env);
                   Ok (h', policy)))
          /\ wf h' root
          /\ h' !! root = Some r'
          /\ Node.n r' = (Node.n r + Z.to_nat num_simulations)%nat).
Proof.
  split.
  - intros fuel. split; [apply search_refines|].
    unfold search_default. apply search_refines.
  - intros r Hwf Hr.
    destruct (simulations_total board turn env m (Z.to_nat num_simulations) h root r Hwf Hr)
      as (h' & r' & k & Hrun & Hwf' & Hr' & Hn').
    exists h', r', k. split; [|auto].
    intros fuel Hfuel. split; [exact (Hrun fuel Hfuel)|].
    rewrite search_refines. unfold search_spec.
    rewrite (Hrun fuel Hfuel), bind_Ok. reflexivity.
Qed.

End Driver.

(** Two simulations from the root of the one-ply game. *)
Lemma search_runs_budget_witness :
  exists (h' : heap (option nat)) (r' : Node.t (option nat)) (k : nat),
    (forall fuel : nat, (k <= fuel)%nat ->
       simulations Examples.board Examples.turn Examples.one_ply Examples.uniform
         fuel 0 2 Examples.one_ply_root = Ok h'
       /\ search Examples.board Examples.turn Examples.one_ply Examples.uniform
            fuel Examples.one_ply_root 0 2 1
          = (policy ← get_policy h' 0 1 2; Ok (h', policy)))
    /\ wf h' 0
    /\ h' !! 0%nat = Some r'
    /\ Node.n r' = 2%nat.
Proof.
  apply (proj2 (search_runs_budget Examples.board Examples.turn Examples.one_ply
                  Examples.uniform Examples.one_ply_root 0 2 1)
           (Node.init None None None 0 0)).
  - split.
    + exists (Node.init None None None 0 0). split; reflexivity.
    + apply (tree_node Examples.one_ply_root 0%nat (Node.init None None None 0 0));
        [reflexivity|].
      intros c Hc. by apply not_elem_of_nil in Hc.
    + intros [|x] c nd Hnd Hc; simpl in Hnd; [|discriminate].
      injection Hnd as <-. by apply not_elem_of_nil in Hc.
  - reflexivity.
Defined.

(** * Further properties of the module *)

(** ** Edge cases of the selection of a child *)

(** X1.  [get_best_child_to_explore] returns one of the children of the
    node; it raises only on a node without children, and then
    [ValueError], the error of [max] on an empty sequence. *)
Theorem explore_child_or_raises {State : Type} (h : heap State) (self : nat)
    (nd : Node.t State) (cs : list (Node.t State)) (c_puct : R) :
  h !! self = Some nd ->
  objects h (Node.children nd) cs ->
  (Node.children nd = [] ->
   get_best_child_to_explore h self c_puct = Raise ValueError)
  /\ (Node.children nd <> [] ->
      exists best : nat,
        get_best_child_to_explore h self c_puct = Ok best
        /\ best ∈ Node.children nd).
Proof.
  intros Hnd Hobj. split.
  - intros Hch. unfold get_best_child_to_explore.
    run_deref Hnd. rewrite Hch. reflexivity.
  - intros Hne.
    destruct (explore_first_maximal h self nd cs c_puct Hnd Hne Hobj)
      as (i & best & _ & Hrun & Hi & _).
    exists best. split; [exact Hrun|]. eapply list_elem_of_lookup_2, Hi.
Qed.

Lemma explore_child_or_raises_witness :
  (Node.children (Node.init (State := option nat) None None None 0 0) = [] ->
   get_best_child_to_explore Examples.one_ply_root 0 1 = Raise ValueError)
  /\ (Node.children (Node.init (State := option nat) None None None 0 0) <> [] ->
      exists best : nat,
        get_best_child_to_explore Examples.one_ply_root 0 1 = Ok best
        /\ best ∈ Node.children (Node.init (State := option nat) None None None 0 0)).
Proof.
  apply (explore_child_or_raises Examples.one_ply_root 0
           (Node.init None None None 0 0) [] 1).
  - reflexivity.
  - constructor.
Defined.

Lemma puct_score_unvisited {State : Type} (x : Node.t State) (c_puct : R) :
  puct_score x 0 c_puct = - Node.q x.
Proof. unfold puct_score. simpl. rewrite sqrt_0. unfold Rdiv. ring. Qed.

(** X2.  While no child has a visit, the sum under the square root is 0
    and the bonus vanishes: [get_best_child_to_explore] returns the first
    child of the least [q], whatever the priors and [c_puct]. *)
Theorem explore_unvisited_ignores_priors {State : Type} (h : heap State) (self : nat)
    (nd : Node.t State) (cs : list (Node.t State)) (c_puct : R) :
  h !! self = Some nd ->
  Node.children nd <> [] ->
  objects h (Node.children nd) cs ->
  visit_sum cs = 0%nat ->
  exists (i best : nat) (best_nd : Node.t State),
    get_best_child_to_explore h self c_puct = Ok best
    /\ Node.children nd !! i = Some best
    /\ cs !! i = Some best_nd
    /\ (forall (j : nat) (x : Node.t State), cs !! j = Some x ->
          Node.q best_nd <= Node.q x)
    /\ (forall (j : nat) (x : Node.t State), (j < i)%nat -> cs !! j = Some x ->
          Node.q best_nd < Node.q x).
Proof.
  intros Hnd Hne Hobj Hsum.
  destruct (explore_first_maximal h self nd cs c_puct Hnd Hne Hobj)
    as (i & best & best_nd & Hrun & Hi & Hbest & Hmax & Hfirst).
  rewrite Hsum in Hmax, Hfirst.
  exists i, best, best_nd. split; [exact Hrun|]. split; [exact Hi|].
  split; [exact Hbest|]. split.
  - intros j x Hx. pose proof (Hmax j x Hx) as Hle.
    rewrite !puct_score_unvisited in Hle. lra.
  - intros j x Hji Hx. pose proof (Hfirst j x Hji Hx) as Hlt.
    rewrite !puct_score_unvisited in Hlt. lra.
Qed.

Lemma explore_unvisited_ignores_priors_witness :
  exists (i best : nat) (best_nd : Node.t (option nat)),
    get_best_child_to_explore Examples.one_ply_tree 0 1 = Ok best
    /\ [1; 2]%nat !! i = Some best
    /\ drop 1 Examples.one_ply_tree !! i = Some best_nd
    /\ (forall (j : nat) (x : Node.t (option nat)),
          drop 1 Examples.one_ply_tree !! j = Some x -> Node.q best_nd <= Node.q x)
    /\ (forall (j : nat) (x : Node.t (option nat)), (j < i)%nat ->
          drop 1 Examples.one_ply_tree !! j = Some x -> Node.q best_nd < Node.q x).
Proof.
  apply (explore_unvisited_ignores_priors Examples.one_ply_tree 0
           (Node.mk 0 0 0 0 None None None 0 [1; 2]%nat)
           (drop 1 Examples.one_ply_tree) 1).
  - reflexivity.
  - discriminate.
  - repeat constructor.
  - reflexivity.
Defined.

(** ** Temperatures and visit counts that make the sampling raise *)

Section Raising.

Context {State : Type}.
Implicit Types (h : heap State) (nd c : Node.t State) (cs : list (Node.t State)).

(** A power of a visited count with a negative exponent is at most 1. *)
Lemma Rpower_negative (b : nat) (e : R) : e < 0 -> Rpower (INR (S b)) e <= 1.
Proof.
  intros He. unfold Rpower. rewrite <- exp_0.
  assert (Hln : 0 <= ln (INR (S b))).
  { assert (H1 : 1 <= INR (S b)) by (change 1 with (INR 1); apply le_INR; lia).
    destruct (Req_dec_T (INR (S b)) 1) as [->|Hne]; [rewrite ln_1; lra|].
    rewrite <- ln_1. left. apply ln_increasing; lra. }
  destruct (Req_dec_T (e * ln (INR (S b))) 0) as [->|Hne]; [lra|].
  left. apply exp_increasing. nra.
Qed.

(** At a temperature that is not positive the power
    [child.n ** (1 / temperature)] returns or raises [ZeroDivisionError]; it
    raises at temperature 0 and, below 0, on an unvisited child, and never
    leaves the range of the doubles. *)
Lemma visit_weight_cases (temperature : R) c :
  temperature <= 0 ->
  (exists y : R, visit_weight temperature c = Ok y)
  \/ visit_weight temperature c = Raise ZeroDivisionError.
Proof.
  intros HT. unfold visit_weight, py_div, py_pow.
  destruct (Req_dec_T temperature 0); [right; reflexivity|]. simpl.
  assert (He : 1 / temperature < 0).
  { unfold Rdiv. rewrite Rmult_1_l. apply Rinv_lt_0_compat. lra. }
  destruct (Node.n c) as [|b].
  - destruct (Rlt_dec _ _); [right; reflexivity | lra].
  - pose proof (Rpower_negative b _ He). pose proof float_overflow_large.
    destruct (Rle_dec _ _); [lra|]. left. eauto.
Qed.

Lemma visit_weight_negative (temperature : R) c :
  temperature < 0 -> Node.n c = 0%nat ->
  visit_weight temperature c = Raise ZeroDivisionError.
Proof.
  intros HT Hn. unfold visit_weight. rewrite py_div_nonzero by lra.
  rewrite bind_Ok. unfold py_pow. rewrite Hn.
  destruct (Rlt_dec (1 / temperature) 0) as [_|Hge]; [reflexivity|].
  exfalso. apply Hge. unfold Rdiv. rewrite Rmult_1_l. apply Rinv_lt_0_compat, HT.
Qed.

(** Both [get_policy] and [get_best_child_to_play] start by the sum of the
    powers of the visit counts. *)
Lemma weights_raise (l : list nat) cs (temperature : R) :
  length l = length cs ->
  temperature <= 0 ->
  (exists c, c ∈ cs /\ visit_weight temperature c = Raise ZeroDivisionError) ->
  res_mapM (fun x : nat * Node.t State => visit_weight temperature x.2) (zip l cs)
  = Raise ZeroDivisionError.
Proof.
  intros Hlen HT (c & Hc & Hraise). apply res_mapM_raise.
  - intros x _. apply visit_weight_cases, HT.
  - apply list_elem_of_lookup in Hc as [i Hi].
    destruct (lookup_lt_is_Some_2 l i) as [k Hk].
    { rewrite Hlen. eapply lookup_lt_Some, Hi. }
    exists (k, c). split; [|exact Hraise].
    apply list_elem_of_lookup. exists i. rewrite lookup_zip_with, Hk, Hi. reflexivity.
Qed.

Lemma sampling_raises_early h (self : nat) nd cs (temperature u : R) (action_space : Z) :
  h !! self = Some nd ->
  objects h (Node.children nd) cs ->
  temperature <= 0 ->
  (exists c, c ∈ cs /\ visit_weight temperature c = Raise ZeroDivisionError) ->
  get_policy h self temperature action_space = Raise ZeroDivisionError
  /\ get_best_child_to_play h self temperature u = Raise ZeroDivisionError.
Proof.
  intros Hnd Hobj HT Hraise.
  pose proof (Forall2_length _ _ _ Hobj) as Hlen.
  unfold get_policy, get_best_child_to_play.
  split; run_deref Hnd; rewrite (deref_all_objects _ _ _ Hobj), bind_Ok;
    rewrite (weights_raise _ _ _ Hlen HT Hraise); reflexivity.
Qed.

(** With children, none of them visited, and a positive temperature, the
    total is 0 and the first division raises. *)
Lemma sampling_raises_unvisited h (self : nat) nd cs (temperature u : R)
    (action_space : Z) :
  h !! self = Some nd ->
  objects h (Node.children nd) cs ->
  cs <> [] ->
  visit_sum cs = 0%nat ->
  0 < temperature ->
  get_policy h self temperature action_space = Raise ZeroDivisionError
  /\ get_best_child_to_play h self temperature u = Raise ZeroDivisionError.
Proof.
  intros Hnd Hobj Hne Hsum HT.
  pose proof (Forall2_length _ _ _ Hobj) as Hlen.
  pose proof (powers_each temperature cs (powers_unvisited temperature cs Hsum))
    as Hfin.
  unfold get_policy, get_best_child_to_play.
  split; run_deref Hnd; rewrite (deref_all_objects _ _ _ Hobj), bind_Ok;
    rewrite (weights_total _ _ _ Hlen HT Hfin), bind_Ok, py_sum_Rsum;
    rewrite (total_unvisited _ _ Hsum);
    (destruct Hobj as [|k c l cs' _ _]; [congruence|]);
    simpl; rewrite visit_weight_positive by (try exact HT; apply Hfin; left);
    rewrite bind_Ok, py_div_zero; reflexivity.
Qed.

Lemma unvisited_child cs : cs <> [] -> visit_sum cs = 0%nat -> exists c, c ∈ cs /\ Node.n c = 0%nat.
Proof.
  destruct cs as [|c cs]; [congruence|]. intros _ Hsum.
  exists c. split; [left|]. unfold visit_sum in Hsum. simpl in Hsum. lia.
Qed.

(** With children, none of them visited, the policy and the sampling raise
    [ZeroDivisionError] whatever the temperature: [0.0 / 0.0] above 0,
    [1 / 0] at 0 and [0 ** negative] below. *)
Lemma sampling_raises_unvisited_any h (self : nat) nd cs (temperature u : R)
    (action_space : Z) :
  h !! self = Some nd ->
  objects h (Node.children nd) cs ->
  cs <> [] ->
  visit_sum cs = 0%nat ->
  get_policy h self temperature action_space = Raise ZeroDivisionError
  /\ get_best_child_to_play h self temperature u = Raise ZeroDivisionError.
Proof.
  intros Hnd Hobj Hne Hsum.
  destruct (unvisited_child cs Hne Hsum) as (c & Hc & Hn).
  destruct (Rtotal_order temperature 0) as [Hneg|[->|Hpos]].
  - apply (sampling_raises_early h self nd cs); [assumption | assumption | lra |].
    exists c. split; [exact Hc|]. apply visit_weight_negative; assumption.
  - apply (sampling_raises_early h self nd cs); [assumption | assumption | lra |].
    exists c. split; [exact Hc|]. apply visit_weight_zero.
  - apply (sampling_raises_unvisited h self nd cs); assumption.
Qed.



End Raising.



(** ** Sampling of the move to play *)

Lemma Rsum_app (l1 l2 : list R) : Rsum (l1 ++ l2) = Rsum l1 + Rsum l2.
Proof. induction l1 as [|x l1 IH]; simpl; [lra|]. rewrite IH. lra. Qed.

Lemma accumulate_from_lookup (l : list R) :
  forall (acc : R) (i : nat),
    (i < length l)%nat ->
    py_accumulate_from acc l !! i = Some (acc + Rsum (take (S i) l)).
Proof.
  induction l as [|x l IH]; intros acc i Hi; simpl in Hi; [lia|].
  destruct i as [|i]; simpl.
  - f_equal. destruct l; simpl; lra.
  - rewrite IH by lia. f_equal. simpl. lra.
Qed.

Lemma accumulate_lookup (l : list R) (i : nat) :
  (i < length l)%nat -> py_accumulate l !! i = Some (Rsum (take (S i) l)).
Proof.
  destruct l as [|x l]; simpl; intros Hi; [lia|].
  destruct i as [|i]; simpl.
  - f_equal. destruct l; simpl; lra.
  - rewrite accumulate_from_lookup by lia. reflexivity.
Qed.

Lemma accumulate_from_length (l : list R) (acc : R) :
  length (py_accumulate_from acc l) = length l.
Proof. revert acc. induction l as [|x l IH]; intros acc; simpl; [|rewrite IH]; reflexivity. Qed.

Lemma accumulate_length (l : list R) : length (py_accumulate l) = length l.
Proof. destruct l; simpl; [|rewrite accumulate_from_length]; reflexivity. Qed.

Lemma accumulate_last (l : list R) : l <> [] -> last (py_accumulate l) = Some (Rsum l).
Proof.
  intros Hne. rewrite last_lookup, accumulate_length.
  assert (Hlen : (0 < length l)%nat) by (destruct l; [congruence | simpl; lia]).
  rewrite accumulate_lookup by lia.
  replace (S (Nat.pred (length l))) with (length l) by lia.
  rewrite firstn_all. reflexivity.
Qed.

(** [bisect] stops at the first item greater than [x], or at [hi]. *)
Lemma bisect_spec (x : R) (hi : nat) :
  forall cum : list R,
    (py_bisect cum x hi <= hi)%nat
    /\ (forall (j : nat) (c : R), (j < py_bisect cum x hi)%nat ->
          cum !! j = Some c -> c <= x)
    /\ ((py_bisect cum x hi < hi)%nat ->
        forall c : R, cum !! py_bisect cum x hi = Some c -> x < c).
Proof.
  induction hi as [|hi IH]; intros cum.
  - destruct cum; simpl; (split; [lia|]); split; intros; lia.
  - destruct cum as [|c0 cum]; simpl.
    + split; [lia|]. split; [intros; lia|]. intros _ c Hc. discriminate.
    + destruct (Rlt_dec x c0) as [Hlt|Hge].
      * split; [lia|]. split; [intros; lia|]. intros _ c Hc.
        simpl in Hc. injection Hc as <-. exact Hlt.
      * destruct (IH cum) as (Hle & Hbelow & Hat).
        split; [lia|]. split.
        -- intros [|j] c Hj Hc; simpl in Hc.
           ++ injection Hc as <-. lra.
           ++ apply (Hbelow j c); [lia | exact Hc].
        -- intros Hlt c Hc. simpl in Hc. apply Hat; [lia | exact Hc].
Qed.

(** [random.choices] with weights that add up to a positive total: the
    item drawn is the one in whose stretch of the running sums the scaled
    draw falls. *)
Lemma choices_spec {A : Type} (u : R) (population : list A) (weights : list R) :
  length population = length weights ->
  weights <> [] ->
  0 < Rsum weights ->
  0 <= u < 1 ->
  exists (i : nat) (x : A),
    py_choices u population weights = Ok x
    /\ population !! i = Some x
    /\ Rsum (take i weights) <= u * Rsum weights < Rsum (take (S i) weights).
Proof.
  intros Hlen Hne Hpos Hu. unfold py_choices.
  rewrite accumulate_length, Hlen, Nat.eqb_refl. simpl.
  rewrite (accumulate_last _ Hne).
  destruct (Rle_dec (Rsum weights) 0) as [Hle|_]; [lra|].
  assert (Hn : (0 < length weights)%nat).
  { destruct weights; [congruence | simpl; lia]. }
  set (x := u * Rsum weights).
  assert (Hx : 0 <= x < Rsum weights).
  { unfold x. split; [apply Rmult_le_pos; lra|].
    rewrite <- (Rmult_1_l (Rsum weights)) at 2. apply Rmult_lt_compat_r; lra. }
  destruct (bisect_spec x (length weights - 1) (py_accumulate weights))
    as (Hle & Hbelow & Hat).
  set (i := py_bisect (py_accumulate weights) x (length weights - 1)) in *.
  destruct (lookup_lt_is_Some_2 population i) as [y Hy]; [lia|].
  rewrite Hy. exists i, y. split; [reflexivity|]. split; [exact Hy|]. split.
  - destruct i as [|i]; [rewrite take_0; simpl; lra|].
    apply (Hbelow i); [lia|]. apply accumulate_lookup. lia.
  - destruct (decide (i < length weights - 1)%nat) as [Hlt|Hge].
    + apply (Hat Hlt). apply accumulate_lookup. lia.
    + replace (S i) with (length weights) by lia. rewrite firstn_all. lra.
Qed.

Section Sampling.

Context {State : Type}.
Implicit Types (h : heap State) (nd : Node.t State) (cs : list (Node.t State)).

Lemma shares_total cs (temperature : R) :
  visit_sum cs <> 0%nat -> Rsum (shares cs temperature) = 1.
Proof.
  intros Hsum. pose proof (total_visited temperature cs Hsum) as Hpos.
  unfold shares.
  change (fun c : Node.t State =>
            visit_power temperature c / Rsum (map (visit_power temperature) cs))
    with ((fun x : R => x / Rsum (map (visit_power temperature) cs))
          ∘ @visit_power State temperature).
  rewrite (list_fmap_compose (@visit_power State temperature)).
  rewrite Rsum_div. unfold Rdiv. apply Rinv_r. lra.
Qed.

Lemma scores_shares (l : list nat) cs (temperature : R) :
  length l = length cs ->
  0 < temperature ->
  (forall c, c ∈ cs -> visit_power temperature c < float_overflow) ->
  visit_sum cs <> 0%nat ->
  res_mapM (fun x : nat * Node.t State =>
              w ← visit_weight temperature x.2;
              py_div w (Rsum (map (visit_power temperature) cs)))
    (zip l cs)
  = Ok (shares cs temperature).
Proof.
  intros Hlen HT Hfin Hsum. pose proof (total_visited temperature cs Hsum) as Hpos.
  rewrite (res_mapM_total _
             (fun x : nat * Node.t State =>
                visit_power temperature x.2 / Rsum (map (visit_power temperature) cs))).
  - f_equal. unfold shares.
    change (fun x : nat * Node.t State =>
              visit_power temperature x.2 / Rsum (map (visit_power temperature) cs))
      with ((fun c : Node.t State =>
               visit_power temperature c / Rsum (map (visit_power temperature) cs))
            ∘ (@snd nat (Node.t State))).
    rewrite (list_fmap_compose snd). f_equal. apply snd_zip. lia.
  - intros x Hx.
    rewrite visit_weight_positive
      by (try exact HT; apply Hfin; destruct x; eapply elem_of_zip_r, Hx).
    rewrite bind_Ok. apply py_div_nonzero. lra.
Qed.

(** The child that [get_best_child_to_play] draws. *)
Lemma sample_spec h (self : nat) nd cs (temperature u : R) :
  h !! self = Some nd ->
  objects h (Node.children nd) cs ->
  0 < temperature ->
  visit_sum cs <> 0%nat ->
  powers_in_range temperature cs ->
  0 <= u < 1 ->
  exists (i child : nat) (cnd : Node.t State),
    get_best_child_to_play h self temperature u = Ok child
    /\ Node.children nd !! i = Some child
    /\ cs !! i = Some cnd
    /\ h !! child = Some cnd
    /\ Rsum (take i (shares cs temperature)) <= u
       < Rsum (take (S i) (shares cs temperature))
    /\ Node.n cnd <> 0%nat.
Proof.
  intros Hnd Hobj HT Hsum Hrange Hu.
  pose proof (Forall2_length _ _ _ Hobj) as Hlen.
  pose proof (total_visited temperature cs Hsum) as Hpos.
  pose proof (powers_each temperature cs Hrange) as Hfin.
  assert (Hne : cs <> []) by (intros ->; apply Hsum; reflexivity).
  unfold get_best_child_to_play. run_deref Hnd.
  rewrite (deref_all_objects _ _ _ Hobj), bind_Ok.
  rewrite (weights_total _ _ _ Hlen HT Hfin), bind_Ok, py_sum_Rsum.
  rewrite (scores_shares _ _ _ Hlen HT Hfin Hsum), bind_Ok.
  destruct (choices_spec u (Node.children nd) (shares cs temperature))
    as (i & child & Hrun & Hchild & Hint).
  - unfold shares. rewrite length_map. exact Hlen.
  - unfold shares. destruct cs; [congruence | discriminate].
  - rewrite (shares_total _ _ Hsum). lra.
  - exact Hu.
  - rewrite (shares_total _ _ Hsum), Rmult_1_r in Hint.
    destruct (lookup_lt_is_Some_2 cs i) as [cnd Hcnd].
    { rewrite <- Hlen. eapply lookup_lt_Some, Hchild. }
    exists i, child, cnd. split; [exact Hrun|]. split; [exact Hchild|].
    split; [exact Hcnd|]. split; [|split; [exact Hint|]].
    + unfold objects in Hobj. rewrite Forall2_lookup in Hobj.
      specialize (Hobj i). rewrite Hchild, Hcnd in Hobj.
      inversion Hobj; subst. assumption.
    + intros Hn.
      assert (Hshare : shares cs temperature !! i
                       = Some (visit_power temperature cnd
                               / Rsum (map (visit_power temperature) cs))).
      { unfold shares. rewrite list_lookup_fmap, Hcnd. reflexivity. }
      rewrite (take_S_r _ _ _ Hshare), Rsum_app in Hint.
      rewrite (visit_power_unvisited _ _ Hn) in Hint. simpl in Hint.
      unfold Rdiv in Hint. rewrite Rmult_0_l in Hint. lra.
Qed.



End Sampling.



(** ** The policy at temperature 1 *)

Section PolicyOne.

Context {State : Type}.
Implicit Types (h : heap State) (nd : Node.t State) (cs : list (Node.t State)).

(** At a positive temperature, with a visited child, [get_policy]
    returns. *)
Lemma get_policy_runs h (self : nat) nd cs (temperature : R) (action_space : Z) :
  h !! self = Some nd ->
  objects h (Node.children nd) cs ->
  0 < temperature ->
  visit_sum cs <> 0%nat ->
  powers_in_range temperature cs ->
  get_policy h self temperature action_space
  = Ok (policy_spec cs temperature action_space).
Proof.
  intros Hnd Hobj HT Hsum Hrange.
  pose proof (Forall2_length _ _ _ Hobj) as Hlen.
  pose proof (total_visited temperature cs Hsum) as Hpos.
  pose proof (powers_each temperature cs Hrange) as Hfin.
  unfold get_policy. run_deref Hnd.
  rewrite (deref_all_objects _ _ _ Hobj), bind_Ok.
  rewrite (weights_total _ _ _ Hlen HT Hfin), bind_Ok, py_sum_Rsum.
  rewrite (res_mapM_total _
             (fun x : nat * Node.t State =>
                (Node.a x.2,
                 visit_power temperature x.2
                 / Rsum (map (visit_power temperature) cs)))).
  2:{ intros x Hx.
      rewrite visit_weight_positive
        by (try exact HT; apply Hfin; destruct x; eapply elem_of_zip_r, Hx).
      rewrite bind_Ok. rewrite py_div_nonzero by lra. reflexivity. }
  rewrite bind_Ok. f_equal. unfold policy_spec. apply map_ext. intros a.
  rewrite py_dict_lookup.
  change (fun x : nat * Node.t State =>
            (Node.a x.2,
             visit_power temperature x.2 / Rsum (map (visit_power temperature) cs)))
    with ((fun c : Node.t State =>
             (Node.a c,
              visit_power temperature c / Rsum (map (visit_power temperature) cs)))
          ∘ (@snd nat (Node.t State))).
  rewrite (list_fmap_compose snd), snd_zip by lia.
  rewrite filter_fmap_list, fmap_last. simpl.
  unfold policy_entry.
  destruct (last (filter _ cs)); reflexivity.
Qed.

(** X7.  At temperature 1, on a node with a visited child, the entry of
    the policy for an action is the visit count of the child of that action
    divided by the sum of the visit counts of the children, and 0 for an
    action without child.  This for visit counts whose sum is in the range
    of the doubles, below [2^1024], as counts reached by counting are; a
    count beyond that range makes [n ** 1.0] raise [OverflowError]. *)
Theorem policy_temperature_one h (self : nat) nd cs (action_space : Z) :
  h !! self = Some nd ->
  objects h (Node.children nd) cs ->
  visit_sum cs <> 0%nat ->
  (INR (visit_sum cs) < float_overflow ->
   get_policy h self 1 action_space
   = Ok (map (fun a : nat =>
                match last (filter (fun c => Node.a c = Some a) cs) with
                | Some c => INR (Node.n c) / INR (visit_sum cs)
                | None => 0
                end) (py_range action_space)))
  /\ ((exists c, c ∈ cs /\ float_overflow <= INR (Node.n c)) ->
      get_policy h self 1 action_space = Raise OverflowError).
Proof.
  intros Hnd Hobj Hsum. split.
  - intros Hrange.
    rewrite (get_policy_runs h self nd cs 1 action_space Hnd Hobj ltac:(lra) Hsum
               (counts_in_range cs Hrange)).
    f_equal. unfold policy_spec. apply map_ext. intros a.
    unfold policy_entry. rewrite total_one.
    destruct (last (filter _ cs)) as [c|]; [|reflexivity].
    rewrite visit_power_one. reflexivity.
  - intros (c & Hc & Hover). pose proof (Forall2_length _ _ _ Hobj) as Hlen.
    unfold get_policy. run_deref Hnd.
    rewrite (deref_all_objects _ _ _ Hobj), bind_Ok.
    assert (HT : 0 < 1) by lra.
    rewrite (weights_overflow _ _ 1 Hlen HT); [reflexivity|].
    exists c. split; [exact Hc|]. rewrite visit_power_one. exact Hover.
Qed.

End PolicyOne.

Lemma policy_temperature_one_witness :
  get_policy Examples.tie_tree 0 1 2
  = Ok (map (fun a : nat =>
               match last (filter (fun c : Node.t unit => Node.a c = Some a)
                             (drop 1 Examples.tie_tree)) with
               | Some c => INR (Node.n c) / INR (visit_sum (drop 1 Examples.tie_tree))
               | None => 0
               end) (py_range 2)).
Proof.
  apply (policy_temperature_one Examples.tie_tree 0
           (Node.mk 6 0 0 0 None None tt 0 [1; 2]%nat)
           (drop 1 Examples.tie_tree) 2).
  - reflexivity.
  - repeat constructor.
  - simpl. discriminate.
  - simpl. pose proof float_overflow_large. lra.
Defined.

(** ** Where [select] ends *)

(** X8.  In a well-formed tree the leaf that [select] returns from the
    root is the root or below it: the parents of the leaf lead to the
    root. *)
Theorem select_returns_descendant {State : Type} (h : heap State) (root : nat) :
  wf h root ->
  exists (leaf : nat) (path : list nat) (k : nat),
    (forall fuel : nat, (k <= fuel)%nat -> select fuel h root = Ok leaf)
    /\ chain h (Some leaf) path
    /\ head path = Some leaf
    /\ last path = Some root.
Proof.
  intros [(r & Hr & Hnone) Htree Hpar].
  destruct (select_descends h root Htree)
    as (leaf & ndl & k & Hsel & _ & _ & Hdesc & _).
  destruct (descent_chain h root leaf Hpar Hdesc []) as (pre & Hpre & Hhead).
  { econstructor; [exact Hr|]. rewrite Hnone. constructor. }
  exists leaf, (pre ++ [root]), k. split; [exact Hsel|]. split; [exact Hpre|].
  split; [exact Hhead | apply last_snoc].
Qed.

Lemma select_returns_descendant_witness :
  exists (leaf : nat) (path : list nat) (k : nat),
    (forall fuel : nat, (k <= fuel)%nat ->
       select fuel Examples.one_ply_tree 0 = Ok leaf)
    /\ chain Examples.one_ply_tree (Some leaf) path
    /\ head path = Some leaf
    /\ last path = Some 0%nat.
Proof.
  apply (select_returns_descendant Examples.one_ply_tree 0).
  split.
  - eexists. split; reflexivity.
  - eapply tree_node; [reflexivity|]. simpl. intros c Hc.
    apply list_elem_of_In in Hc. simpl in Hc.
    destruct Hc as [<-|[<-|[]]]; (eapply tree_node; [reflexivity|]);
      simpl; intros c' Hc'; apply list_elem_of_In in Hc'; destruct Hc'.
  - intros x c nd Hnd Hc.
    destruct x as [|[|[|x]]]; simpl in Hnd; try discriminate;
      injection Hnd as <-; simpl in Hc; apply list_elem_of_In in Hc; simpl in Hc;
      try contradiction.
    destruct Hc as [<-|[<-|[]]]; eexists; split; reflexivity.
Defined.

(** ** The sign of the value along the path of [backup] *)

Section Alternation.

Context {State : Type}.
Implicit Types (h : heap State) (nd : Node.t State).

Lemma chain_objects h (o : option nat) (l : list nat) (x : nat) :
  chain h o l -> x ∈ l -> is_Some (h !! x).
Proof.
  induction 1 as [|y ndy l Hy _ IH]; intros Hx.
  - by apply not_elem_of_nil in Hx.
  - apply elem_of_cons in Hx as [->|Hx]; [eauto | exact (IH Hx)].
Qed.

Lemma mod_two_bit (z : Z) : ((z + 1) mod 2 = 0 \/ (z + 1) mod 2 = 1)%Z.
Proof. pose proof (Z.mod_pos_bound (z + 1) 2 ltac:(lia)). lia. Qed.

(** Along an alternating path every [to_play] is 0 or 1, once that of the
    last node is. *)
Lemma path_bits h (path : list nat) (o : option nat) :
  chain h o path ->
  alternates h path ->
  (forall (r : nat) (ndr : Node.t State), last path = Some r -> h !! r = Some ndr ->
     Node.to_play ndr = 0%Z \/ Node.to_play ndr = 1%Z) ->
  forall (j y : nat) (ndy : Node.t State),
    path !! j = Some y -> h !! y = Some ndy ->
    Node.to_play ndy = 0%Z \/ Node.to_play ndy = 1%Z.
Proof.
  intros Hchain Halt Hlast j y ndy Hj Hy.
  destruct (path !! S j) as [p|] eqn:Hp.
  - destruct (chain_objects h o path p Hchain) as [ndp Hndp].
    { eapply list_elem_of_lookup_2, Hp. }
    rewrite (Halt j y p ndy ndp Hj Hp Hy Hndp). apply mod_two_bit.
  - apply (Hlast y ndy); [|exact Hy].
    rewrite last_lookup. apply lookup_ge_None in Hp.
    pose proof (lookup_lt_Some _ _ _ Hj).
    replace (Nat.pred (length path)) with j by lia. exact Hj.
Qed.

(** The [to_play] at an even distance is that of the first node of the
    path, and the other one at an odd distance. *)
Lemma path_parity h (path : list nat) (o : option nat) (x0 : nat) (nd0 : Node.t State) :
  chain h o path ->
  alternates h path ->
  (forall (r : nat) (ndr : Node.t State), last path = Some r -> h !! r = Some ndr ->
     Node.to_play ndr = 0%Z \/ Node.to_play ndr = 1%Z) ->
  path !! 0%nat = Some x0 -> h !! x0 = Some nd0 ->
  forall (j y : nat) (ndy : Node.t State),
    path !! j = Some y -> h !! y = Some ndy ->
    Node.to_play ndy
    = if Nat.even j then Node.to_play nd0 else (1 - Node.to_play nd0)%Z.
Proof.
  intros Hchain Halt Hlast H0 Hnd0.
  induction j as [|j IH]; intros y ndy Hj Hy.
  - simpl. congruence.
  - destruct (lookup_lt_is_Some_2 path j) as [c Hc].
    { pose proof (lookup_lt_Some _ _ _ Hj). lia. }
    destruct (chain_objects h o path c Hchain) as [ndc Hndc].
    { eapply list_elem_of_lookup_2, Hc. }
    pose proof (IH c ndc Hc Hndc) as Hpar.
    pose proof (Halt j c y ndc ndy Hc Hj Hndc Hy) as Hstep.
    pose proof (path_bits h path o Hchain Halt Hlast (S j) y ndy Hj Hy) as Hbit.
    pose proof (path_bits h path o Hchain Halt Hlast 0%nat x0 nd0 H0 Hnd0) as Hbit0.
    rewrite Nat.even_succ, <- Nat.negb_even.
    destruct (Nat.even j); simpl;
      rewrite Hpar in Hstep;
      destruct Hbit as [Hb|Hb], Hbit0 as [Hb0|Hb0];
      rewrite Hb in Hstep |- *; rewrite Hb0 in Hstep |- *;
      first [reflexivity | exfalso; revert Hstep; vm_compute; discriminate].
Qed.

(** X9.  In a tree where [to_play] alternates between 0 and 1 from parent
    to child, [backup] subtracts the value of the leaf from the [w] of the
    parent, adds it to the [w] of the grandparent, and so on in turn up to
    the root; every ancestor gets one visit more. *)
Theorem backup_alternating_signs h (leaf : nat) nd (anc : list nat) (fuel : nat) :
  h !! leaf = Some nd ->
  chain h (Node.parent nd) anc ->
  (length anc <= fuel)%nat ->
  alternates h (leaf :: anc) ->
  (forall (r : nat) (ndr : Node.t State),
     last (leaf :: anc) = Some r -> h !! r = Some ndr ->
     Node.to_play ndr = 0%Z \/ Node.to_play ndr = 1%Z) ->
  exists h' : heap State,
    backup fuel h leaf = Ok h'
    /\ forall (i x : nat) (ndx : Node.t State),
         anc !! i = Some x -> h !! x = Some ndx ->
         exists ndx' : Node.t State,
           h' !! x = Some ndx'
           /\ Node.n ndx' = (Node.n ndx + 1)%nat
           /\ Node.w ndx' = Node.w ndx + (if Nat.even i then - Node.w nd else Node.w nd).
Proof.
  intros Hnd Hchain Hfuel Halt Hlast.
  destruct (backup_effect h leaf nd anc fuel Hnd Hchain Hfuel)
    as (h' & Hrun & _ & _ & Hanc & _).
  exists h'. split; [exact Hrun|]. intros i x ndx Hi Hx.
  eexists. split; [apply (Hanc x ndx); [eapply list_elem_of_lookup_2, Hi | exact Hx]|].
  split; [reflexivity|]. simpl.
  assert (Hpath : chain h (Some leaf) (leaf :: anc)) by (econstructor; eassumption).
  pose proof (path_parity h (leaf :: anc) (Some leaf) leaf nd Hpath Halt Hlast
                eq_refl Hnd (S i) x ndx Hi Hx) as Hpar.
  pose proof (path_bits h (leaf :: anc) (Some leaf) Hpath Halt Hlast 0%nat leaf nd
                eq_refl Hnd) as Hbit.
  rewrite Hpar, Nat.even_succ, <- Nat.negb_even.
  destruct (Nat.even i); simpl.
  - destruct Hbit as [-> | ->]; reflexivity.
  - rewrite Z.eqb_refl. reflexivity.
Qed.

End Alternation.

Lemma backup_alternating_signs_witness :
  exists h' : heap unit,
    backup 2 Examples.chain3 2 = Ok h'
    /\ forall (i x : nat) (ndx : Node.t unit),
         [1; 0]%nat !! i = Some x -> Examples.chain3 !! x = Some ndx ->
         exists ndx' : Node.t unit,
           h' !! x = Some ndx'
           /\ Node.n ndx' = (Node.n ndx + 1)%nat
           /\ Node.w ndx' = Node.w ndx + (if Nat.even i then - 1 else 1).
Proof.
  apply (backup_alternating_signs Examples.chain3 2
           (Node.mk 0 1 0 0 (Some 1%nat) (Some 0%nat) tt 0 [])
           [1; 0]%nat 2).
  - reflexivity.
  - simpl. eapply chain_up; [reflexivity|]. simpl.
    eapply chain_up; [reflexivity|]. simpl. apply chain_root.
  - simpl. lia.
  - intros i c p ndc ndp Hc Hp Hndc Hndp.
    destruct i as [|[|i]]; simpl in Hc, Hp; try discriminate;
      injection Hc as <-; injection Hp as <-;
      simpl in Hndc, Hndp; injection Hndc as <-; injection Hndp as <-; reflexivity.
  - intros r ndr Hr Hndr. simpl in Hr. injection Hr as <-.
    simpl in Hndr. injection Hndr as <-. left. reflexivity.
Defined.

(** ** The arena after one simulation *)

Section Linked.

Context {State : Type}.
Implicit Types (h : heap State) (nd : Node.t State).

Lemma linked_snoc h (l : list nat) (c p : nat) nd :
  linked h (l ++ [c]) ->
  h !! p = Some nd ->
  c ∈ Node.children nd ->
  linked h (l ++ [c; p]).
Proof.
  intros Hl Hp Hc. induction l as [|y l IH]; simpl in *.
  - econstructor; [exact Hp | exact Hc | constructor].
  - destruct l as [|z l]; simpl in *.
    + inversion Hl; subst. econstructor; [eassumption..|].
      apply IH. constructor.
    + inversion Hl; subst. econstructor; [eassumption..|].
      apply IH. assumption.
Qed.

(** The path of a descent, read upwards, is linked, and the parents of
    its lower end run along it. *)
Lemma descent_path h (x leaf : nat) :
  (forall (y c : nat) nd, h !! y = Some nd -> c ∈ Node.children nd ->
     exists ndc, h !! c = Some ndc /\ Node.parent ndc = Some y) ->
  descent h x leaf ->
  forall ancx : list nat,
    chain h (Some x) (x :: ancx) ->
    exists pre : list nat,
      chain h (Some leaf) (pre ++ x :: ancx)
      /\ head (pre ++ [x]) = Some leaf
      /\ linked h (pre ++ [x]).
Proof.
  intros Hpar. induction 1 as [x nd Hnd Hch | x child leaf nd Hnd Hch Hbest _ IH];
    intros ancx Hchain.
  - exists []. split; [exact Hchain|]. split; [reflexivity | constructor].
  - destruct (explore_returns_child h x nd Hnd Hch) as (child' & Hbest' & Hin).
    { intros c Hc. destruct (Hpar x c nd Hnd Hc) as (ndc & Hndc & _). eauto. }
    assert (child' = child) as -> by congruence.
    destruct (Hpar x child nd Hnd Hin) as (ndc & Hndc & Hp).
    destruct (IH (x :: ancx)) as (pre & Hpre & Hhead & Hlinked).
    { econstructor; [exact Hndc|]. rewrite Hp. exact Hchain. }
    exists (pre ++ [child]). rewrite <- !app_assoc. split; [exact Hpre|]. split.
    + destruct pre as [|y pre]; simpl in *; exact Hhead.
    + simpl. eapply linked_snoc; eassumption.
Qed.

End Linked.

Section Effect.

Context {State Board : Type}.
Variable board : State -> Board.
Variable turn : State -> State.
Variable env : Env State.
Variable m : Board -> list R * R.
Implicit Types (h : heap State) (nd : Node.t State).

Lemma expand_closed h (leaf : nat) nd :
  h !! leaf = Some nd ->
  expand_and_evaluate board turn env m h leaf
  = Ok (<[leaf := expanded_leaf board env m h nd]> h
        ++ expanded_news board turn env m leaf nd).
Proof.
  intros Hnd. rewrite (expand_effect board turn env m h leaf nd Hnd).
  unfold expanded_leaf, expanded_news.
  destruct (is_terminal env (Node.s nd)); [rewrite app_nil_r|]; reflexivity.
Qed.

(** The expansion changes the [w] and the children of the node only. *)
Lemma expanded_leaf_fields h nd :
  Node.n (expanded_leaf board env m h nd) = Node.n nd
  /\ Node.q (expanded_leaf board env m h nd) = Node.q nd
  /\ Node.p (expanded_leaf board env m h nd) = Node.p nd
  /\ Node.parent (expanded_leaf board env m h nd) = Node.parent nd
  /\ Node.a (expanded_leaf board env m h nd) = Node.a nd
  /\ Node.s (expanded_leaf board env m h nd) = Node.s nd
  /\ Node.to_play (expanded_leaf board env m h nd) = Node.to_play nd.
Proof.
  unfold expanded_leaf. destruct (is_terminal env (Node.s nd)); simpl; auto 10.
Qed.

Lemma expanded_leaf_children h (leaf : nat) nd :
  Node.children (expanded_leaf board env m h nd)
  = Node.children nd
    ++ seq (length h) (length (expanded_news board turn env m leaf nd)).
Proof.
  unfold expanded_leaf, expanded_news.
  destruct (is_terminal env (Node.s nd)); simpl.
  - rewrite app_nil_r. reflexivity.
  - rewrite length_map. reflexivity.
Qed.

(** The nodes created are fresh leaves below the node expanded. *)
Lemma expanded_news_fresh (leaf : nat) nd (c : Node.t State) :
  c ∈ expanded_news board turn env m leaf nd ->
  Node.n c = 0%nat /\ Node.w c = 0 /\ Node.q c = 0
  /\ Node.parent c = Some leaf /\ Node.children c = []
  /\ exists (a : nat) (p : R),
       Node.a c = Some a
       /\ (a, p) ∈ legal_actions env (m (board (Node.s nd))).1 (Node.s nd).
Proof.
  unfold expanded_news. destruct (is_terminal env (Node.s nd)).
  - intros Hc. by apply not_elem_of_nil in Hc.
  - intros Hc. apply list_elem_of_fmap in Hc as ([a p] & -> & Hap).
    simpl. repeat split; eauto.
Qed.

(** The expansion of a node and the [backup] from it, node by node. *)
Lemma visit_effect h (leaf : nat) (ndl : Node.t State) (anc : list nat) :
  h !! leaf = Some ndl ->
  chain h (Node.parent ndl) anc ->
  exists h' : heap State,
    (forall fuel : nat, (length anc <= fuel)%nat ->
       visit board turn env m fuel leaf h = Ok h')
    /\ h' !! leaf = Some
         (Node.mk (Node.n ndl + 1)
            (Node.w (expanded_leaf board env m h ndl))
            (Node.w (expanded_leaf board env m h ndl) / INR (Node.n ndl + 1))
            (Node.p ndl) (Node.parent ndl) (Node.a ndl) (Node.s ndl)
            (Node.to_play ndl)
            (Node.children (expanded_leaf board env m h ndl)))
    /\ (forall (x : nat) (ndx : Node.t State), x ∈ anc -> h !! x = Some ndx ->
          exists w' : R,
            h' !! x = Some
              (Node.mk (Node.n ndx + 1) w' (w' / INR (Node.n ndx + 1))
                 (Node.p ndx) (Node.parent ndx) (Node.a ndx) (Node.s ndx)
                 (Node.to_play ndx) (Node.children ndx)))
    /\ (forall x : nat, x <> leaf -> x ∉ anc -> (x < length h)%nat ->
          h' !! x = h !! x)
    /\ (forall i : nat,
          h' !! (length h + i)%nat = expanded_news board turn env m leaf ndl !! i).
Proof.
  intros Hndl Hchain.
  pose proof (lookup_lt_Some _ _ _ Hndl) as Hleaf.
  set (L := expanded_leaf board env m h ndl).
  set (news := expanded_news board turn env m leaf ndl).
  destruct (expanded_leaf_fields h ndl) as (HnL & HqL & HpL & HparL & HaL & HsL & HtL).
  fold L in HnL, HqL, HpL, HparL, HaL, HsL, HtL.
  set (h1 := <[leaf := L]> h ++ news).
  assert (Hacyc : leaf ∉ anc).
  { apply (chain_acyclic h). econstructor; eassumption. }
  assert (HL : h1 !! leaf = Some L).
  { unfold h1. rewrite (lookup_expanded h leaf leaf L news Hleaf).
    rewrite decide_True; reflexivity. }
  assert (Hsame : forall x : nat, x <> leaf -> (x < length h)%nat ->
            h1 !! x = h !! x).
  { intros x Hne Hlt. unfold h1.
    rewrite (lookup_expanded h leaf x L news Hleaf), decide_False by exact Hne.
    rewrite decide_True by exact Hlt. reflexivity. }
  assert (Hold : forall x : nat, x ∈ anc -> x <> leaf /\ (x < length h)%nat).
  { intros x Hx. split; [intros ->; contradiction|].
    destruct (chain_objects h _ anc x Hchain Hx) as [ndx Hndx].
    eapply lookup_lt_Some, Hndx. }
  assert (Hchain1 : chain h1 (Node.parent L) anc).
  { rewrite HparL. apply (chain_preserved h h1 _ _ Hchain).
    intros x ndx Hx Hndx. exists ndx. split; [|reflexivity].
    destruct (Hold x Hx) as [Hne Hlt]. rewrite Hsame; assumption. }
  destruct (backup_effect h1 leaf L anc (length anc) HL Hchain1 (le_n _))
    as (h' & Hrun & _ & Hleaf' & Hanc' & Hout').
  exists h'. split; [|split; [|split; [|split]]].
  - intros fuel Hfuel. unfold visit.
    rewrite (expand_closed h leaf ndl Hndl), bind_Ok.
    fold L news h1. rewrite <- Hrun.
    apply (backup_fuel h1 leaf L anc); [exact HL | exact Hchain1 | lia | apply le_n].
  - rewrite Hleaf', HnL, HpL, HparL, HaL, HsL, HtL. reflexivity.
  - intros x ndx Hx Hndx. destruct (Hold x Hx) as [Hne Hlt].
    eexists. apply (Hanc' x ndx Hx). rewrite Hsame; assumption.
  - intros x Hne Hx Hlt. rewrite (Hout' x Hne Hx). apply Hsame; assumption.
  - intros i. rewrite (Hout' (length h + i)%nat).
    + unfold h1. rewrite (lookup_expanded h leaf _ L news Hleaf).
      rewrite decide_False by lia. rewrite decide_False by lia.
      f_equal. lia.
    + lia.
    + intros Hin. destruct (Hold _ Hin). lia.
Qed.

(** One simulation on a well-formed tree, node by node: the leaf that
    [select] reaches is expanded and visited, its ancestors are visited and
    get the value with its sign, the nodes created come last, and nothing
    else changes. *)
Lemma simulate_effect h (root : nat) (r : Node.t State) :
  wf h root ->
  h !! root = Some r ->
  exists (leaf : nat) (ndl : Node.t State) (anc : list nat) (h' : heap State) (k : nat),
    h !! leaf = Some ndl
    /\ Node.children ndl = []
    /\ chain h (Node.parent ndl) anc
    /\ last (leaf :: anc) = Some root
    /\ linked h (leaf :: anc)
    /\ descent h root leaf
    /\ (forall fuel : nat, (k <= fuel)%nat ->
          simulate board turn env m fuel root h = Ok h')
    /\ wf h' root
    /\ h' !! leaf = Some
         (Node.mk (Node.n ndl + 1)
            (Node.w (expanded_leaf board env m h ndl))
            (Node.w (expanded_leaf board env m h ndl) / INR (Node.n ndl + 1))
            (Node.p ndl) (Node.parent ndl) (Node.a ndl) (Node.s ndl)
            (Node.to_play ndl)
            (Node.children (expanded_leaf board env m h ndl)))
    /\ (forall (x : nat) (ndx : Node.t State), x ∈ anc -> h !! x = Some ndx ->
          exists w' : R,
            h' !! x = Some
              (Node.mk (Node.n ndx + 1) w' (w' / INR (Node.n ndx + 1))
                 (Node.p ndx) (Node.parent ndx) (Node.a ndx) (Node.s ndx)
                 (Node.to_play ndx) (Node.children ndx)))
    /\ (forall x : nat, x <> leaf -> x ∉ anc -> (x < length h)%nat ->
          h' !! x = h !! x)
    /\ (forall i : nat,
          h' !! (length h + i)%nat = expanded_news board turn env m leaf ndl !! i).
Proof.
  intros Hwf Hr. pose proof Hwf as [(r0 & Hr0 & Hnone) Htree Hpar].
  assert (r0 = r) as -> by congruence.
  destruct (select_descends h root Htree)
    as (leaf & ndl & k & Hsel & Hndl & Hnil & Hdesc & _).
  destruct (descent_path h root leaf Hpar Hdesc [])
    as (pre & Hpre & Hhead & Hlinked).
  { econstructor; [exact Hr|]. rewrite Hnone. constructor. }
  assert (Hlast : last (pre ++ [root]) = Some root) by apply last_snoc.
  destruct (pre ++ [root]) as [|y anc] eqn:Hpath; [discriminate|].
  injection Hhead as ->.
  inversion Hpre as [|leaf' ndl' anc' Hndl' Hchain]; subst.
  assert (ndl' = ndl) as -> by congruence.
  pose proof (lookup_lt_Some _ _ _ Hndl) as Hleaf.
  set (L := expanded_leaf board env m h ndl).
  set (news := expanded_news board turn env m leaf ndl).
  destruct (expanded_leaf_fields h ndl) as (HnL & HqL & HpL & HparL & HaL & HsL & HtL).
  fold L in HnL, HqL, HpL, HparL, HaL, HsL, HtL.
  pose proof (expanded_leaf_children h leaf ndl) as HcL. fold L news in HcL.
  set (h1 := <[leaf := L]> h ++ news).
  assert (Hwf1 : wf h1 root).
  { apply (wf_expanded h root leaf ndl L news Hwf Hndl HparL HcL).
    intros c Hc. apply expanded_news_fresh in Hc. tauto. }
  assert (Hacyc : leaf ∉ anc).
  { apply (chain_acyclic h). econstructor; eassumption. }
  assert (HL : h1 !! leaf = Some L).
  { unfold h1. rewrite (lookup_expanded h leaf leaf L news Hleaf).
    rewrite decide_True; reflexivity. }
  assert (Hsame : forall x : nat, x <> leaf -> (x < length h)%nat ->
            h1 !! x = h !! x).
  { intros x Hne Hlt. unfold h1.
    rewrite (lookup_expanded h leaf x L news Hleaf), decide_False by exact Hne.
    rewrite decide_True by exact Hlt. reflexivity. }
  assert (Hold : forall x : nat, x ∈ anc -> x <> leaf /\ (x < length h)%nat).
  { intros x Hx. split; [intros ->; contradiction|].
    destruct (chain_objects h _ anc x Hchain Hx) as [ndx Hndx].
    eapply lookup_lt_Some, Hndx. }
  assert (Hchain1 : chain h1 (Node.parent L) anc).
  { rewrite HparL. apply (chain_preserved h h1 _ _ Hchain).
    intros x ndx Hx Hndx. exists ndx. split; [|reflexivity].
    destruct (Hold x Hx) as [Hne Hlt]. rewrite Hsame; assumption. }
  destruct (backup_effect h1 leaf L anc (length anc) HL Hchain1 (le_n _))
    as (h' & Hrun & _ & Hleaf' & Hanc' & Hout').
  assert (Hwf' : wf h' root).
  { apply (wf_same_shape h1 h' root Hwf1).
    eapply backup_shape; [exact HL | exact Hchain1 | apply le_n | exact Hrun]. }
  exists leaf, ndl, anc, h', (Nat.max k (length anc)).
  split; [exact Hndl|]. split; [exact Hnil|]. split; [exact Hchain|].
  split; [exact Hlast|]. split; [exact Hlinked|]. split; [exact Hdesc|].
  split; [|split; [exact Hwf'|]].
  { intros fuel Hfuel. unfold simulate.
    rewrite Hsel by lia. rewrite bind_Ok.
    rewrite (expand_closed h leaf ndl Hndl), bind_Ok.
    fold L news h1. rewrite <- Hrun.
    apply (backup_fuel h1 leaf L anc); [exact HL | exact Hchain1 | lia | apply le_n]. }
  split; [|split; [|split]].
  - rewrite Hleaf', HnL, HpL, HparL, HaL, HsL, HtL. reflexivity.
  - intros x ndx Hx Hndx. destruct (Hold x Hx) as [Hne Hlt].
    eexists. apply (Hanc' x ndx Hx). rewrite Hsame; assumption.
  - intros x Hne Hx Hlt. rewrite (Hout' x Hne Hx). apply Hsame; assumption.
  - intros i. rewrite (Hout' (length h + i)%nat).
    + unfold h1. rewrite (lookup_expanded h leaf _ L news Hleaf).
      rewrite decide_False by lia. rewrite decide_False by lia.
      f_equal. lia.
    + lia.
    + intros Hin. destruct (Hold _ Hin). lia.
Qed.

End Effect.

(** ** Searches from a root without children *)

Section Fringe.

Context {State Board : Type}.
Variable board : State -> Board.
Variable turn : State -> State.
Variable env : Env State.
Variable m : Board -> list R * R.
Implicit Types (h : heap State) (nd : Node.t State).

Lemma simulations_step (fuel root leaf k : nat) h :
  select fuel h root = Ok leaf ->
  simulations board turn env m fuel root (S k) h
  = (h' ← visit board turn env m fuel leaf h;
     simulations board turn env m fuel root k h').
Proof.
  intros Hsel. simpl. rewrite Hsel, bind_Ok. unfold visit.
  rewrite bind_assoc. reflexivity.
Qed.

Lemma objects_fresh h' (base : nat) (news : list (Node.t State)) :
  (forall i : nat, h' !! (base + i)%nat = news !! i) ->
  objects h' (seq base (length news)) news.
Proof.
  intros Hnew. apply Forall2_same_length_lookup_2.
  - rewrite length_seq. reflexivity.
  - intros i x y Hx Hy. apply lookup_seq in Hx as [-> _]. rewrite Hnew. exact Hy.
Qed.

Lemma news_unvisited (leaf : nat) nd :
  visit_sum (expanded_news board turn env m leaf nd) = 0%nat.
Proof.
  assert (H : forall l : list (Node.t State),
             (forall c, c ∈ l -> Node.n c = 0%nat) -> visit_sum l = 0%nat).
  { unfold visit_sum. induction l as [|c l IH]; intros Hl; [reflexivity|].
    simpl. rewrite (Hl c) by left. rewrite IH; [reflexivity|].
    intros c' Hc'. apply Hl. by right. }
  apply H. intros c Hc. apply expanded_news_fresh in Hc. tauto.
Qed.

Lemma get_policy_leaf h (self : nat) nd (temperature : R) (action_space : Z) :
  h !! self = Some nd ->
  Node.children nd = [] ->
  get_policy h self temperature action_space
  = Ok (replicate (Z.to_nat action_space) 0).
Proof.
  intros Hnd Hch. unfold get_policy.
  run_deref Hnd. rewrite Hch, deref_all_nil, bind_Ok.
  simpl. f_equal. unfold py_range, py_dict. simpl.
  rewrite (map_ext _ (fun _ => 0)) by (intros a; rewrite lookup_empty; reflexivity).
  rewrite map_const_replicate, length_seq. reflexivity.
Qed.


Lemma terminal_simulations (root : nat) (anc : list nat) (fuel : nat) (k : nat) :
  (1 <= fuel)%nat ->
  (length anc <= fuel)%nat ->
  forall h (r : Node.t State),
    h !! root = Some r ->
    Node.children r = [] ->
    is_terminal env (Node.s r) = true ->
    chain h (Node.parent r) anc ->
    exists (h' : heap State) (r' : Node.t State),
      simulations board turn env m fuel root k h = Ok h'
      /\ h' !! root = Some r'
      /\ Node.children r' = []
      /\ Node.n r' = (Node.n r + k)%nat
      /\ Node.w r' = Node.w r + INR k * compute_reward env (Node.s r).
Proof.
  intros Hfuel Hanc. induction k as [|k IH]; intros h r Hr Hch Hterm Hchain.
  - exists h, r. simpl. split; [reflexivity|]. split; [exact Hr|].
    split; [exact Hch|]. split; [lia | lra].
  - assert (Hsel : select fuel h root = Ok root).
    { destruct fuel as [|fuel']; [lia|]. eapply select_fuel_leaf; eassumption. }
    rewrite (simulations_step fuel root root k h Hsel).
    destruct (visit_terminal board turn env m h root r anc fuel Hr Hterm Hchain Hanc)
      as (h1 & Hrun & Hr1 & Hchain1).
    rewrite Hrun, bind_Ok.
    destruct (IH h1 _ Hr1) as (h' & r' & Hrun' & Hr' & Hch' & Hn' & Hw');
      [exact Hch | exact Hterm | exact Hchain1 |].
    simpl in Hn', Hw'.
    exists h', r'. split; [exact Hrun'|]. split; [exact Hr'|].
    split; [exact Hch'|]. split; [lia|].
    rewrite Hw'. rewrite S_INR. ring.
Qed.


End Fringe.



(** ** Invariants of the simulations *)

Section Invariants.

Context {State Board : Type}.
Variable board : State -> Board.
Variable turn : State -> State.
Variable env : Env State.
Variable m : Board -> list R * R.
Implicit Types (h : heap State) (nd : Node.t State).

(** A property of well-formed trees that one simulation keeps is kept by
    any number of them, and all of them return. *)
Lemma simulations_invariant (Inv : heap State -> Prop) (root : nat) :
  (forall h, wf h root -> Inv h ->
     exists (h' : heap State) (k : nat),
       (forall fuel : nat, (k <= fuel)%nat ->
          simulate board turn env m fuel root h = Ok h')
       /\ wf h' root /\ Inv h') ->
  forall (num : nat) h,
    wf h root -> Inv h ->
    exists (h' : heap State) (k : nat),
      (forall fuel : nat, (k <= fuel)%nat ->
         simulations board turn env m fuel root num h = Ok h')
      /\ wf h' root /\ Inv h'.
Proof.
  intros Hstep. induction num as [|num IH]; intros h Hwf Hinv.
  - exists h, 0%nat. split; [reflexivity | auto].
  - destruct (Hstep h Hwf Hinv) as (h1 & k1 & Hrun1 & Hwf1 & Hinv1).
    destruct (IH h1 Hwf1 Hinv1) as (h' & k2 & Hrun2 & Hwf' & Hinv').
    exists h', (Nat.max k1 k2). split; [|auto].
    intros fuel Hfuel.
    pose proof (Hrun1 fuel ltac:(lia)) as Hsim. unfold simulate in Hsim.
    simpl.
    destruct (select fuel h root) as [leaf| | |]; try discriminate.
    rewrite bind_Ok in Hsim |- *.
    destruct (expand_and_evaluate board turn env m h leaf) as [h2| | |]; try discriminate.
    rewrite bind_Ok in Hsim |- *. rewrite Hsim, bind_Ok. apply Hrun2. lia.
Qed.

Lemma stats_ok_visited (n : nat) (w : R) (p : R) (parent a : option nat) (s : State)
    (to_play : Z) (children : list nat) :
  stats_ok (Node.mk (n + 1) w (w / INR (n + 1)) p parent a s to_play children).
Proof. unfold stats_ok. simpl. rewrite Nat.add_1_r. reflexivity. Qed.

Lemma simulate_keeps_stats (root : nat) h :
  wf h root ->
  (forall (x : nat) nd, h !! x = Some nd -> stats_ok nd) ->
  exists (h' : heap State) (k : nat),
    (forall fuel : nat, (k <= fuel)%nat ->
       simulate board turn env m fuel root h = Ok h')
    /\ wf h' root
    /\ (forall (x : nat) nd, h' !! x = Some nd -> stats_ok nd).
Proof.
  intros Hwf Hinv. destruct (wf_root h root Hwf) as (r & Hr & _).
  destruct (simulate_effect board turn env m h root r Hwf Hr)
    as (leaf & ndl & anc & h' & k & Hndl & _ & Hchain & _ & _ & _ & Hrun & Hwf'
        & Hleaf & Hanc & Hout & Hnew).
  exists h', k. split; [exact Hrun|]. split; [exact Hwf'|].
  intros x nd Hx.
  destruct (decide (x = leaf)) as [->|Hne].
  { rewrite Hleaf in Hx. injection Hx as <-. apply stats_ok_visited. }
  destruct (decide (x ∈ anc)) as [Hin|Hnin].
  { destruct (chain_objects h _ anc x Hchain Hin) as [ndx Hndx].
    destruct (Hanc x ndx Hin Hndx) as (w' & Hx').
    rewrite Hx' in Hx. injection Hx as <-. apply stats_ok_visited. }
  destruct (decide (x < length h)%nat) as [Hlt|Hge].
  { rewrite (Hout x Hne Hnin Hlt) in Hx. exact (Hinv x nd Hx). }
  replace x with (length h + (x - length h))%nat in Hx by lia.
  rewrite Hnew in Hx. apply list_elem_of_lookup_2, expanded_news_fresh in Hx.
  destruct Hx as (Hn & Hw & Hq & _). unfold stats_ok. rewrite Hn. auto.
Qed.

(** X12.  The simulations keep the statistics of every node coherent: a
    node without visit has [w = 0] and [q = 0], and on a visited node [q] is
    the mean [w / n]. *)
Theorem simulations_keep_means (root : nat) (num : nat) h :
  wf h root ->
  (forall (x : nat) nd, h !! x = Some nd -> stats_ok nd) ->
  exists (h' : heap State) (k : nat),
    (forall fuel : nat, (k <= fuel)%nat ->
       simulations board turn env m fuel root num h = Ok h')
    /\ (forall (x : nat) nd, h' !! x = Some nd -> stats_ok nd).
Proof.
  intros Hwf Hinv.
  destruct (simulations_invariant
              (fun h => forall (x : nat) nd, h !! x = Some nd -> stats_ok nd) root
              (simulate_keeps_stats root) num h Hwf Hinv)
    as (h' & k & Hrun & _ & Hinv').
  exists h', k. auto.
Qed.

End Invariants.

Lemma wf_one_ply_root : wf Examples.one_ply_root 0.
Proof.
  split.
  - exists (Node.init None None None 0 0). split; reflexivity.
  - apply (tree_node Examples.one_ply_root 0%nat (Node.init None None None 0 0));
      [reflexivity|].
    intros c Hc. by apply not_elem_of_nil in Hc.
  - intros [|x] c nd Hnd Hc; simpl in Hnd; [|discriminate].
    injection Hnd as <-. by apply not_elem_of_nil in Hc.
Defined.

Lemma simulations_keep_means_witness :
  exists (h' : heap (option nat)) (k : nat),
    (forall fuel : nat, (k <= fuel)%nat ->
       simulations Examples.board Examples.turn Examples.one_ply Examples.uniform
         fuel 0 5 Examples.one_ply_root = Ok h')
    /\ (forall (x : nat) (nd : Node.t (option nat)), h' !! x = Some nd -> stats_ok nd).
Proof.
  apply (simulations_keep_means Examples.board Examples.turn Examples.one_ply
           Examples.uniform 0 5 Examples.one_ply_root wf_one_ply_root).
  intros [|x] nd Hnd; simpl in Hnd; [|discriminate].
  injection Hnd as <-. split; reflexivity.
Defined.

(** ** The count of the visits *)

Section Paths.

Context {State : Type}.
Implicit Types (h : heap State) (nd : Node.t State).

Lemma chain_head h (o : option nat) (l : list nat) : chain h o l -> o = head l.
Proof. destruct 1; reflexivity. Qed.

(** In a chain the parent of a node is the next node, if any. *)
Lemma chain_next h (o : option nat) (l : list nat) :
  chain h o l ->
  forall (i c : nat) nd, l !! i = Some c -> h !! c = Some nd ->
    Node.parent nd = l !! S i.
Proof.
  induction 1 as [|y ndy l Hy Hl IH]; intros i c nd Hi Hc; [discriminate|].
  destruct i as [|i]; simpl in *.
  - injection Hi as <-. assert (ndy = nd) as -> by congruence.
    rewrite (chain_head _ _ _ Hl). destruct l; reflexivity.
  - exact (IH i c nd Hi Hc).
Qed.

Lemma chain_NoDup h (o : option nat) (l : list nat) : chain h o l -> NoDup l.
Proof.
  induction 1 as [|y ndy l Hy Hl IH]; [constructor|].
  apply NoDup_cons. split; [|exact IH].
  apply (chain_acyclic h). econstructor; eassumption.
Qed.

Lemma linked_lookup h (l : list nat) :
  linked h l ->
  forall (i c p : nat), l !! i = Some c -> l !! S i = Some p ->
    exists nd, h !! p = Some nd /\ c ∈ Node.children nd.
Proof.
  induction 1 as [|x|c0 p0 l ndp Hp Hc _ IH]; intros i c p Hi Hs.
  - rewrite lookup_nil in Hi. discriminate.
  - simpl in Hs. rewrite lookup_nil in Hs. discriminate.
  - destruct i as [|i]; simpl in *.
    + injection Hi as <-. injection Hs as <-. eauto.
    + exact (IH i c p Hi Hs).
Qed.

(** Adding one visit to one of the nodes adds one to the sum. *)
Lemma child_visits_bump h h' (l : list nat) (y : nat) nd nd' :
  NoDup l -> y ∈ l ->
  h !! y = Some nd -> h' !! y = Some nd' -> Node.n nd' = (Node.n nd + 1)%nat ->
  (forall c : nat, c ∈ l -> c <> y -> h' !! c = h !! c) ->
  child_visits h' l = (child_visits h l + 1)%nat.
Proof.
  intros Hdup Hy Hnd Hnd' Hn. unfold child_visits.
  induction l as [|c l IH]; intros Hsame; [by apply not_elem_of_nil in Hy|].
  apply NoDup_cons in Hdup as [Hc Hdup]. simpl.
  apply elem_of_cons in Hy as [<-|Hy].
  - rewrite Hnd, Hnd'. simpl. rewrite Hn.
    assert (Hrest : map (fun c => from_option Node.n 0%nat (h' !! c)) l
                    = map (fun c => from_option Node.n 0%nat (h !! c)) l).
    { apply map_ext_in. intros c Hc'. apply list_elem_of_In in Hc'.
      rewrite Hsame; [reflexivity | by right | intros ->; contradiction]. }
    rewrite Hrest. lia.
  - rewrite (Hsame c) by (left || (intros ->; contradiction)).
    rewrite IH; [lia | exact Hdup | exact Hy |].
    intros c' Hc' Hne. apply Hsame; [by right | exact Hne].
Qed.

Lemma child_visits_same h h' (l : list nat) :
  (forall c : nat, c ∈ l -> h' !! c = h !! c) ->
  child_visits h' l = child_visits h l.
Proof.
  intros Hsame. unfold child_visits. f_equal. apply map_ext_in.
  intros c Hc. apply list_elem_of_In in Hc. rewrite Hsame; [reflexivity | exact Hc].
Qed.

Lemma child_visits_fresh h' (base : nat) (news : list (Node.t State)) :
  (forall i : nat, h' !! (base + i)%nat = news !! i) ->
  (forall c, c ∈ news -> Node.n c = 0%nat) ->
  child_visits h' (seq base (length news)) = 0%nat.
Proof.
  intros Hnew Hzero. unfold child_visits.
  assert (H : forall x : nat, x ∈ seq base (length news) ->
             from_option Node.n 0%nat (h' !! x) = 0%nat).
  { intros x Hx. apply elem_of_seq in Hx.
    replace x with (base + (x - base))%nat by lia. rewrite Hnew.
    destruct (news !! (x - base)%nat) as [c|] eqn:Hc; [|reflexivity].
    simpl. apply Hzero. eapply list_elem_of_lookup_2, Hc. }
  induction (seq base (length news)) as [|x l IH]; [reflexivity|].
  simpl. rewrite (H x) by left. rewrite IH; [reflexivity|].
  intros x' Hx'. apply H. by right.
Qed.

End Paths.

Section Count.

Context {State Board : Type}.
Variable board : State -> Board.
Variable turn : State -> State.
Variable env : Env State.
Variable m : Board -> list R * R.
Implicit Types (h : heap State) (nd : Node.t State).

Lemma news_barren (leaf : nat) nd :
  expanded_news board turn env m leaf nd = [] <-> barren board env m nd.
Proof.
  unfold expanded_news, barren. destruct (is_terminal env (Node.s nd)).
  - split; auto.
  - split.
    + intros Hnil. right. apply fmap_nil_inv in Hnil. exact Hnil.
    + intros [Hf | ->]; [discriminate | reflexivity].
Qed.

(** The records of the arena after a simulation, case by case. *)
Lemma simulated_cases h h' (leaf : nat) (ndl : Node.t State) (anc : list nat) :
  h !! leaf = Some ndl ->
  chain h (Node.parent ndl) anc ->
  h' !! leaf = Some
    (Node.mk (Node.n ndl + 1)
       (Node.w (expanded_leaf board env m h ndl))
       (Node.w (expanded_leaf board env m h ndl) / INR (Node.n ndl + 1))
       (Node.p ndl) (Node.parent ndl) (Node.a ndl) (Node.s ndl)
       (Node.to_play ndl)
       (Node.children (expanded_leaf board env m h ndl))) ->
  (forall (x : nat) (ndx : Node.t State), x ∈ anc -> h !! x = Some ndx ->
     exists w' : R,
       h' !! x = Some
         (Node.mk (Node.n ndx + 1) w' (w' / INR (Node.n ndx + 1))
            (Node.p ndx) (Node.parent ndx) (Node.a ndx) (Node.s ndx)
            (Node.to_play ndx) (Node.children ndx))) ->
  (forall x : nat, x <> leaf -> x ∉ anc -> (x < length h)%nat -> h' !! x = h !! x) ->
  (forall i : nat,
     h' !! (length h + i)%nat = expanded_news board turn env m leaf ndl !! i) ->
  forall (x : nat) (nd' : Node.t State),
    h' !! x = Some nd' ->
    (x = leaf
     /\ Node.n nd' = (Node.n ndl + 1)%nat
     /\ Node.s nd' = Node.s ndl
     /\ Node.children nd' = Node.children (expanded_leaf board env m h ndl))
    \/ (x ∈ anc
        /\ exists ndx, h !! x = Some ndx
                       /\ Node.n nd' = (Node.n ndx + 1)%nat
                       /\ Node.s nd' = Node.s ndx
                       /\ Node.children nd' = Node.children ndx)
    \/ (x <> leaf /\ (x ∉ anc) /\ h !! x = Some nd')
    \/ ((length h <= x)%nat /\ nd' ∈ expanded_news board turn env m leaf ndl).
Proof.
  intros Hndl Hchain Hleaf Hanc Hout Hnew x nd' Hx.
  destruct (decide (x = leaf)) as [->|Hne].
  { left. rewrite Hleaf in Hx. injection Hx as <-. auto. }
  destruct (decide (x ∈ anc)) as [Hin|Hnin].
  { right. left. split; [exact Hin|].
    destruct (chain_objects h _ anc x Hchain Hin) as [ndx Hndx].
    destruct (Hanc x ndx Hin Hndx) as (w' & Hx').
    rewrite Hx' in Hx. injection Hx as <-. exists ndx. auto. }
  destruct (decide (x < length h)%nat) as [Hlt|Hge].
  { right. right. left. rewrite (Hout x Hne Hnin Hlt) in Hx. auto. }
  right. right. right. split; [lia|].
  replace x with (length h + (x - length h))%nat in Hx by lia.
  rewrite Hnew in Hx. eapply list_elem_of_lookup_2, Hx.
Qed.

Lemma simulate_keeps_count (root : nat) h :
  wf h root ->
  counted board env m h ->
  exists (h' : heap State) (k : nat),
    (forall fuel : nat, (k <= fuel)%nat ->
       simulate board turn env m fuel root h = Ok h')
    /\ wf h' root
    /\ counted board env m h'.
Proof.
  intros Hwf [Hdup Hsum Hbar]. destruct (wf_root h root Hwf) as (r & Hr & _).
  pose proof (wf_parent h root Hwf) as Hpar.
  destruct (simulate_effect board turn env m h root r Hwf Hr)
    as (leaf & ndl & anc & h' & k & Hndl & Hnil & Hchain & _ & Hlinked & _ & Hrun
        & Hwf' & Hleaf & Hanc & Hout & Hnew).
  exists h', k. split; [exact Hrun|]. split; [exact Hwf'|].
  pose proof (simulated_cases h h' leaf ndl anc Hndl Hchain Hleaf Hanc Hout Hnew)
    as Hcases.
  set (news := expanded_news board turn env m leaf ndl) in *.
  assert (HcL : Node.children (expanded_leaf board env m h ndl)
                = seq (length h) (length news)).
  { rewrite (expanded_leaf_children board turn env m h leaf ndl), Hnil. reflexivity. }
  assert (Hpath : chain h (Some leaf) (leaf :: anc)) by (econstructor; eassumption).
  pose proof (chain_NoDup h _ _ Hpath) as Hnodup.
  (* every node of the path gets one visit *)
  assert (Hbump : forall (y : nat) (ndy : Node.t State),
             y ∈ leaf :: anc -> h !! y = Some ndy ->
             exists ndy', h' !! y = Some ndy' /\ Node.n ndy' = (Node.n ndy + 1)%nat).
  { intros y ndy Hy Hndy. apply elem_of_cons in Hy as [->|Hy].
    - assert (ndy = ndl) as -> by congruence. eexists. split; [exact Hleaf|reflexivity].
    - destruct (Hanc y ndy Hy Hndy) as (w' & Hy'). eexists. split; [exact Hy'|reflexivity]. }
  (* a node of the path whose parent is [x] comes just before [x] *)
  assert (Hbefore : forall (c x i : nat) (ndc : Node.t State),
             (leaf :: anc) !! i = Some c -> h !! c = Some ndc ->
             Node.parent ndc = Some x -> (leaf :: anc) !! S i = Some x).
  { intros c x i ndc Hi Hndc Hp.
    rewrite <- Hp. symmetry. exact (chain_next h _ _ Hpath i c ndc Hi Hndc). }
  (* the children of a node off the path are off the path *)
  assert (Hoff : forall (x c : nat) (ndx : Node.t State),
             x <> leaf -> x ∉ anc -> h !! x = Some ndx -> c ∈ Node.children ndx ->
             h' !! c = h !! c).
  { intros x c ndx Hne Hnin Hndx Hc.
    destruct (Hpar x c ndx Hndx Hc) as (ndc & Hndc & Hp).
    assert (Hcoff : c ∉ leaf :: anc).
    { intros Hin. apply list_elem_of_lookup in Hin as [i Hi].
      pose proof (Hbefore c x i ndc Hi Hndc Hp) as Hx. simpl in Hx.
      apply Hnin. eapply list_elem_of_lookup_2, Hx. }
    apply not_elem_of_cons in Hcoff as [Hcl Hca].
    apply Hout; [exact Hcl | exact Hca | eapply lookup_lt_Some, Hndc]. }
  split.
  - (* no child twice *)
    intros x nd' Hx.
    destruct (Hcases x nd' Hx)
      as [(-> & _ & _ & Hch)|[(Hin & ndx & Hndx & _ & _ & Hch)|[(Hne & Hnin & Hold)|(_ & Hin)]]].
    + rewrite Hch, HcL. apply NoDup_seq.
    + rewrite Hch. exact (Hdup x ndx Hndx).
    + exact (Hdup x nd' Hold).
    + apply expanded_news_fresh in Hin as (_ & _ & _ & _ & -> & _). constructor.
  - (* one visit more than the children *)
    intros x nd' Hx Hne.
    destruct (Hcases x nd' Hx)
      as [(-> & Hn & _ & Hch)|[(Hin & ndx & Hndx & Hn & _ & Hch)|[(Hnl & Hnin & Hold)|(_ & Hin)]]].
    + rewrite Hch, HcL in Hne |- *.
      assert (Hnews : news <> []).
      { intros Hnil'. rewrite Hnil' in Hne. apply Hne. reflexivity. }
      assert (Hzero : Node.n ndl = 0%nat).
      { destruct (Nat.eq_dec (Node.n ndl) 0%nat) as [Hz|Hnz]; [exact Hz|]. exfalso.
        apply Hnews. apply news_barren. exact (Hbar leaf ndl Hndl Hnil Hnz). }
      rewrite Hn, Hzero.
      rewrite (child_visits_fresh h' (length h) news Hnew); [reflexivity|].
      intros c Hc. apply expanded_news_fresh in Hc. tauto.
    + rewrite Hch in Hne |- *. rewrite Hn.
      rewrite (Hsum x ndx Hndx Hne).
      apply list_elem_of_lookup in Hin as [j Hj].
      destruct (lookup_lt_is_Some_2 (leaf :: anc) j) as [y Hy].
      { pose proof (lookup_lt_Some _ _ _ Hj). simpl. lia. }
      destruct (linked_lookup h _ Hlinked j y x Hy Hj) as (ndx0 & Hndx0 & Hychild).
      assert (ndx0 = ndx) as -> by congruence.
      destruct (Hpar x y ndx Hndx Hychild) as (ndy & Hndy & Hyp).
      destruct (Hbump y ndy) as (ndy' & Hndy' & Hny);
        [eapply list_elem_of_lookup_2, Hy | exact Hndy |].
      rewrite (child_visits_bump h h' (Node.children ndx) y ndy ndy');
        [lia | exact (Hdup x ndx Hndx) | exact Hychild | exact Hndy | exact Hndy'
         | exact Hny |].
      intros c Hc Hcy.
      destruct (Hpar x c ndx Hndx Hc) as (ndc & Hndc & Hcp).
      assert (Hcoff : c ∉ leaf :: anc).
      { intros Hcin. apply list_elem_of_lookup in Hcin as [i Hi].
        pose proof (Hbefore c x i ndc Hi Hndc Hcp) as Hx1.
        pose proof (Hbefore y x j ndy Hy Hndy Hyp) as Hx2.
        pose proof (NoDup_lookup _ _ _ _ Hnodup Hx1 Hx2) as Hij.
        apply Hcy. injection Hij as ->. congruence. }
      apply not_elem_of_cons in Hcoff as [Hcl Hca].
      apply Hout; [exact Hcl | exact Hca | eapply lookup_lt_Some, Hndc].
    + rewrite (Hsum x nd' Hold Hne). f_equal.
      symmetry. apply child_visits_same. intros c Hc.
      exact (Hoff x c nd' Hnl Hnin Hold Hc).
    + apply expanded_news_fresh in Hin as (_ & _ & _ & _ & Hch & _). congruence.
  - (* a visited node without children is barren *)
    intros x nd' Hx Hch Hn.
    destruct (Hcases x nd' Hx)
      as [(-> & _ & Hs & Hch')|[(Hin & ndx & Hndx & _ & _ & Hch')|[(Hnl & Hnin & Hold)|(_ & Hin)]]].
    + rewrite Hch', HcL in Hch.
      assert (Hnews : news = []).
      { destruct news; [reflexivity | discriminate]. }
      apply news_barren in Hnews. unfold barren in *. rewrite Hs. exact Hnews.
    + exfalso. rewrite Hch' in Hch.
      apply list_elem_of_lookup in Hin as [j Hj].
      destruct (lookup_lt_is_Some_2 (leaf :: anc) j) as [y Hy].
      { pose proof (lookup_lt_Some _ _ _ Hj). simpl. lia. }
      destruct (linked_lookup h _ Hlinked j y x Hy Hj) as (ndx0 & Hndx0 & Hychild).
      assert (ndx0 = ndx) as -> by congruence.
      rewrite Hch in Hychild. by apply not_elem_of_nil in Hychild.
    + exact (Hbar x nd' Hold Hch Hn).
    + apply expanded_news_fresh in Hin as (Hz & _). congruence.
Qed.

(** X13.  The simulations keep the count of the visits: a node with
    children has one visit more than its children together, the visit in
    which it was expanded. *)
Theorem simulations_count_visits (root : nat) (num : nat) h :
  wf h root ->
  counted board env m h ->
  exists (h' : heap State) (k : nat),
    (forall fuel : nat, (k <= fuel)%nat ->
       simulations board turn env m fuel root num h = Ok h')
    /\ forall (x : nat) nd,
         h' !! x = Some nd -> Node.children nd <> [] ->
         Node.n nd = (1 + child_visits h' (Node.children nd))%nat.
Proof.
  intros Hwf Hcount.
  destruct (simulations_invariant board turn env m (counted board env m) root
              (simulate_keeps_count root) num h Hwf Hcount)
    as (h' & k & Hrun & _ & [_ Hsum' _]).
  exists h', k. auto.
Qed.

End Count.

Lemma counted_one_ply_root :
  counted Examples.board Examples.one_ply Examples.uniform Examples.one_ply_root.
Proof.
  split; intros [|x] nd Hnd; simpl in Hnd; try discriminate; injection Hnd as <-.
  - constructor.
  - intros Hne. exfalso. apply Hne. reflexivity.
  - intros _ Hn. exfalso. apply Hn. reflexivity.
Defined.

Lemma simulations_count_visits_witness :
  exists (h' : heap (option nat)) (k : nat),
    (forall fuel : nat, (k <= fuel)%nat ->
       simulations Examples.board Examples.turn Examples.one_ply Examples.uniform
         fuel 0 5 Examples.one_ply_root = Ok h')
    /\ forall (x : nat) (nd : Node.t (option nat)),
         h' !! x = Some nd -> Node.children nd <> [] ->
         Node.n nd = (1 + child_visits h' (Node.children nd))%nat.
Proof.
  exact (simulations_count_visits Examples.board Examples.turn Examples.one_ply
           Examples.uniform 0 5 Examples.one_ply_root wf_one_ply_root
           counted_one_ply_root).
Defined.

(** ** The policy that a search returns *)

Lemma sorted_fst_NoDup {A : Type} (l : list (nat * A)) :
  StronglySorted (fun x y : nat * A => (x.1 < y.1)%nat) l -> NoDup (fst <$> l).
Proof.
  induction 1 as [|x l _ IH Hx]; [constructor|].
  rewrite fmap_cons. apply NoDup_cons. split; [|exact IH].
  intros Hin. apply list_elem_of_fmap in Hin as (y & Hxy & Hy).
  rewrite Forall_forall in Hx. specialize (Hx y Hy). lia.
Qed.

Section Actions.

Context {State Board : Type}.
Variable board : State -> Board.
Variable turn : State -> State.
Variable env : Env State.
Variable m : Board -> list R * R.
Implicit Types (h : heap State) (nd : Node.t State).

Lemma objects_functional h (l : list nat) (cs1 cs2 : list (Node.t State)) :
  objects h l cs1 -> objects h l cs2 -> cs1 = cs2.
Proof.
  unfold objects. intros H1. revert cs2.
  induction H1 as [|c x l cs1 Hc _ IH]; intros cs2 H2; inversion H2; subst.
  - reflexivity.
  - f_equal; [congruence | apply IH; assumption].
Qed.

Lemma actions_kept h h' (l : list nat) (cs cs' : list (Node.t State)) :
  (forall (c : nat) (ndc : Node.t State), h !! c = Some ndc ->
     exists ndc', h' !! c = Some ndc' /\ Node.a ndc' = Node.a ndc) ->
  objects h l cs -> objects h' l cs' ->
  Node.a <$> cs' = Node.a <$> cs.
Proof.
  unfold objects. intros Hkeep H1. revert cs'.
  induction H1 as [|c x l cs Hc _ IH]; intros cs' H2; inversion H2; subst.
  - reflexivity.
  - rewrite !fmap_cons. f_equal; [|apply IH; assumption].
    destruct (Hkeep c x Hc) as (x' & Hx' & Ha). congruence.
Qed.

(** The nodes that an expansion creates have the legal actions, each
    once. *)
Lemma news_actions (leaf : nat) nd :
  NoDup (Node.a <$> expanded_news board turn env m leaf nd)
  /\ forall c : Node.t State, c ∈ expanded_news board turn env m leaf nd ->
       exists k : nat,
         Node.a c = Some k /\ (k < length (m (board (Node.s nd))).1)%nat.
Proof.
  split.
  - unfold expanded_news. destruct (is_terminal env (Node.s nd)); [constructor|].
    rewrite <- list_fmap_compose.
    change (Node.a ∘ child_of turn env leaf nd)
      with ((@Some nat) ∘ (@fst nat R)).
    rewrite (list_fmap_compose fst Some).
    apply (NoDup_fmap_2 Some). apply sorted_fst_NoDup.
    apply filter_sorted. apply enumerate_sorted_from.
  - intros c Hc. apply expanded_news_fresh in Hc as (_ & _ & _ & _ & _ & k & p & Hk & Hin).
    exists k. split; [exact Hk|].
    unfold legal_actions in Hin. apply list_elem_of_filter in Hin as [_ Hin].
    apply enumerate_elem_of in Hin. eapply lookup_lt_Some, Hin.
Qed.

Lemma simulate_keeps_actions (root : nat) (bound : nat) (s0 : State) h :
  (forall b : Board, (length (m b).1 <= bound)%nat) ->
  wf h root ->
  acted bound h ->
  (exists r, h !! root = Some r /\ Node.s r = s0) ->
  exists (h' : heap State) (k : nat),
    (forall fuel : nat, (k <= fuel)%nat ->
       simulate board turn env m fuel root h = Ok h')
    /\ acted bound h'
    /\ (exists r', h' !! root = Some r' /\ Node.s r' = s0).
Proof.
  intros Hfit Hwf Hact (r & Hr & Hs0).
  pose proof (wf_parent h root Hwf) as Hpar.
  destruct (simulate_effect board turn env m h root r Hwf Hr)
    as (leaf & ndl & anc & h' & k & Hndl & Hnil & Hchain & _ & _ & _ & Hrun
        & _ & Hleaf & Hanc & Hout & Hnew).
  exists h', k. split; [exact Hrun|].
  pose proof (simulated_cases board turn env m h h' leaf ndl anc Hndl Hchain Hleaf
                Hanc Hout Hnew) as Hcases.
  set (news := expanded_news board turn env m leaf ndl) in *.
  assert (HcL : Node.children (expanded_leaf board env m h ndl)
                = seq (length h) (length news)).
  { rewrite (expanded_leaf_children board turn env m h leaf ndl), Hnil. reflexivity. }
  assert (Hkeep : forall (c : nat) (ndc : Node.t State), h !! c = Some ndc ->
             exists ndc', h' !! c = Some ndc' /\ Node.a ndc' = Node.a ndc).
  { intros c ndc Hc. destruct (decide (c = leaf)) as [->|Hne].
    - assert (ndc = ndl) as -> by congruence. eexists. split; [exact Hleaf|reflexivity].
    - destruct (decide (c ∈ anc)) as [Hin|Hnin].
      + destruct (Hanc c ndc Hin Hc) as (w' & Hc'). eexists. split; [exact Hc'|reflexivity].
      + exists ndc. split; [|reflexivity].
        rewrite (Hout c Hne Hnin); [exact Hc | eapply lookup_lt_Some, Hc]. }
  assert (Hold : forall (x : nat) (ndx nd' : Node.t State) (cs' : list (Node.t State)),
             h !! x = Some ndx -> Node.children nd' = Node.children ndx ->
             objects h' (Node.children nd') cs' ->
             NoDup (Node.a <$> cs')
             /\ forall c : Node.t State, c ∈ cs' ->
                  exists k : nat, Node.a c = Some k /\ (k < bound)%nat).
  { intros x ndx nd' cs' Hndx Hch Hobj'. rewrite Hch in Hobj'.
    destruct (objects_exist h (Node.children ndx)) as [cs Hobj].
    { intros c Hc. destruct (Hpar x c ndx Hndx Hc) as (ndc & Hndc & _). eauto. }
    destruct (Hact x ndx cs Hndx Hobj) as [Hdup Hbound].
    pose proof (actions_kept h h' _ cs cs' Hkeep Hobj Hobj') as Heq.
    rewrite Heq. split; [exact Hdup|].
    intros c' Hc'. apply (list_elem_of_fmap_2 Node.a) in Hc'. rewrite Heq in Hc'.
    apply list_elem_of_fmap in Hc' as (c & Hac & Hc).
    destruct (Hbound c Hc) as (j & Hj & Hlt). exists j. split; [congruence | exact Hlt]. }
  split.
  - intros x nd' cs' Hx Hobj'.
    destruct (Hcases x nd' Hx)
      as [(-> & _ & _ & Hch)|[(Hin & ndx & Hndx & _ & _ & Hch)|[(Hne & Hnin & Hsame)|(_ & Hin)]]].
    + rewrite Hch, HcL in Hobj'.
      pose proof (objects_fresh h' (length h) news Hnew) as Hfresh.
      rewrite (objects_functional h' _ cs' news Hobj' Hfresh).
      destruct (news_actions leaf ndl) as [Hdup Hbound]. fold news in Hdup, Hbound.
      split; [exact Hdup|]. intros c Hc.
      destruct (Hbound c Hc) as (j & Hj & Hlt). exists j. split; [exact Hj|].
      pose proof (Hfit (board (Node.s ndl))). lia.
    + exact (Hold x ndx nd' cs' Hndx Hch Hobj').
    + exact (Hold x nd' nd' cs' Hsame eq_refl Hobj').
    + apply expanded_news_fresh in Hin as (_ & _ & _ & _ & Hch & _).
      rewrite Hch in Hobj'. inversion Hobj'; subst. split; [constructor|].
      intros c Hc. by apply not_elem_of_nil in Hc.
  - destruct (lookup_lt_is_Some_2 h' root) as [r' Hr']. 
    { destruct (Hkeep root r Hr) as (r' & Hr' & _). eapply lookup_lt_Some, Hr'. }
    exists r'. split; [exact Hr'|].
    destruct (Hcases root r' Hr')
      as [(-> & _ & Hs & _)|[(Hin & ndx & Hndx & _ & Hs & _)|[(Hne & Hnin & Hsame)|(Hge & _)]]].
    + assert (ndl = r) as -> by congruence. congruence.
    + assert (ndx = r) as -> by congruence. congruence.
    + assert (r' = r) as -> by congruence. exact Hs0.
    + pose proof (lookup_lt_Some _ _ _ Hr). lia.
Qed.

End Actions.

Section Distribution.

Context {State Board : Type}.
Variable board : State -> Board.
Variable turn : State -> State.
Variable env : Env State.
Variable m : Board -> list R * R.
Implicit Types (h : heap State) (nd : Node.t State).

Lemma visit_sum_child_visits h (l : list nat) (cs : list (Node.t State)) :
  objects h l cs -> visit_sum cs = child_visits h l.
Proof.
  unfold objects, visit_sum, child_visits.
  induction 1 as [|c x l cs Hc _ IH]; [reflexivity|].
  simpl. rewrite Hc, IH. reflexivity.
Qed.

(** With a visited child, the actions of the children distinct and below
    the size of the action space, the policy is a distribution. *)
Lemma policy_distribution (cs : list (Node.t State)) (temperature : R)
    (action_space : Z) :
  visit_sum cs <> 0%nat ->
  NoDup (Node.a <$> cs) ->
  (forall c : Node.t State, c ∈ cs ->
     exists k : nat, Node.a c = Some k /\ (k < Z.to_nat action_space)%nat) ->
  length (policy_spec cs temperature action_space) = Z.to_nat action_space
  /\ Forall (fun x : R => 0 <= x) (policy_spec cs temperature action_space)
  /\ Rsum (policy_spec cs temperature action_space) = 1.
Proof.
  intros Hsum Hdup Hcov.
  pose proof (total_visited temperature cs Hsum) as Hpos.
  split; [|split].
  - unfold policy_spec, py_range. rewrite length_map, length_seq. reflexivity.
  - apply Forall_forall. intros x Hx. unfold policy_spec in Hx.
    apply list_elem_of_fmap in Hx as (a & -> & _). unfold policy_entry.
    destruct (last (filter _ cs)) as [c|]; [|lra].
    pose proof (visit_power_nonneg temperature c).
    apply Rmult_le_pos; [assumption|]. left. apply Rinv_0_lt_compat. assumption.
  - unfold policy_spec, py_range, policy_entry.
    rewrite (entries_sum
               (fun c => visit_power temperature c
                         / Rsum (map (visit_power temperature) cs))
               (Z.to_nat action_space) cs Hdup Hcov).
    change (fun c : Node.t State =>
              visit_power temperature c / Rsum (map (visit_power temperature) cs))
      with ((fun x : R => x / Rsum (map (visit_power temperature) cs))
            ∘ @visit_power State temperature).
    rewrite (list_fmap_compose (@visit_power State temperature)).
    rewrite Rsum_div. unfold Rdiv. apply Rinv_r. lra.
Qed.

(** A node has no more children than the action space has actions, when
    their actions are distinct and within it. *)
Lemma children_bounded (cs : list (Node.t State)) (bound : nat) :
  NoDup (Node.a <$> cs) ->
  (forall c : Node.t State, c ∈ cs ->
     exists k : nat, Node.a c = Some k /\ (k < bound)%nat) ->
  (length cs <= bound)%nat.
Proof.
  intros Hdup Hcov.
  assert (Hsub : (Node.a <$> cs) ⊆+ (Some <$> seq 0 bound)).
  { apply NoDup_submseteq; [exact Hdup|]. intros x Hx.
    apply list_elem_of_fmap in Hx as (c & -> & Hc).
    destruct (Hcov c Hc) as (k & -> & Hk).
    apply list_elem_of_fmap_2, elem_of_seq. lia. }
  apply submseteq_length in Hsub.
  rewrite !length_fmap, length_seq in Hsub. exact Hsub.
Qed.

Lemma visit_le_sum (cs : list (Node.t State)) (c : Node.t State) :
  c ∈ cs -> (Node.n c <= visit_sum cs)%nat.
Proof.
  unfold visit_sum. induction cs as [|x cs IH]; intros Hc.
  - by apply not_elem_of_nil in Hc.
  - simpl. apply elem_of_cons in Hc as [->|Hc]; [lia|]. specialize (IH Hc). lia.
Qed.

Lemma visit_power_le (temperature : R) (c : Node.t State) (K : nat) :
  0 < temperature -> (Node.n c <= K)%nat -> (1 <= K)%nat ->
  visit_power temperature c <= Rpower (INR K) (1 / temperature).
Proof.
  intros HT Hle HK. unfold visit_power.
  destruct (Node.n c) as [|b] eqn:Hn.
  - left. unfold Rpower. apply exp_pos.
  - apply Rle_Rpower_l.
    + left. unfold Rdiv. rewrite Rmult_1_l. apply Rinv_0_lt_compat, HT.
    + split; [apply lt_0_INR; lia | apply le_INR; lia].
Qed.

Lemma Rsum_le_length (l : list R) (M : R) :
  (forall x, x ∈ l -> x <= M) -> Rsum l <= INR (length l) * M.
Proof.
  induction l as [|x l IH]; intros Hall.
  - simpl. lra.
  - change (length (x :: l)) with (S (length l)). rewrite S_INR. simpl.
    pose proof (Hall x ltac:(left)).
    assert (Rsum l <= INR (length l) * M) by (apply IH; intros y Hy; apply Hall; by right).
    lra.
Qed.

(** Powers of counts of sum at most [K], for no more than [bound]
    children, are in the range of the doubles if [bound * K^(1/temperature)]
    is. *)
Lemma powers_bounded (cs : list (Node.t State)) (temperature : R) (bound K : nat) :
  0 < temperature ->
  (length cs <= bound)%nat ->
  (visit_sum cs <= K)%nat ->
  (1 <= K)%nat ->
  INR bound * Rpower (INR K) (1 / temperature) < float_overflow ->
  powers_in_range temperature cs.
Proof.
  intros HT Hlen Hsum HK Hlt. unfold powers_in_range.
  set (M := Rpower (INR K) (1 / temperature)) in *.
  assert (HM : 0 < M) by (unfold M, Rpower; apply exp_pos).
  assert (H1 : Rsum (map (visit_power temperature) cs)
               <= INR (length (map (visit_power temperature) cs)) * M).
  { apply Rsum_le_length. intros x Hx.
    apply list_elem_of_fmap in Hx as (c & -> & Hc).
    apply visit_power_le; [exact HT | | exact HK].
    pose proof (visit_le_sum cs c Hc). lia. }
  rewrite length_map in H1.
  assert (H2 : INR (length cs) <= INR bound) by (apply le_INR; exact Hlen).
  nra.
Qed.

(** One simulation keeps the count of the visits, the actions of the
    children and the state of the root. *)
Lemma simulate_keeps_all (root : nat) (bound : nat) (s0 : State) h :
  (forall b : Board, (length (m b).1 <= bound)%nat) ->
  wf h root ->
  counted board env m h /\ acted bound h
  /\ (exists r, h !! root = Some r /\ Node.s r = s0) ->
  exists (h' : heap State) (k : nat),
    (forall fuel : nat, (k <= fuel)%nat ->
       simulate board turn env m fuel root h = Ok h')
    /\ wf h' root
    /\ (counted board env m h' /\ acted bound h'
        /\ (exists r', h' !! root = Some r' /\ Node.s r' = s0)).
Proof.
  intros Hfit Hwf (Hcount & Hact & Hroot).
  destruct (simulate_keeps_count board turn env m root h Hwf Hcount)
    as (h1 & k1 & Hrun1 & Hwf1 & Hcount1).
  destruct (simulate_keeps_actions board turn env m root bound s0 h Hfit Hwf Hact Hroot)
    as (h2 & k2 & Hrun2 & Hact2 & Hroot2).
  assert (h2 = h1) as ->.
  { pose proof (Hrun1 (Nat.max k1 k2) ltac:(lia)) as H1.
    pose proof (Hrun2 (Nat.max k1 k2) ltac:(lia)) as H2. congruence. }
  exists h1, k1. auto.
Qed.

(** X14.  From a tree in which the count of the visits holds and the
    actions of the children are distinct and within the action space, with a
    root that is not terminal and has a legal action, an evaluator that
    returns no more priors than the action space has actions, and a positive
    temperature at which the powers [n^(1/temperature)] of the visit counts
    that the search can reach, as many of them as there are actions, stay
    together in the range of the doubles: if the root ends with two visits
    or more, [search] returns, and its policy is a probability distribution
    over the action space -- as long as the action space, entries that are
    not negative, of sum 1 within the floating tolerance of one [float_eps]
    for each action. *)
Theorem search_returns_distribution (h : heap State) (root : nat) (r : Node.t State)
    (num_simulations : Z) (temperature : R) :
  (forall b : Board, (length (m b).1 <= Z.to_nat (action_space_size env))%nat) ->
  wf h root ->
  counted board env m h ->
  acted (Z.to_nat (action_space_size env)) h ->
  h !! root = Some r ->
  is_terminal env (Node.s r) = false ->
  legal_actions env (m (board (Node.s r))).1 (Node.s r) <> [] ->
  0 < temperature ->
  (2 <= Node.n r + Z.to_nat num_simulations)%nat ->
  INR (Z.to_nat (action_space_size env))
  * Rpower (INR (Node.n r + Z.to_nat num_simulations)) (1 / temperature)
  < float_overflow ->
  exists (h' : heap State) (policy : list R) (k : nat),
    (forall fuel : nat, (k <= fuel)%nat ->
       search board turn env m fuel h root num_simulations temperature
       = Ok (h', policy))
    /\ length policy = Z.to_nat (action_space_size env)
    /\ Forall (fun x : R => 0 <= x) policy
    /\ within_ulps (Z.to_nat (action_space_size env)) (Rsum policy) 1.
Proof.
  intros Hfit Hwf Hcount Hact Hr Hterm Hlegal HT Hvisits Hpowers.
  set (bound := Z.to_nat (action_space_size env)) in *.
  destruct (simulations_invariant board turn env m
              (fun h => counted board env m h /\ acted bound h
                        /\ (exists r0, h !! root = Some r0 /\ Node.s r0 = Node.s r))
              root
              (fun h0 => simulate_keeps_all root bound (Node.s r) h0 Hfit)
              (Z.to_nat num_simulations) h Hwf)
    as (h' & k & Hrun & Hwf' & Hcount' & Hact' & r' & Hr' & Hs').
  { split; [exact Hcount|]. split; [exact Hact|]. exists r. auto. }
  destruct (simulations_total board turn env m (Z.to_nat num_simulations) h root r Hwf Hr)
    as (h2 & r2 & k2 & Hrun2 & _ & Hr2 & Hn2).
  assert (h2 = h') as ->.
  { pose proof (Hrun (Nat.max k k2) ltac:(lia)) as H1.
    pose proof (Hrun2 (Nat.max k k2) ltac:(lia)) as H2. congruence. }
  assert (r2 = r') as -> by congruence.
  destruct (objects_exist h' (Node.children r')) as [cs Hobj].
  { intros c Hc. destruct (wf_parent h' root Hwf' root c r' Hr' Hc) as (ndc & Hndc & _).
    eauto. }
  assert (Hch : Node.children r' <> []).
  { intros Hnil. 
    destruct (counted_leaf board env m h' Hcount' root r' Hr' Hnil ltac:(lia))
      as [Hb | Hb]; rewrite Hs' in Hb; congruence. }
  assert (Hsum : visit_sum cs <> 0%nat).
  { rewrite (visit_sum_child_visits h' _ cs Hobj).
    pose proof (counted_sum board env m h' Hcount' root r' Hr' Hch). lia. }
  destruct (Hact' root r' cs Hr' Hobj) as [Hdup Hcov].
  assert (Hrange : powers_in_range temperature cs).
  { apply (powers_bounded cs temperature bound
             (Node.n r + Z.to_nat num_simulations)); [exact HT | | | lia | exact Hpowers].
    - exact (children_bounded cs bound Hdup Hcov).
    - rewrite (visit_sum_child_visits h' _ cs Hobj).
      pose proof (counted_sum board env m h' Hcount' root r' Hr' Hch). lia. }
  exists h', (policy_spec cs temperature (action_space_size env)), k.
  destruct (policy_distribution cs temperature (action_space_size env) Hsum Hdup Hcov)
    as (Hlen & Hpos & Hone).
  split; [|split; [exact Hlen | split; [exact Hpos | apply within_ulps_eq, Hone]]].
  intros fuel Hfuel. rewrite search_refines. unfold search_spec.
  rewrite (Hrun fuel Hfuel), bind_Ok.
  rewrite (get_policy_runs h' root r' cs temperature _ Hr' Hobj HT Hsum Hrange), bind_Ok.
  reflexivity.
Qed.

End Distribution.

Lemma acted_one_ply_root : acted 2 Examples.one_ply_root.
Proof.
  intros [|x] nd cs Hnd Hobj; simpl in Hnd; [|discriminate].
  injection Hnd as <-. inversion Hobj; subst. split; [constructor|].
  intros c Hc. by apply not_elem_of_nil in Hc.
Defined.

Lemma search_returns_distribution_witness :
  exists (h' : heap (option nat)) (policy : list R) (k : nat),
    (forall fuel : nat, (k <= fuel)%nat ->
       search Examples.board Examples.turn Examples.one_ply Examples.uniform
         fuel Examples.one_ply_root 0 3 1
       = Ok (h', policy))
    /\ length policy = 2%nat
    /\ Forall (fun x : R => 0 <= x) policy
    /\ within_ulps 2 (Rsum policy) 1.
Proof.
  apply (search_returns_distribution Examples.board Examples.turn Examples.one_ply
           Examples.uniform Examples.one_ply_root 0 (Node.init None None None 0 0) 3 1).
  - intros b. simpl. lia.
  - exact wf_one_ply_root.
  - exact counted_one_ply_root.
  - exact acted_one_ply_root.
  - reflexivity.
  - reflexivity.
  - discriminate.
  - lra.
  - simpl. lia.
  - replace (1 / 1) with 1 by lra. rewrite Rpower_1 by (simpl; lra).
    simpl. pose proof float_overflow_large. lra.
Defined.

(** ** Printing a tree *)

Section Printing.

Context {State : Type}.
Implicit Types (h : heap State) (nd : Node.t State).

Lemma print_children h (indent : Z) (l : list nat) :
  (forall c : nat, c ∈ l -> prints h c (indent + 1)) ->
  forall out : list (Z * Node.t State),
    exists (rest : list (Z * Node.t State)) (k : nat),
      (forall fuel : nat, (k <= fuel)%nat ->
         res_foldM
           (fun out child =>
              c ← deref h child;
              if (0 <? Node.n c)%nat
              then lines ← print_tree fuel h child (indent + 1);
                   Ok (out ++ lines)
              else Ok out) l out
         = Ok (out ++ rest))
      /\ (forall (d : Z) (c : Node.t State),
            (d, c) ∈ rest -> (0 < Node.n c)%nat /\ (indent < d)%Z)
      /\ (forall (d : Z) (c : Node.t State),
            (d, c) ∈ rest
            <-> exists (ch : nat) (ndch : Node.t State) (x : nat),
                  ch ∈ l /\ h !! ch = Some ndch /\ (0 < Node.n ndch)%nat
                  /\ shown h ch (indent + 1) x d /\ h !! x = Some c).
Proof.
  induction l as [|ch l IH]; intros Hall out.
  - exists [], 0%nat. split; [|split].
    + intros fuel _. simpl. rewrite app_nil_r. reflexivity.
    + intros d c Hin. by apply not_elem_of_nil in Hin.
    + intros d c. split.
      * intros Hin. by apply not_elem_of_nil in Hin.
      * intros (ch & _ & _ & Hin & _). by apply not_elem_of_nil in Hin.
  - destruct (Hall ch ltac:(left)) as (ndch & below & k1 & Hch & Hrun1 & Hpos1 & Hiff1).
    assert (Hall' : forall c : nat, c ∈ l -> prints h c (indent + 1)).
    { intros c Hc. apply Hall. by right. }
    destruct (Nat.ltb_spec 0 (Node.n ndch)) as [Hvis|Hunvis].
    + destruct (IH Hall' (out ++ (indent + 1, ndch)%Z :: below))
        as (rest & k2 & Hrun2 & Hpos2 & Hiff2).
      exists (((indent + 1)%Z, ndch) :: below ++ rest), (Nat.max k1 k2).
      split; [|split].
      * intros fuel Hfuel. simpl. run_deref Hch.
        destruct (Nat.ltb_spec 0 (Node.n ndch)) as [_|]; [|lia].
        rewrite Hrun1 by lia. rewrite !bind_Ok, Hrun2 by lia.
        f_equal. rewrite <- app_assoc. reflexivity.
      * intros d c Hin. apply elem_of_cons in Hin as [Heq|Hin].
        { injection Heq as -> ->. split; [exact Hvis | lia]. }
        apply elem_of_app in Hin as [Hin|Hin].
        { destruct (Hpos1 d c Hin). split; [assumption | lia]. }
        exact (Hpos2 d c Hin).
      * intros d c. rewrite app_comm_cons, elem_of_app, Hiff1, Hiff2. split.
        { intros [(x & Hx & Hc)|(ch' & ndch' & x & Hin & Hch' & Hv & Hx & Hc)].
          - exists ch, ndch, x. split; [left|]. auto.
          - exists ch', ndch', x. split; [by right|]. auto. }
        { intros (ch' & ndch' & x & Hin & Hch' & Hv & Hx & Hc).
          apply elem_of_cons in Hin as [->|Hin].
          - left. exists x. auto.
          - right. exists ch', ndch', x. auto. }
    + destruct (IH Hall' out) as (rest & k2 & Hrun2 & Hpos2 & Hiff2).
      exists rest, k2. split; [|split].
      * intros fuel Hfuel. simpl. run_deref Hch.
        destruct (Nat.ltb_spec 0 (Node.n ndch)) as [|_]; [lia|].
        rewrite bind_Ok. apply Hrun2, Hfuel.
      * exact Hpos2.
      * intros d c. rewrite Hiff2. split.
        { intros (ch' & ndch' & x & Hin & Hrest).
          exists ch', ndch', x. split; [by right | exact Hrest]. }
        { intros (ch' & ndch' & x & Hin & Hch' & Hv & Hrest).
          apply elem_of_cons in Hin as [->|Hin].
          - assert (ndch' = ndch) as -> by congruence. lia.
          - exists ch', ndch', x. auto. }
Qed.

Lemma print_tree_prints h (node : nat) :
  tree h node -> forall indent : Z, prints h node indent.
Proof.
  induction 1 as [node nd Hnd _ IH]. intros indent.
  destruct (print_children h indent (Node.children nd)
              (fun c Hc => IH c Hc (indent + 1)%Z) [])
    as (rest & k & Hrun & Hpos & Hiff).
  exists nd, rest, (S k). split; [exact Hnd|]. split; [|split].
  - intros [|fuel] Hfuel; [lia|]. simpl. run_deref Hnd.
    rewrite Hrun by lia. reflexivity.
  - exact Hpos.
  - intros d c. rewrite elem_of_cons, Hiff. split.
    + intros [Heq|(ch & ndch & x & Hin & Hch & Hv & Hx & Hc)].
      * injection Heq as -> ->. exists node. split; [constructor | exact Hnd].
      * exists x. split; [|exact Hc].
        exact (shown_child h node indent nd ch ndch x d Hnd Hin Hch Hv Hx).
    + intros (x & Hx & Hc). inversion Hx; subst.
      * left. congruence.
      * right. assert (nd0 = nd) as -> by congruence.
        exists c0, ndc, x. auto.
Qed.

(** X15.  On a finite tree [print_tree] returns, given fuel for its
    recursion.  Its first line is the node it is called on, at the indent it
    is called with, whatever the visit count of that node; every other line
    is a visited node, at a greater indent; and the lines are exactly the
    nodes reached from that node through visited children only, each at the
    indent of the call plus its depth: nothing below a child that was never
    visited is printed. *)
Theorem print_tree_shows_visited h (node : nat) (indent : Z) :
  tree h node ->
  exists (nd : Node.t State) (below : list (Z * Node.t State)) (k : nat),
    h !! node = Some nd
    /\ (forall fuel : nat, (k <= fuel)%nat ->
          print_tree fuel h node indent = Ok ((indent, nd) :: below))
    /\ (forall (d : Z) (c : Node.t State),
          (d, c) ∈ below -> (0 < Node.n c)%nat /\ (indent < d)%Z)
    /\ (forall (d : Z) (c : Node.t State),
          (d, c) ∈ (indent, nd) :: below
          <-> exists x : nat, shown h node indent x d /\ h !! x = Some c).
Proof. intros Htree. exact (print_tree_prints h node Htree indent). Qed.

End Printing.

Lemma tree_tie_tree : tree Examples.tie_tree 0.
Proof.
  assert (Hleaf : forall (c : nat) (nd : Node.t unit),
            Examples.tie_tree !! c = Some nd -> Node.children nd = [] ->
            tree Examples.tie_tree c).
  { intros c nd Hc Hnil. apply (tree_node Examples.tie_tree c nd Hc).
    rewrite Hnil. intros x Hx. by apply not_elem_of_nil in Hx. }
  apply (tree_node Examples.tie_tree 0%nat
           (Node.mk 6 0 0 0 None None tt 0 [1; 2]%nat)); [reflexivity|].
  intros c Hc. simpl in Hc.
  apply elem_of_cons in Hc as [->|Hc]; [eapply Hleaf; reflexivity|].
  apply elem_of_cons in Hc as [->|Hc]; [eapply Hleaf; reflexivity|].
  by apply not_elem_of_nil in Hc.
Defined.

Lemma print_tree_shows_visited_witness :
  exists (nd : Node.t unit) (below : list (Z * Node.t unit)) (k : nat),
    Examples.tie_tree !! 0%nat = Some nd
    /\ (forall fuel : nat, (k <= fuel)%nat ->
          print_tree fuel Examples.tie_tree 0 0 = Ok ((0%Z, nd) :: below))
    /\ (forall (d : Z) (c : Node.t unit),
          (d, c) ∈ below -> (0 < Node.n c)%nat /\ (0 < d)%Z)
    /\ (forall (d : Z) (c : Node.t unit),
          (d, c) ∈ (0%Z, nd) :: below
          <-> exists x : nat,
                shown Examples.tie_tree 0 0 x d /\ Examples.tie_tree !! x = Some c).
Proof. exact (print_tree_shows_visited Examples.tie_tree 0 0 tree_tie_tree). Defined.
